(** * hggit/util.py: a shallow embedding and its verified properties

    The module [hggit/util.py] of hg-git collects small helpers: the
    parsers and serializers of [.hgsub] and [.hgsubstate], the classifier
    [isgitsshuri], the guard [checksafessh], the lookup helper
    [get_value], the text/bytes helpers [to_bytes], [to_str],
    [convert], [path_join] and [lstrip], the decorator
    [transform_notgit] and [updatebookmarks].

    Python text ([str]) is a sequence of Unicode code points and is
    modelled as [list N]; Python [bytes] is modelled as [list byte].
    Calls that can raise are modelled in an error monad whose errors are
    the Python exceptions the source can raise. *)

From Stdlib Require Import String Ascii.
From Stdlib Require Import List NArith ZArith Bool Lia.
From Stdlib Require Import Strings.Byte Numbers.DecimalString Sorting.Sorted.
From Stdlib Require Import Permutation.
Import ListNotations.

Set Warnings "-register-all".

Local Open Scope N_scope.
Local Open Scope list_scope.

(** ** Text and bytes *)

Abbreviation codepoint := N (only parsing).
Definition pystr := list codepoint.
Definition pybytes := list byte.

(** The byte string written [b"..."] in Python. *)
Definition blit (s : string) : pybytes := list_byte_of_string s.

(** The (ASCII) text written ["..."] in Python. *)
Definition tlit (s : string) : pystr := map Byte.to_N (list_byte_of_string s).

(** A code point of a Python [str] is at most U+10FFFF. *)
Definition is_codepoint (c : codepoint) : bool := c <? 0x110000.

Definition is_surrogate (c : codepoint) : bool := (0xD800 <=? c) && (c <=? 0xDFFF).

Definition byte_of (n : N) : byte :=
  match Byte.of_N n with Some b => b | None => x00 end.

(** ** Exceptions and the error monad *)

Inductive pyexc :=
| UnicodeEncodeError
| UnicodeDecodeError
| TypeError
| ValueError
| KeyError
| AttributeError
| Abort (template : string) (arg : pystr)
    (* mercurial's error.Abort: message template and its argument *)
| PyException (template : string) (arg : pystr).
    (* the builtin Exception: message template and its argument *)

Inductive result (A : Type) :=
| Ok (a : A)
| Raise (e : pyexc).
Arguments Ok {A} a.
Arguments Raise {A} e.

Definition bind {A B} (r : result A) (f : A -> result B) : result B :=
  match r with
  | Ok a => f a
  | Raise e => Raise e
  end.

Notation "x <- c1 ;; c2" := (bind c1 (fun x => c2))
  (at level 61, c1 at next level, right associativity).

Section MapM.
Context {A B : Type} (f : A -> result B).
(** [list(map(f, l))]: the elements are visited from left to right and
    the first exception ends the traversal. *)
Fixpoint mapM (l : list A) : result (list B) :=
  match l with
  | [] => Ok []
  | x :: t => y <- f x ;; ys <- mapM t ;; Ok (y :: ys)
  end.
End MapM.

(** ** The UTF-8 codec

    [s.encode('utf-8')], [bytes(s, 'utf-8')], [b.decode('utf-8')] and
    [str(b, 'utf-8')] are CPython's UTF-8 codec.  Encoding refuses the
    surrogates U+D800..U+DFFF; decoding accepts exactly the well-formed
    sequences of the Unicode standard (no overlong forms, no surrogates,
    nothing above U+10FFFF). *)

Definition utf8_encode_cp (c : codepoint) : option pybytes :=
  if c <? 0x80 then Some [byte_of c]
  else if c <? 0x800 then
    Some [byte_of (0xC0 + c / 64); byte_of (0x80 + c mod 64)]
  else if c <? 0x10000 then
    if is_surrogate c then None
    else Some [byte_of (0xE0 + c / 4096); byte_of (0x80 + (c / 64) mod 64);
               byte_of (0x80 + c mod 64)]
  else if c <? 0x110000 then
    Some [byte_of (0xF0 + c / 262144); byte_of (0x80 + (c / 4096) mod 64);
          byte_of (0x80 + (c / 64) mod 64); byte_of (0x80 + c mod 64)]
  else None.

Fixpoint utf8_encode (s : pystr) : option pybytes :=
  match s with
  | [] => Some []
  | c :: t =>
    match utf8_encode_cp c, utf8_encode t with
    | Some b, Some bs => Some (b ++ bs)
    | _, _ => None
    end
  end.

Definition is_cont (b : byte) : bool :=
  let n := Byte.to_N b in (0x80 <=? n) && (n <? 0xC0).

(** The second byte of a three-byte sequence led by [n0]. *)
Definition second3 (n0 : N) (b : byte) : bool :=
  let n := Byte.to_N b in
  is_cont b &&
  (if n0 =? 0xE0 then 0xA0 <=? n else if n0 =? 0xED then n <? 0xA0 else true).

(** The second byte of a four-byte sequence led by [n0]. *)
Definition second4 (n0 : N) (b : byte) : bool :=
  let n := Byte.to_N b in
  is_cont b &&
  (if n0 =? 0xF0 then 0x90 <=? n else if n0 =? 0xF4 then n <? 0x90 else true).

Definition low6 (b : byte) : N := Byte.to_N b mod 64.

(** What the decoder does with an ill-formed sequence: [None] is the
    error handler 'strict' (raise), [Some c] is 'replace' with [c] put in
    place of the maximal ill-formed prefix. *)
Definition on_error (repl : option codepoint) (k : option pystr) : option pystr :=
  match repl with
  | None => None
  | Some c => option_map (cons c) k
  end.

Fixpoint utf8_decode_with (repl : option codepoint) (bs : pybytes) : option pystr :=
  match bs with
  | [] => Some []
  | b0 :: t0 =>
    let n0 := Byte.to_N b0 in
    if n0 <? 0x80 then option_map (cons n0) (utf8_decode_with repl t0)
    else if n0 <? 0xC2 then on_error repl (utf8_decode_with repl t0)
    else if n0 <? 0xE0 then
      match t0 with
      | b1 :: t1 =>
        if is_cont b1
        then option_map (cons ((n0 mod 32) * 64 + low6 b1)) (utf8_decode_with repl t1)
        else on_error repl (utf8_decode_with repl t0)
      | [] => on_error repl (utf8_decode_with repl t0)
      end
    else if n0 <? 0xF0 then
      match t0 with
      | b1 :: t1 =>
        if second3 n0 b1 then
          match t1 with
          | b2 :: t2 =>
            if is_cont b2
            then option_map (cons ((n0 mod 16) * 4096 + low6 b1 * 64 + low6 b2))
                            (utf8_decode_with repl t2)
            else on_error repl (utf8_decode_with repl t1)
          | [] => on_error repl (utf8_decode_with repl t1)
          end
        else on_error repl (utf8_decode_with repl t0)
      | [] => on_error repl (utf8_decode_with repl t0)
      end
    else if n0 <? 0xF5 then
      match t0 with
      | b1 :: t1 =>
        if second4 n0 b1 then
          match t1 with
          | b2 :: t2 =>
            if is_cont b2 then
              match t2 with
              | b3 :: t3 =>
                if is_cont b3
                then option_map
                       (cons ((n0 mod 8) * 262144 + low6 b1 * 4096 + low6 b2 * 64 + low6 b3))
                       (utf8_decode_with repl t3)
                else on_error repl (utf8_decode_with repl t2)
              | [] => on_error repl (utf8_decode_with repl t2)
              end
            else on_error repl (utf8_decode_with repl t1)
          | [] => on_error repl (utf8_decode_with repl t1)
          end
        else on_error repl (utf8_decode_with repl t0)
      | [] => on_error repl (utf8_decode_with repl t0)
      end
    else on_error repl (utf8_decode_with repl t0)
  end.

(** [b.decode('utf-8')] (errors='strict'). *)
Definition utf8_decode (bs : pybytes) : option pystr := utf8_decode_with None bs.

(** [b.decode('utf-8', 'replace')]: never fails. *)
Definition utf8_decode_replace (bs : pybytes) : pystr :=
  match utf8_decode_with (Some 0xFFFD) bs with
  | Some s => s
  | None => []
  end.

Definition str_encode (s : pystr) : result pybytes :=
  match utf8_encode s with
  | Some b => Ok b
  | None => Raise UnicodeEncodeError
  end.

Definition bytes_decode (b : pybytes) : result pystr :=
  match utf8_decode b with
  | Some s => Ok s
  | None => Raise UnicodeDecodeError
  end.

(** ** Python values *)

Inductive pyval :=
| VNone
| VBool (b : bool)
| VInt (z : Z)
| VStr (s : pystr)
| VBytes (b : pybytes)
| VTuple (l : list pyval)
| VList (l : list pyval)
| VDict (items : list (pyval * pyval)).
    (* a dict: its items in insertion order, keys pairwise different *)

(** What these helpers take from their environment: [repr] of byte
    strings and containers (what [str(v)] is for them) and
    [os.path.join_orig], which the importing package installs. *)
Class PyRuntime := {
  py_repr : pyval -> pystr;
  join_orig : pyval -> list pyval -> result pyval
}.

Definition str_of_Z (z : Z) : pystr := tlit (NilZero.string_of_int (Z.to_int z)).

(** [str(v)] *)
Definition py_str `{PyRuntime} (v : pyval) : pystr :=
  match v with
  | VNone => tlit "None"
  | VBool true => tlit "True"
  | VBool false => tlit "False"
  | VInt z => str_of_Z z
  | VStr s => s
  | _ => py_repr v
  end.

(** [bool(v)], the test of [if v:] *)
Definition truthy (v : pyval) : bool :=
  match v with
  | VNone => false
  | VBool b => b
  | VInt z => negb (Z.eqb z 0%Z)
  | VStr s => negb (Nat.eqb (length s) 0)
  | VBytes b => negb (Nat.eqb (length b) 0)
  | VTuple l | VList l => negb (Nat.eqb (length l) 0)
  | VDict d => negb (Nat.eqb (length d) 0)
  end.

Fixpoint hashable (v : pyval) : bool :=
  match v with
  | VNone | VBool _ | VInt _ | VStr _ | VBytes _ => true
  | VTuple l => forallb hashable l
  | VList _ | VDict _ => false
  end.

Definition str_eqb (a b : pystr) : bool :=
  if list_eq_dec N.eq_dec a b then true else false.

Definition bytes_eqb (a b : pybytes) : bool :=
  if list_eq_dec Byte.byte_eq_dec a b then true else false.

(** [a == b] on hashable values (the keys of a dict): text and bytes
    never compare equal, [True == 1] and [False == 0]. *)
Fixpoint py_eqb (a b : pyval) {struct a} : bool :=
  match a, b with
  | VNone, VNone => true
  | VBool x, VBool y => Bool.eqb x y
  | VBool x, VInt z | VInt z, VBool x => Z.eqb z (if x then 1 else 0)%Z
  | VInt x, VInt y => Z.eqb x y
  | VStr x, VStr y => str_eqb x y
  | VBytes x, VBytes y => bytes_eqb x y
  | VTuple l, VTuple l' =>
    (fix go (l l' : list pyval) {struct l} : bool :=
       match l, l' with
       | [], [] => true
       | x :: t, y :: t' => py_eqb x y && go t t'
       | _, _ => false
       end) l l'
  | _, _ => false
  end.

(** ** Dicts: items in insertion order *)

Definition pydict := list (pyval * pyval).

Fixpoint dict_lookup (d : pydict) (k : pyval) : option pyval :=
  match d with
  | [] => None
  | (k0, v0) :: t => if py_eqb k0 k then Some v0 else dict_lookup t k
  end.

(** [d.get(k, default)] *)
Definition dict_get (d : pydict) (k default : pyval) : result pyval :=
  if hashable k then
    match dict_lookup d k with
    | Some v => Ok v
    | None => Ok default
    end
  else Raise TypeError.

(** [d[k] = v]: an equal key keeps its place (and the old key object). *)
Fixpoint dict_set (d : pydict) (k v : pyval) : pydict :=
  match d with
  | [] => [(k, v)]
  | (k0, v0) :: t =>
    if py_eqb k0 k then (k0, v) :: t else (k0, v0) :: dict_set t k v
  end.

(** [dict(pairs)] *)
Fixpoint dict_update (d : pydict) (pairs : list (pyval * pyval)) : result pydict :=
  match pairs with
  | [] => Ok d
  | (k, v) :: t =>
    if hashable k then dict_update (dict_set d k v) t else Raise TypeError
  end.

Definition dict_of_pairs (pairs : list (pyval * pyval)) : result pydict :=
  dict_update [] pairs.

(** ** get_value *)

Definition is_type_str (v : pyval) : bool :=
  match v with VStr _ => true | _ => false end.

Definition is_type_bytes (v : pyval) : bool :=
  match v with VBytes _ => true | _ => false end.

(** ['%s is not in the dict' % key]: a tuple on the right of [%] is the
    argument list. *)
Definition format_percent_s `{PyRuntime} (key : pyval) : result pystr :=
  match key with
  | VTuple [x] => Ok (py_str x)
  | VTuple _ => Raise TypeError
  | _ => Ok (py_str key)
  end.

Definition get_value `{PyRuntime} (d : pydict) (key : pyval) : result pyval :=
  v <- dict_get d key VNone ;;
  v <- (if negb (truthy VNone) && is_type_str key then
          match key with
          | VStr s =>
            k <- str_encode s ;;
            dict_get d (VBytes k) VNone
          | _ => Ok v
          end
        else Ok v) ;;
  if truthy v then Ok v
  else
    msg <- format_percent_s key ;;
    Raise (PyException "%s is not in the dict" msg).

(** ** to_bytes, to_str, convert, path_join *)

Definition to_bytes `{PyRuntime} (v : pyval) : result pyval :=
  if negb (is_type_bytes v) then
    b <- str_encode (py_str v) ;; Ok (VBytes b)
  else Ok v.

Definition to_str (v : pyval) : result pyval :=
  match v with
  | VBytes b => s <- bytes_decode b ;; Ok (VStr s)
  | _ => Ok v
  end.

(** The classes passed as [frm] and [to]. *)
Inductive kind := KStr | KBytes.

Definition isinstance (v : pyval) (k : kind) : bool :=
  match k, v with
  | KStr, VStr _ => true
  | KBytes, VBytes _ => true
  | _, _ => false
  end.

(** [to(data, 'utf-8')]: [bytes(s, 'utf-8')] encodes a text, [str(b,
    'utf-8')] decodes a byte string; [bytes] of a byte string with an
    encoding and [str] of a text with an encoding are type errors. *)
Definition construct (to : kind) (data : pyval) : result pyval :=
  match to, data with
  | KBytes, VStr s => b <- str_encode s ;; Ok (VBytes b)
  | KStr, VBytes b => s <- bytes_decode b ;; Ok (VStr s)
  | _, _ => Raise TypeError
  end.

(** [convert]: the recursive calls are [map(convert, ...)], which call
    [convert] with one argument, that is with the defaults [frm=str] and
    [to=bytes].  [data.items()] yields the tuples [(k, v)]; [convert] of
    such a tuple is the tuple of the converted [k] and [v], from which
    [dict(...)] takes the key and the value. *)
Fixpoint convert (data : pyval) (frm to : kind) {struct data} : result pyval :=
  if isinstance data frm then construct to data
  else
    match data with
    | VDict items =>
      kvs <- mapM (fun kv => let '(k, v) := kv in
                             k' <- convert k KStr KBytes ;;
                             v' <- convert v KStr KBytes ;;
                             Ok (k', v')) items ;;
      d <- dict_of_pairs kvs ;;
      Ok (VDict d)
    | VTuple l =>
      r <- mapM (fun x => convert x KStr KBytes) l ;; Ok (VTuple r)
    | VList l =>
      r <- mapM (fun x => convert x KStr KBytes) l ;; Ok (VList r)
    | _ => Ok data
    end.


(** ** Trees of text and byte leaves *)

Definition encodable (s : pystr) : bool :=
  forallb (fun c => is_codepoint c && negb (is_surrogate c)) s.

(** Values built from text and byte strings, dicts (whose keys are
    hashable), tuples and lists. *)
Fixpoint stringlike_tree (v : pyval) : bool :=
  match v with
  | VStr _ | VBytes _ => true
  | VTuple l | VList l => forallb stringlike_tree l
  | VDict items =>
    forallb (fun kv => let '(k, x) := kv in
                       hashable k && stringlike_tree k && stringlike_tree x) items
  | _ => false
  end.

(** Every text leaf can be encoded in UTF-8. *)
Fixpoint encodable_tree (v : pyval) : bool :=
  match v with
  | VStr s => encodable s
  | VTuple l | VList l => forallb encodable_tree l
  | VDict items =>
    forallb (fun kv => let '(k, x) := kv in
                       encodable_tree k && encodable_tree x) items
  | _ => true
  end.

(** Every byte-string leaf is well-formed UTF-8. *)
Fixpoint decodable_tree (v : pyval) : bool :=
  match v with
  | VBytes b => match utf8_decode b with Some _ => true | None => false end
  | VTuple l | VList l => forallb decodable_tree l
  | VDict items =>
    forallb (fun kv => let '(k, x) := kv in
                       decodable_tree k && decodable_tree x) items
  | _ => true
  end.

(** Two leaves that differ at most in representation: the same text, the
    same bytes, or a text and the bytes that decode to it. *)
Definition same_leaf (x y : pyval) : bool :=
  match x, y with
  | VStr s, VStr s' => str_eqb s s'
  | VBytes b, VBytes b' => bytes_eqb b b'
  | VStr s, VBytes b | VBytes b, VStr s =>
    match utf8_decode b with
    | Some s' => str_eqb s s'
    | None => false
    end
  | _, _ => false
  end.

(** The same tree except for the representation of the leaves: the same
    container at every node, the same number of elements, the keys and
    values of a dict pairwise the same in their order. *)
Fixpoint same_upto_leaf (a b : pyval) {struct a} : bool :=
  match a, b with
  | VTuple l, VTuple l' | VList l, VList l' =>
    (fix go (l l' : list pyval) {struct l} : bool :=
       match l, l' with
       | [], [] => true
       | x :: t, y :: t' => same_upto_leaf x y && go t t'
       | _, _ => false
       end) l l'
  | VDict d, VDict d' =>
    (fix go (d d' : list (pyval * pyval)) {struct d} : bool :=
       match d, d' with
       | [], [] => true
       | (k, x) :: t, (k', x') :: t' =>
         same_upto_leaf k k' && same_upto_leaf x x' && go t t'
       | _, _ => false
       end) d d'
  | VTuple _, _ | VList _, _ | VDict _, _ => false
  | _, _ => same_leaf a b
  end.

Fixpoint pairwise {A} (r : A -> A -> bool) (l : list A) : bool :=
  match l with
  | [] => true
  | x :: t => forallb (r x) t && pairwise r t
  end.

(** No dict of the tree has two keys that are the same up to the
    representation of their leaves. *)
Fixpoint distinct_keys (v : pyval) : bool :=
  match v with
  | VTuple l | VList l => forallb distinct_keys l
  | VDict items =>
    forallb (fun kv => let '(k, x) := kv in distinct_keys k && distinct_keys x) items
    && pairwise (fun kv kv' => negb (same_upto_leaf (fst kv) (fst kv'))) items
  | _ => true
  end.

(** The keys of every dict are pairwise different (the invariant of a
    Python dict). *)
Fixpoint wf_value (v : pyval) : bool :=
  match v with
  | VTuple l | VList l => forallb wf_value l
  | VDict items =>
    forallb (fun kv => let '(k, x) := kv in hashable k && wf_value k && wf_value x) items
    && pairwise (fun kv kv' => negb (py_eqb (fst kv) (fst kv'))) items
  | _ => true
  end.

(** ** A runtime to evaluate on concrete inputs

    [posixpath.join] on byte strings stands for [os.path.join_orig], and
    [repr] is not computed. *)

Definition slash : byte := "/"%byte.

Fixpoint posix_join_bytes (path : pybytes) (p : list pybytes) : pybytes :=
  match p with
  | [] => path
  | b :: t =>
    match b with
    | c :: _ =>
      if Byte.eqb c slash then posix_join_bytes b t
      else match rev path with
           | [] => posix_join_bytes (path ++ b) t
           | l :: _ => if Byte.eqb l slash then posix_join_bytes (path ++ b) t
                       else posix_join_bytes (path ++ slash :: b) t
           end
    | [] =>
      match rev path with
      | [] => posix_join_bytes path t
      | l :: _ => if Byte.eqb l slash then posix_join_bytes path t
                  else posix_join_bytes (path ++ [slash]) t
      end
    end
  end.

Definition as_bytes (v : pyval) : result pybytes :=
  match v with
  | VBytes b => Ok b
  | _ => Raise TypeError
  end.

Definition posix_join (a : pyval) (p : list pyval) : result pyval :=
  a' <- as_bytes a ;;
  p' <- mapM as_bytes p ;;
  Ok (VBytes (posix_join_bytes a' p')).

Definition sample_runtime : PyRuntime :=
  {| py_repr := fun _ => tlit "<repr>"; join_orig := posix_join |}.

(** All leaves are byte strings. *)
Fixpoint bytes_only (v : pyval) : bool :=
  match v with
  | VBytes _ => true
  | VTuple l | VList l => forallb bytes_only l
  | VDict items =>
    forallb (fun kv => let '(k, x) := kv in bytes_only k && bytes_only x) items
  | _ => false
  end.

Fixpoint all2 {A B} (r : A -> B -> bool) (l : list A) (l' : list B) : bool :=
  match l, l' with
  | [], [] => true
  | x :: t, y :: t' => r x y && all2 r t t'
  | _, _ => false
  end.

(** ** Auxiliary notions for the properties of convert *)

Definition same_item (kv kv' : pyval * pyval) : bool :=
  same_upto_leaf (fst kv) (fst kv') && same_upto_leaf (snd kv) (snd kv').

Definition key_differs (kv kv' : pyval * pyval) : bool :=
  negb (py_eqb (fst kv) (fst kv')).

Definition convert_item (kv : pyval * pyval) : result (pyval * pyval) :=
  let '(k, v) := kv in
  k' <- convert k KStr KBytes ;; v' <- convert v KStr KBytes ;; Ok (k', v').

Definition conv_good (T : pyval) : Prop :=
  stringlike_tree T = true -> encodable_tree T = true -> distinct_keys T = true ->
  exists T', convert T KStr KBytes = Ok T' /\
             same_upto_leaf T T' = true /\
             bytes_only T' = true /\
             wf_value T' = true /\
             (hashable T = true -> hashable T' = true).

Definition C4_sample : pyval :=
  VDict [(VStr (tlit "k"), VList [VStr (tlit "a"); VBytes (blit "b")]);
         (VTuple [VStr (tlit "x"); VBytes (blit "y")], VStr [0xE9; 0x20AC])].

(** ** checksafessh

    [urllib.parse.unquote(string)] on a text: when the text holds a
    ['%'], its maximal runs of ASCII characters are percent-decoded to
    bytes ([unquote_to_bytes]) and those bytes decoded as UTF-8 with
    errors='replace'; the runs of other characters are kept. *)

Definition percent : byte := "%"%byte.

Definition hex_digit (b : byte) : option N :=
  let n := Byte.to_N b in
  if (48 <=? n) && (n <=? 57) then Some (n - 48)          (* 0-9 *)
  else if (65 <=? n) && (n <=? 70) then Some (n - 55)     (* A-F *)
  else if (97 <=? n) && (n <=? 102) then Some (n - 87)    (* a-f *)
  else None.

(** [b.split(sep)] for a one-byte separator: at least one piece. *)
Fixpoint split_byte (sep : byte) (l : pybytes) : list pybytes :=
  match l with
  | [] => [[]]
  | c :: t =>
    if Byte.eqb c sep then [] :: split_byte sep t
    else match split_byte sep t with
         | p :: ps => (c :: p) :: ps
         | [] => [[c]]
         end
  end.

(** One piece after a ['%']: [_hextobyte[item[:2]] + item[2:]], or
    ['%' + item] when the first two bytes are not two hex digits. *)
Definition unquote_item (item : pybytes) : pybytes :=
  match item with
  | h1 :: h2 :: rest =>
    match hex_digit h1, hex_digit h2 with
    | Some v1, Some v2 => byte_of (16 * v1 + v2) :: rest
    | _, _ => percent :: item
    end
  | _ => percent :: item
  end.

Definition unquote_to_bytes (bs : pybytes) : pybytes :=
  match split_byte percent bs with
  | first :: (_ :: _) as items => first ++ concat (map unquote_item items)
  | _ => bs
  end.

(** The maximal runs of a text, each marked ASCII ([true]) or not: the
    pieces of [_asciire.split(string)], without the empty ones. *)
Fixpoint ascii_runs (s : pystr) : list (bool * pystr) :=
  match s with
  | [] => []
  | c :: t =>
    match ascii_runs t with
    | (a, r) :: rest =>
      if Bool.eqb a (c <? 128) then (a, c :: r) :: rest
      else (c <? 128, [c]) :: (a, r) :: rest
    | [] => [(c <? 128, [c])]
    end
  end.

Definition unquote (s : pystr) : pystr :=
  if existsb (N.eqb 37) s then
    concat (map (fun run : bool * pystr =>
                   let '(a, r) := run in
                   if a then utf8_decode_replace (unquote_to_bytes (map byte_of r))
                   else r)
                (ascii_runs s))
  else s.

(** [s.startswith(p)] *)
Fixpoint startswith (s p : pystr) : bool :=
  match p, s with
  | [], _ => true
  | c :: p', d :: s' => (c =? d) && startswith s' p'
  | _ :: _, [] => false
  end.

Definition checksafessh (host : pystr) : result pyval :=
  let host := unquote host in
  if startswith host (tlit "-")
  then Raise (Abort "potentially unsafe hostname: %r" host)
  else Ok VNone.

(** ** .hgsub and .hgsubstate

    The two files are dicts from text to text, kept in insertion order
    ([OrderedDict]). *)

Definition strdict := list (pystr * pystr).

Fixpoint od_lookup (d : strdict) (k : pystr) : option pystr :=
  match d with
  | [] => None
  | (k0, v0) :: t => if str_eqb k0 k then Some v0 else od_lookup t k
  end.

(** [rv[k] = v] *)
Fixpoint od_set (d : strdict) (k v : pystr) : strdict :=
  match d with
  | [] => [(k, v)]
  | (k0, v0) :: t => if str_eqb k0 k then (k0, v) :: t else (k0, v0) :: od_set t k v
  end.

(** [data[k]] *)
Definition od_getitem (d : strdict) (k : pystr) : result pystr :=
  match od_lookup d k with
  | Some v => Ok v
  | None => Raise KeyError
  end.

(** The characters that [str.strip()] removes ([str.isspace]). *)
Definition is_space (c : codepoint) : bool :=
  ((0x09 <=? c) && (c <=? 0x0D)) || ((0x1C <=? c) && (c <=? 0x20))
  || (c =? 0x85) || (c =? 0xA0) || (c =? 0x1680)
  || ((0x2000 <=? c) && (c <=? 0x200A))
  || (c =? 0x2028) || (c =? 0x2029) || (c =? 0x202F) || (c =? 0x205F)
  || (c =? 0x3000).

Fixpoint lstrip (s : pystr) : pystr :=
  match s with
  | [] => []
  | c :: t => if is_space c then lstrip t else s
  end.

Fixpoint rstrip (s : pystr) : pystr :=
  match s with
  | [] => []
  | c :: t =>
    match rstrip t with
    | [] => if is_space c then [] else [c]
    | r => c :: r
    end
  end.

(** [s.strip()] *)
Definition strip (s : pystr) : pystr := rstrip (lstrip s).

(** [s.split(sep, 1)] for a one-character separator: the two pieces, or
    [None] when the separator does not occur (the split has one piece). *)
Fixpoint split_once (sep : codepoint) (s : pystr) : option (pystr * pystr) :=
  match s with
  | [] => None
  | c :: t =>
    if c =? sep then Some ([], t)
    else match split_once sep t with
         | Some (a, b) => Some (c :: a, b)
         | None => None
         end
  end.

Definition ch_hash : codepoint := 35.
Definition ch_equal : codepoint := 61.
Definition ch_space : codepoint := 32.
Definition ch_newline : codepoint := 10.

(** [not ls or ls[0] == '#'] *)
Definition skipped (ls : pystr) : bool :=
  match ls with
  | [] => true
  | c :: _ => c =? ch_hash
  end.

(** The loop of [parse_hgsub], from the dict [rv] filled so far.  The
    unpacking [name, value = l.split('=', 1)] raises ValueError when the
    line has no ['=']. *)
Fixpoint parse_hgsub_from (rv : strdict) (lines : list pystr) : result strdict :=
  match lines with
  | [] => Ok rv
  | l :: rest =>
    let ls := strip l in
    if skipped ls then parse_hgsub_from rv rest
    else match split_once ch_equal l with
         | Some (name, value) =>
           parse_hgsub_from (od_set rv (strip name) (strip value)) rest
         | None => Raise ValueError
         end
  end.

Definition parse_hgsub (lines : list pystr) : result strdict :=
  parse_hgsub_from [] lines.

(** [data.iteritems()]: the dicts of Python 3, [OrderedDict] included,
    have no attribute [iteritems] (it is a method of the dicts of
    Python 2), so the attribute lookup raises. *)
Definition od_iteritems (data : strdict) : result (list (pystr * pystr)) :=
  Raise AttributeError.

(** ['%s = %s\n' % (n, v)] *)
Definition hgsub_line (nv : pystr * pystr) : pystr :=
  fst nv ++ tlit " = " ++ snd nv ++ [ch_newline].

(** [''.join(['%s = %s\n' % (n, v) for n, v in data.iteritems()])] *)
Definition serialize_hgsub (data : strdict) : result pystr :=
  items <- od_iteritems data ;; Ok (concat (map hgsub_line items)).

Fixpoint parse_hgsubstate_from (rv : strdict) (lines : list pystr) : result strdict :=
  match lines with
  | [] => Ok rv
  | l :: rest =>
    let ls := strip l in
    if skipped ls then parse_hgsubstate_from rv rest
    else match split_once ch_space l with
         | Some (value, name) =>
           parse_hgsubstate_from (od_set rv (strip name) (strip value)) rest
         | None => Raise ValueError
         end
  end.

Definition parse_hgsubstate (lines : list pystr) : result strdict :=
  parse_hgsubstate_from [] lines.

(** [a <= b] on texts: the lexicographic order of the code points. *)
Fixpoint str_leb (a b : pystr) : bool :=
  match a, b with
  | [], _ => true
  | _ :: _, [] => false
  | x :: a', y :: b' =>
    if x <? y then true else if y <? x then false else str_leb a' b'
  end.

Fixpoint insert_sorted (k : pystr) (l : list pystr) : list pystr :=
  match l with
  | [] => [k]
  | h :: t => if str_leb k h then k :: l else h :: insert_sorted k t
  end.

(** [sorted(keys)] *)
Fixpoint sorted (l : list pystr) : list pystr :=
  match l with
  | [] => []
  | k :: t => insert_sorted k (sorted t)
  end.

(** The list that [serialize_hgsubstate] joins: ['%s %s\n' % (data[n],
    n)] for [n] in [sorted(data)]. *)
Definition hgsubstate_lines (data : strdict) : result (list pystr) :=
  mapM (fun n => v <- od_getitem data n ;; Ok (v ++ [ch_space] ++ n ++ [ch_newline]))
       (sorted (map fst data)).

Definition serialize_hgsubstate (data : strdict) : result pystr :=
  ls <- hgsubstate_lines data ;; Ok (concat ls).

(** No white space at either end. *)
Definition trimmed (s : pystr) : bool :=
  match s with
  | [] => true
  | c :: _ => negb (is_space c) && negb (is_space (last s c))
  end.

Definition contains (c : codepoint) (s : pystr) : bool := existsb (N.eqb c) s.

(** A key or a value that survives the round trip: not empty, trimmed,
    not a comment. *)
Definition plain_token (s : pystr) : bool :=
  match s with
  | [] => false
  | c :: _ => trimmed s && negb (c =? ch_hash)
  end.

Fixpoint distinct (l : list pystr) : bool :=
  match l with
  | [] => true
  | k :: t => negb (existsb (str_eqb k) t) && distinct t
  end.

(** A mapping that [.hgsub] can hold. *)
Definition hgsub_mapping (d : strdict) : bool :=
  distinct (map fst d)
  && forallb (fun nv => plain_token (fst nv) && plain_token (snd nv)
                        && negb (contains ch_equal (fst nv))) d.

(** A mapping that [.hgsubstate] can hold. *)
Definition hgsubstate_mapping (d : strdict) : bool :=
  distinct (map fst d)
  && forallb (fun nv => plain_token (fst nv) && plain_token (snd nv)
                        && negb (contains ch_space (snd nv))) d.

Definition hgsubstate_line (nv : pystr * pystr) : pystr :=
  snd nv ++ [ch_space] ++ fst nv ++ [ch_newline].

(** The lines of a text: its pieces cut after each line feed, each with
    its line feed, and what follows the last line feed if anything does.
    This is how a text comes to the parsers, which take lines. *)
Fixpoint cut_lines_from (cur text : pystr) : list pystr :=
  match text with
  | [] => match cur with [] => [] | _ => [rev cur] end
  | c :: t =>
    if N.eqb c ch_newline then rev (c :: cur) :: cut_lines_from [] t
    else cut_lines_from (c :: cur) t
  end.

Definition cut_lines (text : pystr) : list pystr := cut_lines_from [] text.

(** Neither the key nor the value holds a line feed. *)
Definition one_line_item (nv : pystr * pystr) : bool :=
  negb (contains ch_newline (fst nv)) && negb (contains ch_newline (snd nv)).

Definition str_le (a b : pystr) : Prop := str_leb a b = true.

(** The items of [d] in the order of [sorted(d)]. *)
Definition sorted_items (d : strdict) : strdict :=
  map (fun n => (n, match od_lookup d n with Some v => v | None => [] end))
      (sorted (map fst d)).

Definition C9_sample : strdict :=
  [(tlit "sub/beta", tlit "[git]https://example.org/beta.git");
   (tlit "alpha dir", tlit "0123456789abcdef")].

(** ** Regular expressions: the backtracking matcher of [re]

    The two patterns of [isgitsshuri] use character classes, sequence,
    greedy repetition, capturing groups, look-ahead, a one-character
    negative look-behind, [^] and [$].  [results r st] lists the states
    in which a match of [r] begun in [st] can end, in the order in which
    the backtracking matcher of [re] tries them (a greedy repetition
    tries one more iteration before it tries to stop); [re.match] takes
    the first. *)

Inductive regex :=
| Chr (p : codepoint -> bool)      (* one character of a class *)
| Seq (r1 r2 : regex)
| Rep (lo : nat) (hi : option nat) (r : regex)
    (* greedy r{lo,hi}; r* is {0,}, r+ is {1,}, r? is {0,1} *)
| Group (i : nat) (r : regex)      (* the capturing group number i *)
| Look (positive : bool) (r : regex)   (* (?=r) and (?!r) *)
| NotBehind (p : codepoint -> bool)    (* (?<!c), c a one-character class *)
| Bol                              (* ^ *)
| Eol.                             (* $ *)

(** A state of the matcher: the text already consumed (last character
    first), the text still to match, and the groups captured so far. *)
Record mstate := MState {
  before : pystr;
  after : pystr;
  groups : list (nat * pystr)
}.

Definition set_group (i : nat) (s : pystr) (st : mstate) : mstate :=
  MState (before st) (after st) ((i, s) :: groups st).

(** [m.group(i)] *)
Fixpoint lookup_group (i : nat) (gs : list (nat * pystr)) : option pystr :=
  match gs with
  | [] => None
  | (j, s) :: t => if Nat.eqb i j then Some s else lookup_group i t
  end.

Definition group (m : mstate) (i : nat) : pystr :=
  match lookup_group i (groups m) with
  | Some s => s
  | None => []
  end.

(** [m.group(0)] of a match begun at the start of the text. *)
Definition matched (m : mstate) : pystr := rev (before m).

Definition more_allowed (hi : option nat) : bool :=
  match hi with
  | Some 0%nat => false
  | _ => true
  end.

Definition one_less (hi : option nat) : option nat :=
  match hi with
  | Some n => Some (pred n)
  | None => None
  end.

(** Greedy repetition of [body], between [lo] and [hi] more times.  An
    iteration that consumes nothing ends the repetition; [fuel] is more
    than the length of the text left, so it does not run out. *)
Fixpoint rep (body : mstate -> list mstate) (fuel lo : nat) (hi : option nat)
         (st : mstate) : list mstate :=
  match fuel with
  | O => []
  | S f =>
    (if more_allowed hi then
       flat_map (fun st' =>
                   if Nat.ltb (length (after st')) (length (after st))
                   then rep body f (pred lo) (one_less hi) st'
                   else [])
                (body st)
     else [])
    ++ (if Nat.eqb lo 0 then [st] else [])
  end.

Definition ch_lf : codepoint := 10.

Fixpoint results (r : regex) (st : mstate) : list mstate :=
  match r with
  | Chr p =>
    match after st with
    | c :: t => if p c then [MState (c :: before st) t (groups st)] else []
    | [] => []
    end
  | Seq r1 r2 => flat_map (results r2) (results r1 st)
  | Rep lo hi r => rep (results r) (S (length (after st))) lo hi st
  | Group i r =>
    map (fun st' =>
           set_group i (firstn (length (after st) - length (after st')) (after st)) st')
        (results r st)
  | Look positive r =>
    match results r st with
    | [] => if positive then [] else [st]
    | _ :: _ => if positive then [st] else []
    end
  | NotBehind p =>
    match before st with
    | c :: _ => if p c then [] else [st]
    | [] => [st]
    end
  | Bol =>
    match before st with
    | [] => [st]
    | _ :: _ => []
    end
  | Eol =>
    match after st with
    | [] => [st]
    | [c] => if c =? ch_lf then [st] else []
    | _ => []
    end
  end.

(** [re.match(r, s)]: the first way to match [r] at the start of [s]. *)
Definition re_match (r : regex) (s : pystr) : option mstate :=
  hd_error (results r (MState [] s [])).

Notation "r1 ';;;' r2" := (Seq r1 r2) (at level 60, right associativity).

(** ** The character classes *)

(** [str.isalnum] above ASCII, and the decimal digits above ASCII: the
    Unicode database behind the classes \w and \d of a text pattern. *)
Class UnicodeDB := {
  unicode_alnum : codepoint -> bool;
  unicode_decimal : codepoint -> bool
}.

Definition in_range (lo hi c : codepoint) : bool := (lo <=? c) && (c <=? hi).

Definition ascii_digit (c : codepoint) : bool := in_range 48 57 c.
Definition ascii_upper (c : codepoint) : bool := in_range 65 90 c.
Definition ascii_lower (c : codepoint) : bool := in_range 97 122 c.
Definition ascii_letter (c : codepoint) : bool := ascii_upper c || ascii_lower c.

Definition is_char (x : codepoint) (c : codepoint) : bool := c =? x.

Definition ch_at : codepoint := 64.
Definition ch_colon : codepoint := 58.
Definition ch_dot : codepoint := 46.
Definition ch_hyphen : codepoint := 45.
Definition ch_lbracket : codepoint := 91.
Definition ch_rbracket : codepoint := 93.
Definition ch_underscore : codepoint := 95.

(** [.]: any character but a line feed *)
Definition any_char (c : codepoint) : bool := negb (c =? ch_lf).

(** \w *)
Definition word_char `{UnicodeDB} (c : codepoint) : bool :=
  if c <? 128 then ascii_letter c || ascii_digit c || (c =? ch_underscore)
  else unicode_alnum c.

(** \d *)
Definition digit_char `{UnicodeDB} (c : codepoint) : bool :=
  if c <? 128 then ascii_digit c else unicode_decimal c.

(** [[\w\d\.\:\-]] *)
Definition host_char `{UnicodeDB} (c : codepoint) : bool :=
  word_char c || digit_char c || (c =? ch_dot) || (c =? ch_colon) || (c =? ch_hyphen).

(** [[a-zA-Z0-9-]] *)
Definition label_char (c : codepoint) : bool :=
  ascii_letter c || ascii_digit c || (c =? ch_hyphen).

Definition star (r : regex) : regex := Rep 0 None r.
Definition plus (r : regex) : regex := Rep 1 None r.
Definition opt (r : regex) : regex := Rep 0 (Some 1%nat) r.
Definition between (lo hi : nat) (r : regex) : regex := Rep lo (Some hi) r.

(** ** isgitsshuri *)

Definition gitschemes : list pystr :=
  [tlit "git"; tlit "git+ssh"; tlit "git+http"; tlit "git+https"].

(** [.+@]: what the first, non-capturing group of the pattern repeats. *)
Definition user_re : regex := plus (Chr any_char) ;;; Chr (is_char ch_at).

(** [[\[]?[\w\d\.\:\-]+[\]]?]: the content of the first capturing group. *)
Definition host_re `{UnicodeDB} : regex :=
  opt (Chr (is_char ch_lbracket)) ;;;
  plus (Chr host_char) ;;;
  opt (Chr (is_char ch_rbracket)).

(** [:( .* )]: the colon and the second capturing group (written here
    with blanks around [.*]). *)
Definition path_re : regex :=
  Chr (is_char ch_colon) ;;; Group 2 (star (Chr any_char)).

(** The pattern [(?:.+@)*([\[]?[\w\d\.\:\-]+[\]]?):( .* )]. *)
Definition uri_re `{UnicodeDB} : regex :=
  star user_re ;;; Group 1 host_re ;;; path_re.

(** [((?!-)[a-zA-Z0-9-]{1,63}(?<!-)\.)]: one label and its dot, the
    second group of the FQDN pattern. *)
Definition label_re : regex :=
  Group 2 (Look false (Chr (is_char ch_hyphen)) ;;;
           between 1 63 (Chr label_char) ;;;
           NotBehind (is_char ch_hyphen) ;;;
           Chr (is_char ch_dot)).

(** [(?=^.{4,253}$)]: the look-ahead of the FQDN pattern. *)
Definition length_re : regex :=
  Look true (Bol ;;; between 4 253 (Chr any_char) ;;; Eol).

(** [(?=^.{4,253}$)(^((?!-)[a-zA-Z0-9-]{1,63}(?<!-)\.)+[a-zA-Z]{2,63}$)] *)
Definition fqdn_re : regex :=
  length_re ;;;
  Group 1 (Bol ;;; plus label_re ;;; between 2 63 (Chr ascii_letter) ;;; Eol).

(** [s.endswith(p)] *)
Definition endswith (s p : pystr) : bool := startswith (rev s) (rev p).

Definition is_match (m : option mstate) : bool :=
  match m with Some _ => true | None => false end.

Definition isgitsshuri `{UnicodeDB} (uri : pystr) : bool :=
  if existsb (fun scheme => startswith uri (scheme ++ tlit "://")) gitschemes
  then false
  else if startswith uri (tlit "http:") || startswith uri (tlit "https:")
  then false
  else
    match re_match uri_re uri with
    | Some m =>
      let giturl := group m 1 in
      let repopath := group m 2 in
      if endswith repopath (tlit ".git") then true
      else if is_match (re_match fqdn_re giturl) then true
      else false
    | None => false
    end.

(** A Unicode database that knows no character above ASCII, to evaluate
    on concrete inputs. *)
Definition ascii_db : UnicodeDB :=
  {| unicode_alnum := fun _ => false; unicode_decimal := fun _ => false |}.

(** ** Notions for the properties of the matcher *)

(** [st'] is reached from [st] by consuming a piece of the text. *)
Definition extends (st st' : mstate) : Prop :=
  exists w, after st = w ++ after st' /\ before st' = rev w ++ before st.

(** [n] iterations of [body], each consuming something. *)
Inductive iter (body : mstate -> list mstate) : nat -> mstate -> mstate -> Prop :=
| iter_0 st : iter body 0 st st
| iter_S n st st1 st' :
    In st1 (body st) ->
    (length (after st1) < length (after st))%nat ->
    iter body n st1 st' ->
    iter body (S n) st st'.

Definition within (hi : option nat) (n : nat) : Prop :=
  match hi with
  | None => True
  | Some h => (n <= h)%nat
  end.

(** [x] is a longer match than [y]: less text is left. *)
Definition longer (x y : mstate) : Prop :=
  (length (after x) < length (after y))%nat.


(** ** The host names that the FQDN pattern describes *)

(** A label: 1 to 63 letters, digits and hyphens, no hyphen at either
    end. *)
Definition label_ok (l : pystr) : bool :=
  (1 <=? length l)%nat && (length l <=? 63)%nat && forallb label_char l
  && negb (startswith l [ch_hyphen]) && negb (endswith l [ch_hyphen]).

(** The top-level label: 2 to 63 letters. *)
Definition tld_ok (t : pystr) : bool :=
  (2 <=? length t)%nat && (length t <=? 63)%nat && forallb ascii_letter t.

Definition dotted (labels : list pystr) : pystr :=
  concat (map (fun l => l ++ [ch_dot]) labels).

(** One or more labels, each followed by a dot, then the top-level
    label; 4 to 253 characters in all. *)
Definition fqdn_spec (h : pystr) : Prop :=
  (4 <= length h <= 253)%nat /\
  exists labels tld,
    labels <> [] /\ forallb label_ok labels = true /\ tld_ok tld = true /\
    h = dotted labels ++ tld.

(** ** The split of a location that the pattern chooses *)

(** The part before the host: nothing, or a text without line feed that
    ends with ['@'] after at least one other character. *)
Definition user_part (u : pystr) : Prop :=
  u = [] \/ exists w, w <> [] /\ forallb any_char w = true /\ u = w ++ [ch_at].

(** The host token: one or more host characters, with or without ['[']
    in front and with or without [']'] behind. *)
Definition host_token `{UnicodeDB} (h : pystr) : Prop :=
  exists ob run cb,
    (ob = [] \/ ob = [ch_lbracket]) /\ (cb = [] \/ cb = [ch_rbracket]) /\
    run <> [] /\ forallb host_char run = true /\ h = ob ++ run ++ cb.

(** The path: the text after the colon up to the first line feed. *)
Definition path_part (p rest : pystr) : Prop :=
  forallb any_char p = true /\ (rest = [] \/ exists r, rest = ch_lf :: r).

Definition parses `{UnicodeDB} (uri u h p : pystr) : Prop :=
  exists rest, uri = u ++ h ++ ch_colon :: p ++ rest /\
               user_part u /\ host_token h /\ path_part p rest.

(** Among the splits of [uri], the one with the longest user part and,
    for that user part, the longest host token. *)
Definition preferred `{UnicodeDB} (uri u h p : pystr) : Prop :=
  parses uri u h p /\
  forall u' h' p', parses uri u' h' p' ->
    (length u' < length u)%nat \/
    (length u' = length u /\ length h' <= length h)%nat.

Definition has_scheme_prefix (uri : pystr) : bool :=
  existsb (fun scheme => startswith uri (scheme ++ tlit "://")) gitschemes
  || startswith uri (tlit "http:") || startswith uri (tlit "https:").

Definition start_state (s : pystr) : mstate := MState [] s [].

(** The state [c] reached from [s1] by reading the text [h]. *)
Definition after_host (s1 : mstate) (h : pystr) (c : mstate) : Prop :=
  after s1 = h ++ after c /\ before c = rev h ++ before s1 /\ groups c = groups s1.

(** The three pieces of a host token. *)
Definition host_words `{UnicodeDB} (ob run cb : pystr) : Prop :=
  (ob = [] \/ ob = [ch_lbracket]) /\ (cb = [] \/ cb = [ch_rbracket]) /\
  run <> [] /\ forallb host_char run = true.

(** ** The classifier as the specification words it

    "uri matches the pattern of an optional user@ prefix, a host token
    of word characters, digits, dots, colons and hyphens optionally
    enclosed in brackets, a literal ':', and an arbitrary path remainder;
    and either the path remainder ends with '.git', or the host token
    matches the FQDN pattern": some way to cut [uri] into these pieces
    passes the test on the path or on the host. *)

(** All the ways to cut a text in two. *)
Fixpoint splits (s : pystr) : list (pystr * pystr) :=
  ([], s) ::
  match s with
  | [] => []
  | c :: t => map (fun ab => (c :: fst ab, snd ab)) (splits t)
  end.

Definition spec_user (u : pystr) : bool :=
  match rev u with
  | [] => true
  | c :: _ => c =? ch_at
  end.

Definition spec_plain_host `{UnicodeDB} (h : pystr) : bool :=
  negb (Nat.eqb (length h) 0) && forallb host_char h.

Definition spec_host `{UnicodeDB} (h : pystr) : bool :=
  spec_plain_host h
  || match h with
     | c :: t =>
       (c =? ch_lbracket)
       && match rev t with
          | d :: r => (d =? ch_rbracket) && spec_plain_host (rev r)
          | [] => false
          end
     | [] => false
     end.

Definition spec_classify `{UnicodeDB} (uri : pystr) : bool :=
  negb (has_scheme_prefix uri)
  && existsb
       (fun ur =>
          spec_user (fst ur)
          && existsb
               (fun hr =>
                  match snd hr with
                  | c :: p =>
                    (c =? ch_colon) && spec_host (fst hr)
                    && (endswith p (tlit ".git")
                        || is_match (re_match fqdn_re (fst hr)))
                  | [] => false
                  end)
               (splits (snd ur)))
       (splits uri).

(** The text before the last [c] of [s]. *)
Definition before_last (c : codepoint) (s : pystr) : option pystr :=
  match split_once c (rev s) with
  | Some (_, b) => Some (rev b)
  | None => None
  end.

Definition C3_sample : pystr := tlit "[2001:db8::1]:repo".

Definition C8_sample : pystr := tlit "git@github.com:user/repo.git".

(** ** Induction on values: the elements of a tuple, of a list and of a
    dict are values too *)

Section PyvalInd.
Variable P : pyval -> Prop.
Hypothesis HNone : P VNone.
Hypothesis HBool : forall b, P (VBool b).
Hypothesis HInt : forall z, P (VInt z).
Hypothesis HStr : forall s, P (VStr s).
Hypothesis HBytes : forall b, P (VBytes b).
Hypothesis HTuple : forall l, Forall P l -> P (VTuple l).
Hypothesis HList : forall l, Forall P l -> P (VList l).
Hypothesis HDict :
  forall items, Forall (fun kv => P (fst kv) /\ P (snd kv)) items -> P (VDict items).

Fixpoint pyval_nested_ind (v : pyval) : P v :=
  match v with
  | VNone => HNone
  | VBool b => HBool b
  | VInt z => HInt z
  | VStr s => HStr s
  | VBytes b => HBytes b
  | VTuple l =>
    HTuple l ((fix go (l : list pyval) : Forall P l :=
                 match l with
                 | [] => Forall_nil P
                 | x :: t => Forall_cons x (pyval_nested_ind x) (go t)
                 end) l)
  | VList l =>
    HList l ((fix go (l : list pyval) : Forall P l :=
                match l with
                | [] => Forall_nil P
                | x :: t => Forall_cons x (pyval_nested_ind x) (go t)
                end) l)
  | VDict items =>
    HDict items
      ((fix go (l : list (pyval * pyval))
          : Forall (fun kv => P (fst kv) /\ P (snd kv)) l :=
          match l with
          | [] => Forall_nil _
          | (k, x) :: t =>
            Forall_cons (k, x) (conj (pyval_nested_ind k) (pyval_nested_ind x)) (go t)
          end) items)
  end.
End PyvalInd.

(** The longest prefix of [s] whose characters are all ASCII ([a] true)
    or all not ASCII ([a] false). *)
Fixpoint take_class (a : bool) (s : pystr) : pystr :=
  match s with
  | [] => []
  | x :: s' => if Bool.eqb a (x <? 128) then x :: take_class a s' else []
  end.

(** A text that begins with a hyphen, plain or percent-encoded. *)
Definition hyphen_first (h : pystr) : bool :=
  startswith h (tlit "-") || startswith h (tlit "%2d") || startswith h (tlit "%2D").

(** ** Notions for the further properties of the two parsers *)

(** A line that the loops of [parse_hgsub] and [parse_hgsubstate] do not
    skip. *)
Definition content_line (l : pystr) : bool := negb (skipped (strip l)).

(** The assignment [rv[name.strip()] = value.strip()] that a line of
    [.hgsub] makes: [name, value = l.split('=', 1)]. *)
Definition hgsub_entry (l : pystr) : option (pystr * pystr) :=
  match split_once ch_equal l with
  | Some (name, value) => Some (strip name, strip value)
  | None => None
  end.

(** The assignment that a line of [.hgsubstate] makes: [value, name =
    l.split(' ', 1)]. *)
Definition hgsubstate_entry (l : pystr) : option (pystr * pystr) :=
  match split_once ch_space l with
  | Some (value, name) => Some (strip name, strip value)
  | None => None
  end.

(** The common loop of the two parsers, for the assignment [entry] that
    a line makes. *)
Fixpoint parse_with (entry : pystr -> option (pystr * pystr))
         (rv : strdict) (lines : list pystr) : result strdict :=
  match lines with
  | [] => Ok rv
  | l :: rest =>
    if content_line l then
      match entry l with
      | Some (k, v) => parse_with entry (od_set rv k v) rest
      | None => Raise ValueError
      end
    else parse_with entry rv rest
  end.

(** A key that [parse_hgsub] returns: trimmed, without ['='], not
    beginning with ['#']. *)
Definition hgsub_key (k : pystr) : bool :=
  trimmed k && negb (contains ch_equal k) && negb (startswith k [ch_hash]).

(** An item that [parse_hgsub] returns. *)
Definition hgsub_item (nv : pystr * pystr) : bool :=
  hgsub_key (fst nv) && trimmed (snd nv).

(** An item that [parse_hgsubstate] returns: key and value trimmed, the
    value without a space, and value and key not both empty, the first
    character of the two not being ['#']. *)
Definition hgsubstate_item (nv : pystr * pystr) : bool :=
  trimmed (fst nv) && trimmed (snd nv) && negb (contains ch_space (snd nv))
  && negb (skipped (snd nv ++ fst nv)).

(** The line [l] assigns the key [k]. *)
Definition assigns (entry : pystr -> option (pystr * pystr)) (k l : pystr) : bool :=
  content_line l &&
  match entry l with
  | Some (k', _) => str_eqb k' k
  | None => false
  end.

Definition hgsub_sample_lines : list pystr :=
  [tlit "# subrepositories"; tlit "lib = [git]one.git"; tlit "";
   tlit "  lib=[git]two.git  "; tlit "doc = =x"].

Definition hgsubstate_sample_lines : list pystr :=
  [tlit "0123 lib"; tlit "# state"; tlit "4567 doc dir "; tlit "89ab lib"].

(** ** Notions for the further properties of convert and get_value *)

(** No text anywhere in the value. *)
Fixpoint no_text (v : pyval) : bool :=
  match v with
  | VStr _ => false
  | VTuple l | VList l => forallb no_text l
  | VDict items =>
    forallb (fun kv => let '(k, x) := kv in no_text k && no_text x) items
  | _ => true
  end.

(** What [convert] with the defaults returns is free of text and a
    well-formed value. *)
Definition converted (v : pyval) : bool := no_text v && wf_value v.

(** What [convert] with the defaults does on a well-formed value: it
    returns exactly when every text can be encoded, a hashable value
    stays hashable, and the exception is UnicodeEncodeError. *)
Definition convert_outcome (v : pyval) : Prop :=
  wf_value v = true ->
  match convert v KStr KBytes with
  | Ok v' => encodable_tree v = true /\ (hashable v = true -> hashable v' = true)
  | Raise e => e = UnicodeEncodeError /\ encodable_tree v = false
  end.

(** A value that is true in a test is stored under [k]. *)
Definition stored_true (d : pydict) (k : pyval) : bool :=
  match dict_lookup d k with
  | Some v => truthy v
  | None => false
  end.

Definition convert_sample : pyval :=
  VDict [(VStr (tlit "k"), VList [VStr (tlit "a"); VBytes (blit "b"); VInt 7; VNone]);
         (VTuple [VStr (tlit "x"); VBool true], VStr [0xE9; 0x20AC])].

(** ** Notions for the further properties of isgitsshuri *)

(** What every host name of the FQDN pattern looks like: 4 to 253 ASCII
    letters, digits, hyphens and dots, at least one dot, a letter or a
    digit in front and two letters at the end. *)
Definition fqdn_shape (h : pystr) : bool :=
  (4 <=? length h)%nat && (length h <=? 253)%nat
  && forallb (fun c => label_char c || (c =? ch_dot)) h
  && contains ch_dot h
  && match h with
     | c :: _ => ascii_letter c || ascii_digit c
     | [] => false
     end
  && match rev h with
     | c :: d :: _ => ascii_letter c && ascii_letter d
     | _ => false
     end.

(** ** lstrip and transform_notgit

    The helper [lstrip(vstr, p)] of the module is [util.lstrip] here,
    the name [lstrip] being the method [str.lstrip()] above. *)

(** [b.lstrip(chars)] on byte strings: the leading bytes that occur in
    [chars] are removed. *)
Fixpoint bytes_lstrip (chars b : pybytes) : pybytes :=
  match b with
  | [] => []
  | c :: t => if existsb (Byte.eqb c) chars then bytes_lstrip chars t else b
  end.

Module util.

(** [vstr.lstrip(to_bytes(p))]: the method is looked up first (only text
    and byte strings have it), then the argument is computed;
    [str.lstrip] takes no byte string. *)
Definition lstrip `{PyRuntime} (vstr p : pyval) : result pyval :=
  match vstr with
  | VBytes b =>
    chars <- to_bytes p ;;
    match chars with
    | VBytes chars => Ok (VBytes (bytes_lstrip chars b))
    | _ => Raise TypeError
    end
  | VStr _ => _ <- to_bytes p ;; Raise TypeError
  | _ => Raise AttributeError
  end.

End util.

(** What a function that calls into dulwich can raise:
    [errors.NotGitRepository], or another exception. *)
Inductive dulwich_exc :=
| NotGitRepository
| OtherException (e : pyexc).

Inductive outcome (A : Type) :=
| Returns (a : A)
| Raises (e : dulwich_exc).
Arguments Returns {A} a.
Arguments Raises {A} e.

(** The decorator: [inner] calls [f] and turns NotGitRepository into
    [error.Abort('not a git repository')]. *)
Definition transform_notgit {A B : Type} (f : A -> outcome B) : A -> outcome B :=
  fun args =>
    match f args with
    | Raises NotGitRepository =>
      Raises (OtherException (Abort "not a git repository" []))
    | r => r
    end.

(** ** updatebookmarks

    The function works on the repository through Mercurial: it takes
    the two locks, opens a transaction, changes the bookmark store and
    closes the transaction, and releases what it took in a [finally].
    The model keeps the bookmark store and the list of the calls into
    Mercurial that returned; which calls raise, and which methods the
    store has, is given by the Mercurial the function runs in.  Reading
    [repo._bookmarks], before the [try], is taken to return. *)

Inductive resource := Wlock | Lock | Transaction.

(** The calls into Mercurial. *)
Inductive event :=
| Acquire (r : resource)
    (* [repo.wlock()], [repo.lock()], [repo.transaction(name)] *)
| ApplyChanges              (* [bms.applychanges(repo, tr, changes)] *)
| RecordChange              (* [bms.recordchange(tr)] *)
| WriteStore                (* [bms.write()] *)
| Close                     (* [tr.close()] *)
| Release (r : resource).   (* [release()] of a lock or transaction *)

(** A change [(name, node)]; the node is [None] to delete the bookmark. *)
Definition change := (pystr * option pystr)%type.

Record mercurial := {
  has_applychanges : bool;  (* [hgutil.safehasattr(bms, 'applychanges')] *)
  has_recordchange : bool;  (* [hgutil.safehasattr(bms, 'recordchange')] *)
  raises : event -> option pyexc;   (* the exception of a call that raises *)
  applychanges : strdict -> list change -> strdict
    (* the store after [bms.applychanges] *)
}.

Record repo := {
  bookmarks : strdict;      (* [repo._bookmarks] *)
  calls : list event        (* the calls that returned, in their order *)
}.

(** The local variables [tr], [lock] and [wlock]: [true] once assigned,
    [false] while [None]. *)
Record locals := { tr : bool; lock : bool; wlock : bool }.

Definition frame := (locals * repo)%type.

(** A piece of the function body: it runs in a frame and returns or
    raises, leaving a frame. *)
Definition prog (A : Type) := frame -> result A * frame.

Definition ret {A} (a : A) : prog A := fun s => (Ok a, s).

Definition seq {A B} (p : prog A) (q : prog B) : prog B :=
  fun s =>
    match p s with
    | (Ok _, s') => q s'
    | (Raise e, s') => (Raise e, s')
    end.

Notation "p '>>' q" := (seq p q) (at level 62, right associativity).

Definition call (hg : mercurial) (ev : event) : prog unit :=
  fun s =>
    match raises hg ev with
    | Some e => (Raise e, s)
    | None =>
      (Ok tt, (fst s, {| bookmarks := bookmarks (snd s);
                         calls := calls (snd s) ++ [ev] |}))
    end.

(** The assignment of what an acquiring call returned. *)
Definition assign (r : resource) : prog unit :=
  fun s =>
    let l := fst s in
    (Ok tt,
     (match r with
      | Wlock => {| tr := tr l; lock := lock l; wlock := true |}
      | Lock => {| tr := tr l; lock := true; wlock := wlock l |}
      | Transaction => {| tr := true; lock := lock l; wlock := wlock l |}
      end, snd s)).

(** What is left of a dict after [del d[k]]. *)
Fixpoint od_del (d : strdict) (k : pystr) : strdict :=
  match d with
  | [] => []
  | (k0, v0) :: t => if str_eqb k0 k then t else (k0, v0) :: od_del t k
  end.

(** [del bms[name]] *)
Definition del_bookmark (name : pystr) : prog unit :=
  fun s =>
    match od_lookup (bookmarks (snd s)) name with
    | None => (Raise KeyError, s)
    | Some _ =>
      (Ok tt, (fst s, {| bookmarks := od_del (bookmarks (snd s)) name;
                         calls := calls (snd s) |}))
    end.

(** [bms[name] = node] *)
Definition set_bookmark (name node : pystr) : prog unit :=
  fun s =>
    (Ok tt, (fst s, {| bookmarks := od_set (bookmarks (snd s)) name node;
                       calls := calls (snd s) |})).

(** [for name, node in changes: ...] *)
Fixpoint for_changes (changes : list change) : prog unit :=
  match changes with
  | [] => ret tt
  | (name, node) :: rest =>
    (match node with
     | None => del_bookmark name
     | Some n => set_bookmark name n
     end) >> for_changes rest
  end.

Definition call_applychanges (hg : mercurial) (changes : list change) : prog unit :=
  fun s =>
    match raises hg ApplyChanges with
    | Some e => (Raise e, s)
    | None =>
      (Ok tt, (fst s, {| bookmarks := applychanges hg (bookmarks (snd s)) changes;
                         calls := calls (snd s) ++ [ApplyChanges] |}))
    end.

(** The statements after the transaction is open. *)
Definition change_store (hg : mercurial) (changes : list change) : prog unit :=
  (if has_applychanges hg then call_applychanges hg changes
   else for_changes changes >>
        (if has_recordchange hg then call hg RecordChange else call hg WriteStore))
  >> call hg Close.

(** The [try] block. *)
Definition try_block (hg : mercurial) (changes : list change) : prog unit :=
  call hg (Acquire Wlock) >> assign Wlock >>
  call hg (Acquire Lock) >> assign Lock >>
  call hg (Acquire Transaction) >> assign Transaction >>
  change_store hg changes.

(** [lockmod.release(tr, lock, wlock)]: each one that is not [None] is
    released, in this order; an exception ends the loop. *)
Definition release_one (hg : mercurial) (held : bool) (r : resource) : prog unit :=
  if held then call hg (Release r) else ret tt.

Definition release (hg : mercurial) : prog unit :=
  fun s =>
    (release_one hg (tr (fst s)) Transaction >>
     release_one hg (lock (fst s)) Lock >>
     release_one hg (wlock (fst s)) Wlock) s.

(** [try: ... finally: ...]: an exception of the [finally] block
    replaces the outcome of the [try] block. *)
Definition updatebookmarks (hg : mercurial) (changes : list change) (r : repo)
  : result unit * repo :=
  let '(res, s) :=
    try_block hg changes ({| tr := false; lock := false; wlock := false |}, r) in
  let '(rel, s') := release hg s in
  (match rel with
   | Ok _ => res
   | Raise e => Raise e
   end, snd s').

(** The longest beginning of [l] whose calls do not raise. *)
Fixpoint upto_raise {A : Type} (raise : A -> option pyexc) (l : list A) : list A :=
  match l with
  | [] => []
  | x :: t =>
    match raise x with
    | None => x :: upto_raise raise t
    | Some _ => []
    end
  end.

(** What [updatebookmarks] gets hold of: the working-copy lock, the
    repository lock and the transaction, up to the first of the three
    calls that raises. *)
Definition acquired (hg : mercurial) : list resource :=
  upto_raise (fun x => raises hg (Acquire x)) [Wlock; Lock; Transaction].

(** What it releases: what it holds, the last taken first, up to the
    first [release()] that raises. *)
Definition released (hg : mercurial) : list resource :=
  upto_raise (fun x => raises hg (Release x)) (rev (acquired hg)).

(** Every deletion of [changes] finds its bookmark in the store, as the
    changes before it have left it. *)
Fixpoint deletions_ok (bms : strdict) (changes : list change) : bool :=
  match changes with
  | [] => true
  | (name, Some node) :: rest => deletions_ok (od_set bms name node) rest
  | (name, None) :: rest =>
    match od_lookup bms name with
    | Some _ => deletions_ok (od_del bms name) rest
    | None => false
    end
  end.

(** The calls on the store and on the transaction that return once the
    three are held, for the store [bms]. *)
Definition store_calls (hg : mercurial) (bms : strdict) (changes : list change)
  : list event :=
  if has_applychanges hg then upto_raise (raises hg) [ApplyChanges; Close]
  else if deletions_ok bms changes then
         upto_raise (raises hg)
                    [if has_recordchange hg then RecordChange else WriteStore; Close]
       else [].

(** The calls between the acquisitions and the releases. *)
Definition is_work (ev : event) : bool :=
  match ev with
  | ApplyChanges | RecordChange | WriteStore | Close => true
  | _ => false
  end.

(** The last change that [changes] makes to the bookmark [name]. *)
Fixpoint last_change (name : pystr) (changes : list change) : option (option pystr) :=
  match changes with
  | [] => None
  | (n, node) :: rest =>
    match last_change name rest with
    | Some x => Some x
    | None => if str_eqb n name then Some node else None
    end
  end.

(** An old Mercurial, without [applychanges] and [recordchange], in
    which no call raises. *)
Definition old_mercurial : mercurial :=
  {| has_applychanges := false; has_recordchange := false;
     raises := fun _ => None; applychanges := fun d _ => d |}.

Definition bookmarks_sample : repo :=
  {| bookmarks := [(tlit "master", tlit "11aa"); (tlit "old", tlit "22bb")];
     calls := [] |}.

Definition changes_sample : list change :=
  [(tlit "master", Some (tlit "33cc")); (tlit "old", None);
   (tlit "topic", Some (tlit "44dd"))].

(** * Properties *)

(** ** The UTF-8 codec *)

Lemma byte_of_to_N (n : N) : n < 256 -> Byte.to_N (byte_of n) = n.
Proof.
  intros Hn. unfold byte_of.
  destruct (Byte.of_N n) as [b|] eqn:E.
  - now apply Byte.to_of_N.
  - apply Byte.of_N_None_iff in E. lia.
Qed.

Lemma Some_eq {A} (x y : A) : Some x = Some y -> x = y.
Proof. now intros [= ->]. Qed.

Lemma mod_shift (k m q : N) : m <> 0 -> q < m -> (k * m + q) mod m = q.
Proof.
  intros Hm Hq. rewrite N.add_comm, N.Div0.mod_add. now apply N.mod_small.
Qed.

Lemma split6 (c : N) : c = 64 * (c / 64) + c mod 64.
Proof. apply N.div_mod. discriminate. Qed.

Lemma split12 (c : N) : c = 4096 * (c / 4096) + 64 * ((c / 64) mod 64) + c mod 64.
Proof.
  rewrite (split6 c) at 1.
  rewrite (split6 (c / 64)) at 1.
  rewrite N.Div0.div_div. change (64 * 64) with 4096. lia.
Qed.

Lemma split18 (c : N) :
  c = 262144 * (c / 262144) + 4096 * ((c / 4096) mod 64)
      + 64 * ((c / 64) mod 64) + c mod 64.
Proof.
  rewrite (split12 c) at 1.
  rewrite (split6 (c / 4096)) at 1.
  rewrite N.Div0.div_div. change (4096 * 64) with 262144. lia.
Qed.

Lemma mod64_lt (n : N) : n mod 64 < 64.
Proof. apply N.mod_lt. discriminate. Qed.

Lemma ltb_true (a b : N) : a < b -> (a <? b) = true.
Proof. apply N.ltb_lt. Qed.

Lemma ltb_false (a b : N) : b <= a -> (a <? b) = false.
Proof. apply N.ltb_ge. Qed.

Lemma leb_true (a b : N) : a <= b -> (a <=? b) = true.
Proof. apply N.leb_le. Qed.

Lemma decode_1 repl b0 t :
  Byte.to_N b0 < 0x80 ->
  utf8_decode_with repl (b0 :: t)
  = option_map (cons (Byte.to_N b0)) (utf8_decode_with repl t).
Proof. intros H. cbn [utf8_decode_with]. now rewrite ltb_true. Qed.

Lemma decode_2 repl b0 b1 t :
  0xC2 <= Byte.to_N b0 -> Byte.to_N b0 < 0xE0 -> is_cont b1 = true ->
  utf8_decode_with repl (b0 :: b1 :: t)
  = option_map (cons ((Byte.to_N b0 mod 32) * 64 + low6 b1)) (utf8_decode_with repl t).
Proof.
  intros H1 H2 H3. cbn [utf8_decode_with].
  rewrite !ltb_false by lia. rewrite ltb_true by lia. now rewrite H3.
Qed.

Lemma decode_3 repl b0 b1 b2 t :
  0xE0 <= Byte.to_N b0 -> Byte.to_N b0 < 0xF0 ->
  second3 (Byte.to_N b0) b1 = true -> is_cont b2 = true ->
  utf8_decode_with repl (b0 :: b1 :: b2 :: t)
  = option_map (cons ((Byte.to_N b0 mod 16) * 4096 + low6 b1 * 64 + low6 b2))
               (utf8_decode_with repl t).
Proof.
  intros H1 H2 H3 H4. cbn [utf8_decode_with].
  rewrite !ltb_false by lia. rewrite ltb_true by lia. now rewrite H3, H4.
Qed.

Lemma decode_4 repl b0 b1 b2 b3 t :
  0xF0 <= Byte.to_N b0 -> Byte.to_N b0 < 0xF5 ->
  second4 (Byte.to_N b0) b1 = true -> is_cont b2 = true -> is_cont b3 = true ->
  utf8_decode_with repl (b0 :: b1 :: b2 :: b3 :: t)
  = option_map
      (cons ((Byte.to_N b0 mod 8) * 262144 + low6 b1 * 4096 + low6 b2 * 64 + low6 b3))
      (utf8_decode_with repl t).
Proof.
  intros H1 H2 H3 H4 H5. cbn [utf8_decode_with].
  rewrite !ltb_false by lia. rewrite ltb_true by lia. now rewrite H3, H4, H5.
Qed.

Lemma is_cont_byte_of (r : N) : r < 64 -> is_cont (byte_of (128 + r)) = true.
Proof.
  intros H. unfold is_cont. rewrite byte_of_to_N by lia.
  rewrite leb_true, ltb_true by lia. reflexivity.
Qed.

Lemma low6_byte_of (r : N) : r < 64 -> low6 (byte_of (128 + r)) = r.
Proof.
  intros H. unfold low6. rewrite byte_of_to_N by lia.
  change 128 with (2 * 64). now apply mod_shift.
Qed.

Lemma utf8_decode_encode_cp (repl : option codepoint) (c : codepoint) (b rest : pybytes) :
  utf8_encode_cp c = Some b ->
  utf8_decode_with repl (b ++ rest) = option_map (cons c) (utf8_decode_with repl rest).
Proof.
  unfold utf8_encode_cp, is_surrogate.
  destruct (N.ltb_spec c 0x80).
  { intros E; apply Some_eq in E; subst b; cbn [app].
    rewrite decode_1; rewrite byte_of_to_N by lia; [reflexivity | lia]. }
  destruct (N.ltb_spec c 0x800).
  { intros E; apply Some_eq in E; subst b; cbn [app].
    pose proof (split6 c) as Hc. pose proof (mod64_lt c) as Hr.
    remember (c / 64) as q eqn:Eq. remember (c mod 64) as r eqn:Er. clear Eq Er.
    rewrite decode_2; rewrite ?byte_of_to_N by lia;
      [ | lia | lia | now apply is_cont_byte_of ].
    rewrite low6_byte_of by lia. change 192 with (6 * 32).
    rewrite mod_shift by lia. do 2 f_equal. lia. }
  destruct (N.ltb_spec c 0x10000).
  { pose proof (split12 c) as Hc. pose proof (mod64_lt c) as Hr.
    pose proof (mod64_lt (c / 64)) as Hm.
    remember (c / 4096) as q eqn:Eq. remember ((c / 64) mod 64) as m eqn:Em.
    remember (c mod 64) as r eqn:Er. clear Eq Em Er.
    destruct ((0xD800 <=? c) && (c <=? 0xDFFF)) eqn:Es; [discriminate|].
    apply andb_false_iff in Es.
    rewrite N.leb_gt, N.leb_gt in Es.
    intros E; apply Some_eq in E; subst b; cbn [app].
    rewrite decode_3; rewrite ?byte_of_to_N by lia;
      [ | lia | lia | | now apply is_cont_byte_of ].
    - rewrite !low6_byte_of by lia. change 224 with (14 * 16).
      rewrite mod_shift by lia. do 2 f_equal. lia.
    - unfold second3. rewrite is_cont_byte_of by lia. rewrite byte_of_to_N by lia.
      cbn [andb].
      destruct (N.eqb_spec (224 + q) 224); [apply leb_true; lia|].
      destruct (N.eqb_spec (224 + q) 237); [apply ltb_true; lia|reflexivity]. }
  destruct (N.ltb_spec c 0x110000); [|discriminate].
  pose proof (split18 c) as Hc. pose proof (mod64_lt c) as Hr.
  pose proof (mod64_lt (c / 64)) as Hm. pose proof (mod64_lt (c / 4096)) as Hn.
  remember (c / 262144) as q eqn:Eq. remember ((c / 4096) mod 64) as n eqn:En.
  remember ((c / 64) mod 64) as m eqn:Em. remember (c mod 64) as r eqn:Er.
  clear Eq En Em Er.
  intros E; apply Some_eq in E; subst b; cbn [app].
  rewrite decode_4; rewrite ?byte_of_to_N by lia;
    [ | lia | lia | | now apply is_cont_byte_of | now apply is_cont_byte_of ].
  - rewrite !low6_byte_of by lia. change 240 with (30 * 8).
    rewrite mod_shift by lia. do 2 f_equal. lia.
  - unfold second4. rewrite is_cont_byte_of by lia. rewrite byte_of_to_N by lia.
    cbn [andb].
    destruct (N.eqb_spec (240 + q) 240); [apply leb_true; lia|].
    destruct (N.eqb_spec (240 + q) 244); [apply ltb_true; lia|reflexivity].
Qed.

Lemma utf8_decode_encode (s : pystr) (b : pybytes) :
  utf8_encode s = Some b -> utf8_decode b = Some s.
Proof.
  revert b. induction s as [|c t IH]; intros b.
  - intros [= <-]. reflexivity.
  - cbn [utf8_encode].
    destruct (utf8_encode_cp c) as [bc|] eqn:Ec; [|discriminate].
    destruct (utf8_encode t) as [bt|] eqn:Et; [|discriminate].
    intros [= <-]. unfold utf8_decode.
    rewrite (utf8_decode_encode_cp None c bc bt Ec).
    fold (utf8_decode bt). now rewrite (IH bt eq_refl).
Qed.

Lemma utf8_encode_cp_total (c : codepoint) :
  is_codepoint c && negb (is_surrogate c) = true ->
  exists b, utf8_encode_cp c = Some b.
Proof.
  unfold utf8_encode_cp, is_codepoint. intros H.
  apply andb_true_iff in H. destruct H as [Hc Hs].
  apply negb_true_iff in Hs. rewrite Hs, Hc.
  destruct (c <? 128); [eauto|].
  destruct (c <? 2048); [eauto|].
  destruct (c <? 65536); eauto.
Qed.

Lemma utf8_encode_total (s : pystr) :
  encodable s = true -> exists b, utf8_encode s = Some b.
Proof.
  induction s as [|c t IH]; cbn [encodable forallb utf8_encode].
  - eauto.
  - intros H. apply andb_true_iff in H. destruct H as [Hc Ht].
    destruct (utf8_encode_cp_total c Hc) as [b ->].
    destruct (IH Ht) as [bs ->]. eauto.
Qed.

(** ** to_bytes and to_str *)

Section Scalars.
Context `{R : PyRuntime}.

Lemma to_bytes_returns_bytes (v r : pyval) :
  to_bytes v = Ok r -> exists b, r = VBytes b.
Proof.
  unfold to_bytes. destruct v; cbn [is_type_bytes negb];
    try (destruct (str_encode _); cbn [bind]; intros [= <-]; eauto).
  intros [= <-]. eauto.
Qed.

Lemma to_bytes_idem (x : pyval) : (y <- to_bytes x ;; to_bytes y) = to_bytes x.
Proof.
  destruct (to_bytes x) as [r|e] eqn:E; cbn [bind]; [|reflexivity].
  destruct (to_bytes_returns_bytes x r E) as [b ->]. reflexivity.
Qed.

Lemma to_str_idem (x : pyval) : (y <- to_str x ;; to_str y) = to_str x.
Proof.
  destruct x; try reflexivity.
  cbn [to_str]. destruct (bytes_decode b); reflexivity.
Qed.

End Scalars.

(** C7, as the spec states it, fails on a text that holds a lone
    surrogate: [to_bytes] raises UnicodeEncodeError where [to_str]
    alone returns the text. *)
Lemma C7_surrogate_counterexample :
  let x := VStr [0xD800] in
  forallb is_codepoint [0xD800] = true /\
  (b <- @to_bytes sample_runtime x ;; s <- to_str b ;; to_str s)
  = Raise UnicodeEncodeError /\
  to_str x = Ok x /\
  (b <- @to_bytes sample_runtime x ;; s <- to_str b ;; to_str s) <> to_str x.
Proof.
  cbv zeta. repeat split; try reflexivity. discriminate.
Qed.

(** C7 (amended): [to_bytes] and [to_str] are idempotent on every value
    (an exception of the first call is the result of both sides), and
    [to_str(to_str(to_bytes(x))) == to_str(x)] for every text [x] that
    can be encoded in UTF-8, that is, that holds no surrogate. *)
Theorem C7_scalar_wrappers_idempotent `{R : PyRuntime} (x : pyval) :
  (y <- to_bytes x ;; to_bytes y) = to_bytes x /\
  (y <- to_str x ;; to_str y) = to_str x /\
  (forall s : pystr, encodable s = true ->
     (b <- to_bytes (VStr s) ;; t <- to_str b ;; to_str t) = to_str (VStr s)).
Proof.
  split; [apply to_bytes_idem|]. split; [apply to_str_idem|].
  intros s Hs.
  destruct (utf8_encode_total s Hs) as [b Hb].
  unfold to_bytes. cbn [is_type_bytes negb py_str].
  unfold str_encode. rewrite Hb. cbn [bind to_str].
  unfold bytes_decode. rewrite (utf8_decode_encode s b Hb). reflexivity.
Qed.

Lemma C7_witness :
  encodable (tlit "caf" ++ [0xE9; 0x20AC; 0x1F600]) = true /\
  (b <- @to_bytes sample_runtime (VStr (tlit "caf" ++ [0xE9; 0x20AC; 0x1F600])) ;;
   t <- to_str b ;; to_str t)
  = to_str (VStr (tlit "caf" ++ [0xE9; 0x20AC; 0x1F600])).
Proof.
  split; [reflexivity|].
  apply (proj2 (proj2 (@C7_scalar_wrappers_idempotent sample_runtime VNone))).
  reflexivity.
Defined.



(** ** get_value *)

(** C6: a text key that is present is not found.  The lookup with the
    encoded key is made for every text key ([not None] is always true)
    and its result replaces the first one. *)
Theorem C6_get_value_present_key_raises `{R : PyRuntime} :
  let d := [(VStr (tlit "a"), VInt 1)] in
  dict_lookup d (VStr (tlit "a")) = Some (VInt 1) /\
  get_value d (VStr (tlit "a"))
  = Raise (PyException "%s is not in the dict" (tlit "a")) /\
  (* a stored value that is false in a test is not found either *)
  get_value [(VBytes (blit "a"), VInt 0)] (VBytes (blit "a"))
  = Raise (PyException "%s is not in the dict" (py_repr (VBytes (blit "a")))) /\
  (* and a missing text key is found under its encoded form *)
  get_value [(VBytes (blit "a"), VInt 1)] (VStr (tlit "a")) = Ok (VInt 1).
Proof. cbv zeta. repeat split; reflexivity. Qed.

(** ** convert *)

(** C5: with [frm=bytes, to=str] the elements of a list, of a tuple and
    of a dict are converted with the defaults [frm=str, to=bytes], so the
    byte strings stay; the same call on the byte string itself decodes
    it. *)
Theorem C5_convert_recursion_drops_kinds :
  convert (VBytes (blit "a")) KBytes KStr = Ok (VStr (tlit "a")) /\
  convert (VList [VBytes (blit "a")]) KBytes KStr
  = Ok (VList [VBytes (blit "a")]) /\
  convert (VTuple [VBytes (blit "a")]) KBytes KStr
  = Ok (VTuple [VBytes (blit "a")]) /\
  convert (VDict [(VBytes (blit "k"), VBytes (blit "v"))]) KBytes KStr
  = Ok (VDict [(VBytes (blit "k"), VBytes (blit "v"))]) /\
  convert (VList [VStr (tlit "a")]) KBytes KStr
  = Ok (VList [VBytes (blit "a")]).
Proof. repeat split; reflexivity. Qed.

Lemma same_upto_leaf_tuple (l l' : list pyval) :
  same_upto_leaf (VTuple l) (VTuple l') = all2 same_upto_leaf l l'.
Proof.
  revert l'. induction l as [|x t IH]; intros [|y t']; try reflexivity.
  cbn [all2]. rewrite <- IH. reflexivity.
Qed.

Lemma same_upto_leaf_list (l l' : list pyval) :
  same_upto_leaf (VList l) (VList l') = all2 same_upto_leaf l l'.
Proof.
  revert l'. induction l as [|x t IH]; intros [|y t']; try reflexivity.
  cbn [all2]. rewrite <- IH. reflexivity.
Qed.

Lemma same_upto_leaf_dict (d d' : list (pyval * pyval)) :
  same_upto_leaf (VDict d) (VDict d') = all2 same_item d d'.
Proof.
  revert d'. induction d as [|[k x] t IH]; intros [|[k' x'] t']; try reflexivity.
  cbn [all2]. rewrite <- IH. reflexivity.
Qed.

Lemma py_eqb_tuple (l l' : list pyval) :
  py_eqb (VTuple l) (VTuple l') = all2 py_eqb l l'.
Proof.
  revert l'. induction l as [|x t IH]; intros [|y t']; try reflexivity.
  cbn [all2]. rewrite <- IH. reflexivity.
Qed.

Lemma str_eqb_eq (a b : pystr) : str_eqb a b = true <-> a = b.
Proof. unfold str_eqb. destruct (list_eq_dec N.eq_dec a b); split; auto; discriminate. Qed.

Lemma bytes_eqb_eq (a b : pybytes) : bytes_eqb a b = true <-> a = b.
Proof.
  unfold bytes_eqb. destruct (list_eq_dec byte_eq_dec a b); split; auto; discriminate.
Qed.

Lemma str_eqb_refl (a : pystr) : str_eqb a a = true.
Proof. now apply str_eqb_eq. Qed.

Lemma bytes_eqb_refl (a : pybytes) : bytes_eqb a a = true.
Proof. now apply bytes_eqb_eq. Qed.

(** *** Byte-only trees *)

Lemma bytes_only_py_eqb (x : pyval) :
  bytes_only x = true -> forall y, py_eqb x y = true -> x = y.
Proof.
  induction x as [| | | |b|l IH|l IH|items IH] using pyval_nested_ind;
    cbn [bytes_only]; try discriminate.
  - intros _ [] H; try discriminate H. cbn [py_eqb] in H.
    apply bytes_eqb_eq in H. now subst.
  - intros Hl [] H; try discriminate H. rewrite py_eqb_tuple in H.
    f_equal. revert l0 H. induction IH as [|x t Hx _ IHt]; intros [|y t'] H;
      cbn [all2] in H; try discriminate; [reflexivity|].
    cbn [forallb] in Hl. apply andb_true_iff in Hl. destruct Hl as [Hbx Hbt].
    apply andb_true_iff in H. destruct H as [H1 H2].
    f_equal; [now apply Hx | now apply IHt].
Qed.

Lemma same_leaf_sandwich (a b : pyval) (x : pybytes) :
  same_leaf a (VBytes x) = true -> same_leaf b (VBytes x) = true ->
  same_leaf a b = true.
Proof.
  destruct a, b; cbn [same_leaf]; try discriminate.
  - destruct (utf8_decode x) as [s'|]; [|discriminate].
    intros H1 H2. apply str_eqb_eq in H1, H2. subst. apply str_eqb_refl.
  - destruct (utf8_decode x) as [s'|] eqn:E; [|discriminate].
    intros H1 H2. apply str_eqb_eq in H1. apply bytes_eqb_eq in H2. subst.
    rewrite E. apply str_eqb_refl.
  - destruct (utf8_decode x) as [s'|] eqn:E; [|discriminate].
    intros H1 H2. apply str_eqb_eq in H2. apply bytes_eqb_eq in H1. subst.
    rewrite E. apply str_eqb_refl.
  - intros H1 H2. apply bytes_eqb_eq in H1, H2. subst. apply bytes_eqb_refl.
Qed.

Lemma same_upto_leaf_leaf_r (a : pyval) (x : pybytes) :
  same_upto_leaf a (VBytes x) = same_leaf a (VBytes x).
Proof. destruct a; try reflexivity. Qed.

Lemma same_upto_leaf_leaf (a b : pyval) :
  same_leaf a b = true -> same_upto_leaf a b = true.
Proof. destruct a, b; try discriminate; auto. Qed.

Lemma same_upto_leaf_sandwich (c : pyval) :
  bytes_only c = true ->
  forall a b, same_upto_leaf a c = true -> same_upto_leaf b c = true ->
              same_upto_leaf a b = true.
Proof.
  induction c as [| | | |x|l IH|l IH|items IH] using pyval_nested_ind;
    cbn [bytes_only]; try discriminate.
  - intros _ a b Ha Hb. rewrite same_upto_leaf_leaf_r in Ha, Hb.
    apply same_upto_leaf_leaf. eapply same_leaf_sandwich; eauto.
  - intros Hl [] [] Ha Hb; try discriminate Ha; try discriminate Hb.
    rewrite same_upto_leaf_tuple in *.
    revert l0 l1 Ha Hb. induction IH as [|c t Hc _ IHt]; intros [|a ta] [|b tb] Ha Hb;
      cbn [all2] in *; try discriminate; [reflexivity|].
    cbn [forallb] in Hl. apply andb_true_iff in Hl. destruct Hl as [Hbc Hbt].
    apply andb_true_iff in Ha. destruct Ha as [Ha1 Ha2].
    apply andb_true_iff in Hb. destruct Hb as [Hb1 Hb2].
    apply andb_true_iff. split; [now apply Hc | now apply IHt].
  - intros Hl [] [] Ha Hb; try discriminate Ha; try discriminate Hb.
    rewrite same_upto_leaf_list in *.
    revert l0 l1 Ha Hb. induction IH as [|c t Hc _ IHt]; intros [|a ta] [|b tb] Ha Hb;
      cbn [all2] in *; try discriminate; [reflexivity|].
    cbn [forallb] in Hl. apply andb_true_iff in Hl. destruct Hl as [Hbc Hbt].
    apply andb_true_iff in Ha. destruct Ha as [Ha1 Ha2].
    apply andb_true_iff in Hb. destruct Hb as [Hb1 Hb2].
    apply andb_true_iff. split; [now apply Hc | now apply IHt].
  - intros Hl [] [] Ha Hb; try discriminate Ha; try discriminate Hb.
    rewrite same_upto_leaf_dict in *.
    revert items0 items1 Ha Hb.
    induction IH as [|[ck cx] t [Hk Hx] _ IHt]; intros [|[ak ax] ta] [|[bk bx] tb] Ha Hb;
      cbn [all2] in *; try discriminate; [reflexivity|].
    cbn [forallb] in Hl. apply andb_true_iff in Hl. destruct Hl as [Hbc Hbt].
    apply andb_true_iff in Hbc. destruct Hbc as [Hbk Hbx].
    unfold same_item in *. cbn [fst snd] in *.
    apply andb_true_iff in Ha. destruct Ha as [Ha1 Ha2].
    apply andb_true_iff in Ha1. destruct Ha1 as [Hak Hax].
    apply andb_true_iff in Hb. destruct Hb as [Hb1 Hb2].
    apply andb_true_iff in Hb1. destruct Hb1 as [Hbk' Hbx'].
    rewrite (Hk Hbk ak bk Hak Hbk'), (Hx Hbx ax bx Hax Hbx'). cbn [andb].
    now apply IHt.
Qed.

(** *** Building a dict from pairs with different keys *)

Lemma dict_set_append (d : pydict) (k v : pyval) :
  forallb (fun kv0 => key_differs kv0 (k, v)) d = true ->
  dict_set d k v = d ++ [(k, v)].
Proof.
  induction d as [|[k0 v0] t IH]; cbn [forallb dict_set app]; [reflexivity|].
  intros H. apply andb_true_iff in H. destruct H as [H1 H2].
  unfold key_differs in H1. cbn [fst] in H1. apply negb_true_iff in H1.
  rewrite H1. now rewrite IH.
Qed.

Lemma pairwise_app_head {A} (r : A -> A -> bool) (d : list A) (x : A) (t : list A) :
  pairwise r (d ++ x :: t) = true -> forallb (fun y => r y x) d = true.
Proof.
  induction d as [|y d IH]; cbn [app pairwise forallb]; [reflexivity|].
  intros H. apply andb_true_iff in H. destruct H as [H1 H2].
  rewrite forallb_app in H1. apply andb_true_iff in H1. destruct H1 as [_ H1].
  cbn [forallb] in H1. apply andb_true_iff in H1. destruct H1 as [H1 _].
  rewrite H1. cbn [andb]. now apply IH.
Qed.

Lemma dict_update_append (kvs d : pydict) :
  forallb (fun kv => hashable (fst kv)) kvs = true ->
  pairwise key_differs (d ++ kvs) = true ->
  dict_update d kvs = Ok (d ++ kvs).
Proof.
  revert d. induction kvs as [|[k v] t IH]; intros d Hh Hp; cbn [dict_update].
  - now rewrite app_nil_r.
  - cbn [forallb fst] in Hh. apply andb_true_iff in Hh. destruct Hh as [Hk Ht].
    rewrite Hk. rewrite dict_set_append by (eapply pairwise_app_head; eauto).
    rewrite IH; [| assumption | now rewrite <- app_assoc].
    now rewrite <- app_assoc.
Qed.

Lemma dict_of_pairs_distinct (kvs : pydict) :
  forallb (fun kv => hashable (fst kv)) kvs = true ->
  pairwise key_differs kvs = true ->
  dict_of_pairs kvs = Ok kvs.
Proof. intros. unfold dict_of_pairs. now rewrite dict_update_append. Qed.

(** *** convert on trees of text and bytes *)

Lemma convert_tuple (l : list pyval) (frm to : kind) :
  convert (VTuple l) frm to
  = (r <- mapM (fun x => convert x KStr KBytes) l ;; Ok (VTuple r)).
Proof. destruct frm; reflexivity. Qed.

Lemma convert_list (l : list pyval) (frm to : kind) :
  convert (VList l) frm to
  = (r <- mapM (fun x => convert x KStr KBytes) l ;; Ok (VList r)).
Proof. destruct frm; reflexivity. Qed.

Lemma convert_dict (items : list (pyval * pyval)) (frm to : kind) :
  convert (VDict items) frm to
  = (kvs <- mapM convert_item items ;; d <- dict_of_pairs kvs ;; Ok (VDict d)).
Proof. destruct frm; reflexivity. Qed.

(** [convert_item] is [convert] applied to the tuple [(k, v)] that
    [data.items()] yields. *)
Lemma convert_item_is_convert_of_tuple (k v : pyval) :
  convert (VTuple [k; v]) KStr KBytes
  = (kv <- convert_item (k, v) ;; Ok (VTuple [fst kv; snd kv])).
Proof.
  rewrite convert_tuple. cbn [mapM convert_item].
  destruct (convert k KStr KBytes); cbn [bind]; [|reflexivity].
  destruct (convert v KStr KBytes); reflexivity.
Qed.

Lemma conv_good_elems (l : list pyval) :
  Forall conv_good l ->
  forallb stringlike_tree l = true -> forallb encodable_tree l = true ->
  forallb distinct_keys l = true ->
  exists l', mapM (fun x => convert x KStr KBytes) l = Ok l' /\
             all2 same_upto_leaf l l' = true /\
             forallb bytes_only l' = true /\
             forallb wf_value l' = true /\
             (forallb hashable l = true -> forallb hashable l' = true).
Proof.
  induction 1 as [|x t Hx _ IH]; cbn [forallb mapM]; intros Hs He Hd.
  - exists []. repeat split; reflexivity.
  - apply andb_true_iff in Hs, He, Hd.
    destruct Hs as [Hs1 Hs2], He as [He1 He2], Hd as [Hd1 Hd2].
    destruct (Hx Hs1 He1 Hd1) as (x' & Ex & Sx & Bx & Wx & Hhx).
    destruct (IH Hs2 He2 Hd2) as (t' & Et & St & Bt & Wt & Hht).
    exists (x' :: t'). rewrite Ex, Et. cbn [bind all2 forallb].
    rewrite Sx, St, Bx, Bt, Wx, Wt. repeat split; try reflexivity.
    intros H. apply andb_true_iff in H. destruct H as [H1 H2].
    now rewrite Hhx, Hht.
Qed.

Lemma pairwise_keys_transfer (items kvs : list (pyval * pyval)) :
  all2 same_item items kvs = true ->
  forallb (fun kv => bytes_only (fst kv)) kvs = true ->
  pairwise (fun kv kv' => negb (same_upto_leaf (fst kv) (fst kv'))) items = true ->
  pairwise key_differs kvs = true.
Proof.
  revert kvs. induction items as [|[k x] t IH]; intros [|[k' x'] t'];
    cbn [all2 pairwise forallb]; try discriminate; [reflexivity|].
  intros Hs Hb Hp.
  apply andb_true_iff in Hs, Hb, Hp.
  destruct Hs as [Hs1 Hs2], Hb as [Hb1 Hb2], Hp as [Hp1 Hp2].
  rewrite (IH t' Hs2 Hb2 Hp2), andb_true_r.
  unfold same_item in Hs1. cbn [fst snd] in *.
  apply andb_true_iff in Hs1. destruct Hs1 as [Hk _].
  clear IH Hp2 Hb2. revert t' Hs2.
  induction t as [|[k2 x2] t IH]; intros [|[k2' x2'] t'];
    cbn [all2 forallb]; try discriminate; [reflexivity|].
  intros Hs2. apply andb_true_iff in Hs2. destruct Hs2 as [Hi Hs2].
  cbn [forallb fst] in Hp1. apply andb_true_iff in Hp1. destruct Hp1 as [Hn Hp1].
  rewrite (IH Hp1 t' Hs2), andb_true_r.
  unfold key_differs. cbn [fst].
  destruct (py_eqb k' k2') eqn:E; [|reflexivity].
  apply (bytes_only_py_eqb k' Hb1) in E. subst k2'.
  unfold same_item in Hi. cbn [fst snd] in Hi.
  apply andb_true_iff in Hi. destruct Hi as [Hk2 _].
  rewrite (same_upto_leaf_sandwich k' Hb1 k k2 Hk Hk2) in Hn. discriminate.
Qed.

Lemma conv_good_items (items : list (pyval * pyval)) :
  Forall (fun kv => conv_good (fst kv) /\ conv_good (snd kv)) items ->
  forallb (fun kv => let '(k, x) := kv in
                     hashable k && stringlike_tree k && stringlike_tree x) items = true ->
  forallb (fun kv => let '(k, x) := kv in
                     encodable_tree k && encodable_tree x) items = true ->
  forallb (fun kv => let '(k, x) := kv in distinct_keys k && distinct_keys x) items = true ->
  exists kvs, mapM convert_item items = Ok kvs /\
              all2 same_item items kvs = true /\
              forallb (fun kv => let '(k, x) := kv in bytes_only k && bytes_only x) kvs = true /\
              forallb (fun kv => let '(k, x) := kv in
                                 hashable k && wf_value k && wf_value x) kvs = true.
Proof.
  induction 1 as [|[k x] t [Hk Hx] _ IH]; cbn [forallb mapM]; intros Hs He Hd.
  - exists []. repeat split; reflexivity.
  - cbn [fst snd] in *.
    apply andb_true_iff in Hs, He, Hd.
    destruct Hs as [Hs1 Hs2], He as [He1 He2], Hd as [Hd1 Hd2].
    apply andb_true_iff in Hs1, He1, Hd1.
    destruct Hs1 as [Hs0 Hsx], He1 as [Hek Hex], Hd1 as [Hdk Hdx].
    apply andb_true_iff in Hs0. destruct Hs0 as [Hh Hsk].
    destruct (Hk Hsk Hek Hdk) as (k' & Ek & Sk & Bk & Wk & Hhk).
    destruct (Hx Hsx Hex Hdx) as (x' & Ex & Sx & Bx & Wx & _).
    destruct (IH Hs2 He2 Hd2) as (t' & Et & St & Bt & Wt).
    exists ((k', x') :: t'). cbn [convert_item].
    rewrite Ek, Ex. cbn [bind]. rewrite Et. cbn [bind all2 forallb].
    unfold same_item at 1. cbn [fst snd].
    rewrite Sk, Sx, St, Bk, Bx, Bt, Wk, Wx, Wt, (Hhk Hh). repeat split; reflexivity.
Qed.

Lemma forallb_weaken {A} (p q : A -> bool) (l : list A) :
  (forall x, p x = true -> q x = true) -> forallb p l = true -> forallb q l = true.
Proof.
  intros Hpq. induction l as [|x t IH]; cbn [forallb]; [auto|].
  intros H. apply andb_true_iff in H. destruct H as [H1 H2].
  now rewrite (Hpq x H1), IH.
Qed.

Lemma conv_good_all (T : pyval) : conv_good T.
Proof.
  induction T as [| | |s|b|l IH|l IH|items IH] using pyval_nested_ind;
    unfold conv_good; cbn [stringlike_tree]; try discriminate.
  - cbn [encodable_tree]. intros _ He _.
    destruct (utf8_encode_total s He) as [b Hb].
    exists (VBytes b). cbn [convert isinstance construct]. unfold str_encode.
    rewrite Hb. cbn [bind same_upto_leaf same_leaf].
    rewrite (utf8_decode_encode s b Hb), str_eqb_refl. repeat split; reflexivity.
  - intros _ _ _. exists (VBytes b). cbn [convert isinstance same_upto_leaf same_leaf].
    rewrite bytes_eqb_refl. repeat split; reflexivity.
  - cbn [encodable_tree distinct_keys]. intros Hs He Hd.
    destruct (conv_good_elems l IH Hs He Hd) as (l' & El & Sl & Bl & Wl & Hh).
    exists (VTuple l'). rewrite convert_tuple, El. cbn [bind].
    rewrite same_upto_leaf_tuple. cbn [bytes_only wf_value hashable]. auto.
  - cbn [encodable_tree distinct_keys]. intros Hs He Hd.
    destruct (conv_good_elems l IH Hs He Hd) as (l' & El & Sl & Bl & Wl & Hh).
    exists (VList l'). rewrite convert_list, El. cbn [bind].
    rewrite same_upto_leaf_list. cbn [bytes_only wf_value hashable].
    repeat split; auto.
  - cbn [encodable_tree distinct_keys]. intros Hs He Hd.
    apply andb_true_iff in Hd. destruct Hd as [Hd Hp].
    destruct (conv_good_items items IH Hs He Hd) as (kvs & Ek & Sk & Bk & Wk).
    assert (Hpk : pairwise key_differs kvs = true).
    { apply (pairwise_keys_transfer items kvs Sk); [|exact Hp].
      revert Bk. apply forallb_weaken. intros [k x] H. cbn [fst].
      now apply andb_true_iff in H. }
    exists (VDict kvs). rewrite convert_dict, Ek. cbn [bind].
    rewrite dict_of_pairs_distinct; [| |exact Hpk].
    + cbn [bind]. rewrite same_upto_leaf_dict. cbn [bytes_only wf_value hashable].
      rewrite Sk, Bk, Wk. repeat split; try reflexivity; try discriminate.
      exact Hpk.
    + revert Wk. apply forallb_weaken. intros [k x] H. cbn [fst].
      apply andb_true_iff in H. destruct H as [H _].
      now apply andb_true_iff in H.
Qed.

Lemma convert_bytes_only_id (c : pyval) :
  bytes_only c = true -> wf_value c = true -> convert c KStr KBytes = Ok c.
Proof.
  induction c as [| | | |b|l IH|l IH|items IH] using pyval_nested_ind;
    cbn [bytes_only wf_value]; try discriminate.
  - reflexivity.
  - intros Hb Hw. rewrite convert_tuple.
    assert (E : mapM (fun x => convert x KStr KBytes) l = Ok l).
    { induction IH as [|x t Hx _ IHt]; cbn [mapM forallb] in *; [reflexivity|].
      apply andb_true_iff in Hb, Hw. destruct Hb as [Hb1 Hb2], Hw as [Hw1 Hw2].
      now rewrite (Hx Hb1 Hw1), (IHt Hb2 Hw2). }
    now rewrite E.
  - intros Hb Hw. rewrite convert_list.
    assert (E : mapM (fun x => convert x KStr KBytes) l = Ok l).
    { induction IH as [|x t Hx _ IHt]; cbn [mapM forallb] in *; [reflexivity|].
      apply andb_true_iff in Hb, Hw. destruct Hb as [Hb1 Hb2], Hw as [Hw1 Hw2].
      now rewrite (Hx Hb1 Hw1), (IHt Hb2 Hw2). }
    now rewrite E.
  - intros Hb Hw. apply andb_true_iff in Hw. destruct Hw as [Hw Hp].
    rewrite convert_dict.
    assert (E : mapM convert_item items = Ok items).
    { clear Hp. induction IH as [|[k x] t [Hk Hx] _ IHt]; cbn [mapM forallb] in *;
        [reflexivity|].
      apply andb_true_iff in Hb, Hw. destruct Hb as [Hb1 Hb2], Hw as [Hw1 Hw2].
      apply andb_true_iff in Hb1, Hw1. destruct Hb1 as [Hbk Hbx], Hw1 as [Hw0 Hwx].
      apply andb_true_iff in Hw0. destruct Hw0 as [_ Hwk].
      cbn [convert_item fst snd] in *.
      now rewrite (Hk Hbk Hwk), (Hx Hbx Hwx), (IHt Hb2 Hw2). }
    rewrite E. cbn [bind]. rewrite dict_of_pairs_distinct; [reflexivity| |exact Hp].
    revert Hw. apply forallb_weaken. intros [k x] H. cbn [fst].
    apply andb_true_iff in H. destruct H as [H _].
    now apply andb_true_iff in H.
Qed.

(** C4, as the spec states it, fails on a dict with a text key and a
    byte key that normalize to the same key: the result has one item
    where the input has two. *)
Lemma C4_key_collision_counterexample :
  let T := VDict [(VStr (tlit "a"), VStr (tlit "x"));
                  (VBytes (blit "a"), VStr (tlit "y"))] in
  let T' := VDict [(VBytes (blit "a"), VBytes (blit "y"))] in
  stringlike_tree T = true /\ wf_value T = true /\ encodable_tree T = true /\
  convert T KStr KBytes = Ok T' /\
  same_upto_leaf T T' = false.
Proof. cbv zeta. repeat split; reflexivity. Qed.

(** C4 (amended): for every tree built from text and byte strings,
    dicts, tuples and lists, whose text leaves can be encoded in UTF-8
    and in which no dict has two keys that are the same up to the
    representation of their leaves, [convert] returns a tree with the
    same container at every node, the same number of elements and the
    same keys and values in the same places, up to the representation of
    the leaves; whatever the reverse call [convert(_, bytes, str)]
    returns on that result is again the same tree as the input up to
    leaf representation, and it does return whenever every byte-string
    leaf of the input is well-formed UTF-8. *)
Theorem C4_convert_preserves_structure (T : pyval) :
  stringlike_tree T = true -> encodable_tree T = true -> distinct_keys T = true ->
  exists T', convert T KStr KBytes = Ok T' /\
             same_upto_leaf T T' = true /\
             (forall T'', convert T' KBytes KStr = Ok T'' ->
                          same_upto_leaf T T'' = true) /\
             (decodable_tree T = true ->
              exists T'', convert T' KBytes KStr = Ok T'').
Proof.
  intros Hs He Hd.
  destruct (conv_good_all T Hs He Hd) as (T' & E & S & B & W & _).
  exists T'. split; [exact E|]. split; [exact S|].
  destruct T' as [| | | |b|l|l|items]; try discriminate B.
  - rewrite same_upto_leaf_leaf_r in S.
    cbn [convert isinstance construct]. unfold bytes_decode.
    destruct T; try discriminate S; cbn [same_leaf] in S.
    + destruct (utf8_decode b) as [s'|]; [|discriminate S].
      apply str_eqb_eq in S. subst s'. cbn [bind]. split.
      * intros T'' [= <-]. cbn. apply str_eqb_refl.
      * intros _. eauto.
    + apply bytes_eqb_eq in S. subst b0. cbn [decodable_tree].
      destruct (utf8_decode b) as [s'|] eqn:Eb; cbn [bind];
        [|split; discriminate].
      split; [|eauto].
      intros T'' [= <-]. cbn [same_upto_leaf same_leaf]. rewrite Eb.
      apply str_eqb_refl.
  - assert (R : convert (VTuple l) KBytes KStr = Ok (VTuple l)).
    { rewrite convert_tuple, <- (convert_tuple l KStr KBytes).
      now apply convert_bytes_only_id. }
    rewrite R. split; [now intros T'' [= <-] | eauto].
  - assert (R : convert (VList l) KBytes KStr = Ok (VList l)).
    { rewrite convert_list, <- (convert_list l KStr KBytes).
      now apply convert_bytes_only_id. }
    rewrite R. split; [now intros T'' [= <-] | eauto].
  - assert (R : convert (VDict items) KBytes KStr = Ok (VDict items)).
    { rewrite convert_dict, <- (convert_dict items KStr KBytes).
      now apply convert_bytes_only_id. }
    rewrite R. split; [now intros T'' [= <-] | eauto].
Qed.

Lemma C4_witness :
  stringlike_tree C4_sample = true /\ encodable_tree C4_sample = true /\
  distinct_keys C4_sample = true /\ decodable_tree C4_sample = true /\
  exists T', convert C4_sample KStr KBytes = Ok T' /\
             same_upto_leaf C4_sample T' = true /\
             (forall T'', convert T' KBytes KStr = Ok T'' ->
                          same_upto_leaf C4_sample T'' = true) /\
             exists T'', convert T' KBytes KStr = Ok T''.
Proof.
  split; [reflexivity|]. split; [reflexivity|]. split; [reflexivity|].
  split; [reflexivity|].
  destruct (C4_convert_preserves_structure C4_sample eq_refl eq_refl eq_refl)
    as (T' & H1 & H2 & H3 & H4).
  exists T'. split; [exact H1|]. split; [exact H2|]. split; [exact H3|].
  apply H4. reflexivity.
Defined.

(** ** .hgsub and .hgsubstate *)

Lemma lstrip_nonspace (c : codepoint) (t : pystr) :
  is_space c = false -> lstrip (c :: t) = c :: t.
Proof. intros H. cbn [lstrip]. now rewrite H. Qed.

Lemma lstrip_space (c : codepoint) (t : pystr) :
  is_space c = true -> lstrip (c :: t) = lstrip t.
Proof. intros H. cbn [lstrip]. now rewrite H. Qed.

Lemma rstrip_all_space (w : pystr) : forallb is_space w = true -> rstrip w = [].
Proof.
  induction w as [|c t IH]; cbn [forallb rstrip]; [reflexivity|].
  intros H. apply andb_true_iff in H. destruct H as [Hc Ht].
  now rewrite (IH Ht), Hc.
Qed.

Lemma rstrip_app_space (s w : pystr) :
  forallb is_space w = true -> rstrip (s ++ w) = rstrip s.
Proof.
  intros Hw. induction s as [|c t IH]; cbn [app rstrip].
  - now apply rstrip_all_space.
  - now rewrite IH.
Qed.

Lemma rstrip_last_nonspace (s : pystr) (d : codepoint) :
  s <> [] -> is_space (last s d) = false -> rstrip s = s.
Proof.
  induction s as [|c t IH]; [congruence|]. intros _ Hl.
  destruct t as [|c' t'].
  - cbn in Hl |- *. now rewrite Hl.
  - change (last (c :: c' :: t') d) with (last (c' :: t') d) in Hl.
    cbn [rstrip] in IH |- *. rewrite IH by (congruence || assumption).
    reflexivity.
Qed.

Lemma strip_plain (s : pystr) : plain_token s = true -> strip s = s.
Proof.
  destruct s as [|c t]; [discriminate|]. unfold plain_token, trimmed.
  intros H. apply andb_true_iff in H. destruct H as [H _].
  apply andb_true_iff in H. destruct H as [H1 H2].
  apply negb_true_iff in H1, H2. unfold strip.
  rewrite lstrip_nonspace by assumption.
  apply (rstrip_last_nonspace (c :: t) c); [discriminate | assumption].
Qed.

Lemma plain_head (s : pystr) :
  plain_token s = true ->
  exists c t, s = c :: t /\ is_space c = false /\ (c =? ch_hash) = false.
Proof.
  destruct s as [|c t]; [discriminate|]. unfold plain_token, trimmed.
  intros H. apply andb_true_iff in H. destruct H as [H H3].
  apply andb_true_iff in H. destruct H as [H1 H2].
  apply negb_true_iff in H1, H3. eauto.
Qed.

Lemma rstrip_head (c : codepoint) (t : pystr) :
  is_space c = false -> exists r, rstrip (c :: t) = c :: r.
Proof.
  intros H. cbn [rstrip]. destruct (rstrip t); [rewrite H|]; eauto.
Qed.

(** A line that begins with a plain token is not skipped. *)
Lemma line_not_skipped (s rest : pystr) :
  plain_token s = true -> skipped (strip (s ++ rest)) = false.
Proof.
  intros H. destruct (plain_head s H) as (c & t & -> & Hs & Hh).
  unfold strip. cbn [app]. rewrite lstrip_nonspace by assumption.
  destruct (rstrip_head c (t ++ rest) Hs) as [r ->]. exact Hh.
Qed.

Lemma split_once_app (sep : codepoint) (a b : pystr) :
  contains sep a = false -> split_once sep (a ++ sep :: b) = Some (a, b).
Proof.
  unfold contains. induction a as [|c t IH]; cbn [app existsb split_once].
  - intros _. now rewrite N.eqb_refl.
  - intros H. apply orb_false_iff in H. destruct H as [Hc Ht].
    rewrite N.eqb_sym in Hc. rewrite Hc. now rewrite (IH Ht).
Qed.

Lemma strip_key_then_space (k : pystr) (w : pystr) :
  plain_token k = true -> forallb is_space w = true -> strip (k ++ w) = k.
Proof.
  intros Hk Hw. destruct (plain_head k Hk) as (c & t & E & Hs & _).
  unfold strip. rewrite E at 1. cbn [app]. rewrite lstrip_nonspace by assumption.
  change (c :: t ++ w) with ((c :: t) ++ w). rewrite <- E.
  rewrite rstrip_app_space by assumption.
  rewrite <- (strip_plain k Hk) at 2. unfold strip.
  rewrite E at 2. now rewrite lstrip_nonspace, <- E by assumption.
Qed.

Lemma od_set_append (d : strdict) (k v : pystr) :
  existsb (fun k0 => str_eqb k0 k) (map fst d) = false ->
  od_set d k v = d ++ [(k, v)].
Proof.
  induction d as [|[k0 v0] t IH]; cbn [map existsb od_set app fst]; [reflexivity|].
  intros H. apply orb_false_iff in H. destruct H as [H1 H2].
  now rewrite H1, IH.
Qed.

Lemma distinct_app_head (rv : list pystr) (k : pystr) (t : list pystr) :
  distinct (rv ++ k :: t) = true ->
  existsb (fun k0 => str_eqb k0 k) rv = false.
Proof.
  induction rv as [|k0 rv IH]; cbn [app distinct existsb]; [reflexivity|].
  intros H. apply andb_true_iff in H. destruct H as [H1 H2].
  apply negb_true_iff in H1. rewrite existsb_app in H1.
  apply orb_false_iff in H1. destruct H1 as [_ H1]. cbn [existsb] in H1.
  apply orb_false_iff in H1. destruct H1 as [H1 _].
  now rewrite H1, IH.
Qed.

Lemma parse_hgsubstate_from_lines (d rv : strdict) :
  distinct (map fst (rv ++ d)) = true ->
  forallb (fun nv => plain_token (fst nv) && plain_token (snd nv)
                     && negb (contains ch_space (snd nv))) d = true ->
  parse_hgsubstate_from rv (map hgsubstate_line d) = Ok (rv ++ d).
Proof.
  revert rv. induction d as [|[k v] t IH]; intros rv Hd Hf.
  - cbn. now rewrite app_nil_r.
  - cbn [forallb fst snd] in Hf. apply andb_true_iff in Hf. destruct Hf as [Hkv Ht].
    apply andb_true_iff in Hkv. destruct Hkv as [Hkv Hne].
    apply andb_true_iff in Hkv. destruct Hkv as [Hk Hv].
    apply negb_true_iff in Hne.
    cbn [map parse_hgsubstate_from].
    change (hgsubstate_line (k, v)) with (v ++ ch_space :: k ++ [ch_newline]).
    rewrite line_not_skipped by assumption.
    rewrite split_once_app by assumption.
    rewrite strip_key_then_space by (assumption || reflexivity).
    rewrite strip_plain by assumption.
    rewrite map_app in Hd. cbn [map fst] in Hd.
    rewrite od_set_append by (eapply distinct_app_head; eauto).
    rewrite IH; [now rewrite <- app_assoc | | assumption].
    rewrite <- app_assoc, map_app. exact Hd.
Qed.

Lemma str_leb_total (a b : pystr) : str_leb a b = false -> str_leb b a = true.
Proof.
  revert b. induction a as [|x a IH]; intros [|y b]; cbn [str_leb];
    try discriminate; try reflexivity.
  destruct (N.ltb_spec x y); [discriminate|].
  destruct (N.ltb_spec y x); [reflexivity|]. apply IH.
Qed.

Lemma insert_sorted_perm (k : pystr) (l : list pystr) :
  Permutation (k :: l) (insert_sorted k l).
Proof.
  induction l as [|h t IH]; cbn [insert_sorted]; [reflexivity|].
  destruct (str_leb k h); [reflexivity|].
  rewrite perm_swap. now apply perm_skip.
Qed.

Lemma sorted_perm (l : list pystr) : Permutation l (sorted l).
Proof.
  induction l as [|k t IH]; cbn [sorted]; [reflexivity|].
  rewrite <- insert_sorted_perm. now apply perm_skip.
Qed.

Lemma insert_sorted_Sorted (k : pystr) (l : list pystr) :
  Sorted str_le l -> Sorted str_le (insert_sorted k l).
Proof.
  induction 1 as [|h t Ht IH Hh]; cbn [insert_sorted].
  - repeat constructor.
  - destruct (str_leb k h) eqn:E.
    + constructor; [now constructor | now constructor].
    + constructor; [exact IH|].
      apply str_leb_total in E.
      destruct t as [|h' t']; cbn [insert_sorted]; [now constructor|].
      destruct (str_leb k h'); constructor; [exact E|].
      now inversion Hh.
Qed.

Lemma sorted_Sorted (l : list pystr) : Sorted str_le (sorted l).
Proof.
  induction l as [|k t IH]; cbn [sorted]; [constructor|].
  now apply insert_sorted_Sorted.
Qed.

Lemma existsb_str_eqb_In (k : pystr) (l : list pystr) :
  existsb (str_eqb k) l = true <-> In k l.
Proof.
  rewrite existsb_exists. split.
  - intros (x & Hx & E). apply str_eqb_eq in E. now subst.
  - intros H. exists k. split; [assumption | apply str_eqb_refl].
Qed.

Lemma distinct_NoDup (l : list pystr) : distinct l = true <-> NoDup l.
Proof.
  induction l as [|k t IH]; cbn [distinct].
  - split; [constructor | reflexivity].
  - rewrite andb_true_iff, negb_true_iff, IH. split.
    + intros [H1 H2]. constructor; [|assumption].
      rewrite <- existsb_str_eqb_In. now rewrite H1.
    + intros H. inversion H as [|? ? Hn Hd]; subst. split; [|assumption].
      destruct (existsb (str_eqb k) t) eqn:E; [|reflexivity].
      apply existsb_str_eqb_In in E. contradiction.
Qed.

Lemma od_lookup_In (d : strdict) (k v : pystr) :
  NoDup (map fst d) -> In (k, v) d -> od_lookup d k = Some v.
Proof.
  induction d as [|[k0 v0] t IH]; cbn [map fst In od_lookup]; [contradiction|].
  intros Hn [E|Hin].
  - injection E as -> ->. now rewrite str_eqb_refl.
  - inversion Hn as [|? ? Hk Ht]; subst.
    destruct (str_eqb k0 k) eqn:E.
    + apply str_eqb_eq in E. subst k0. exfalso. apply Hk.
      apply (in_map fst) in Hin. exact Hin.
    + now apply IH.
Qed.

Lemma od_lookup_Some_In (d : strdict) (k v : pystr) :
  od_lookup d k = Some v -> In (k, v) d.
Proof.
  induction d as [|[k0 v0] t IH]; cbn [od_lookup In]; [discriminate|].
  destruct (str_eqb k0 k) eqn:E.
  - apply str_eqb_eq in E. subst k0. intros [= ->]. now left.
  - intros H. right. now apply IH.
Qed.

Lemma sorted_items_keys (d : strdict) :
  map fst (sorted_items d) = sorted (map fst d).
Proof.
  unfold sorted_items. rewrite map_map. cbn [fst]. apply map_id.
Qed.

Lemma items_of_keys (d : strdict) :
  NoDup (map fst d) ->
  map (fun n => (n, match od_lookup d n with Some v => v | None => [] end)) (map fst d)
  = d.
Proof.
  intros Hn. rewrite map_map.
  rewrite <- (map_id d) at 2. apply map_ext_in.
  intros [k v] Hin. cbn [fst]. now rewrite (od_lookup_In d k v Hn Hin).
Qed.

Lemma sorted_items_perm (d : strdict) :
  NoDup (map fst d) -> Permutation d (sorted_items d).
Proof.
  intros Hn. rewrite <- (items_of_keys d Hn) at 1.
  unfold sorted_items. apply Permutation_map. apply sorted_perm.
Qed.

Lemma sorted_items_lookup (d : strdict) (k : pystr) :
  NoDup (map fst d) -> od_lookup (sorted_items d) k = od_lookup d k.
Proof.
  intros Hn. pose proof (sorted_items_perm d Hn) as Hp.
  assert (Hn' : NoDup (map fst (sorted_items d))).
  { eapply Permutation_NoDup; [|exact Hn]. now apply Permutation_map. }
  destruct (od_lookup d k) as [v|] eqn:E.
  - apply od_lookup_In; [assumption|].
    eapply Permutation_in; [exact Hp|]. now apply od_lookup_Some_In.
  - destruct (od_lookup (sorted_items d) k) as [v|] eqn:E'; [|reflexivity].
    apply od_lookup_Some_In in E'.
    apply (Permutation_in _ (Permutation_sym Hp)) in E'.
    apply (od_lookup_In d k v Hn) in E'. congruence.
Qed.

Lemma hgsubstate_lines_sorted_items (d : strdict) :
  hgsubstate_lines d = Ok (map hgsubstate_line (sorted_items d)).
Proof.
  unfold hgsubstate_lines, sorted_items.
  assert (H : forall n, In n (sorted (map fst d)) -> exists v, od_lookup d n = Some v).
  { intros n Hin. apply (Permutation_in _ (Permutation_sym (sorted_perm _))) in Hin.
    apply in_map_iff in Hin. destruct Hin as ([k v] & <- & Hin). cbn [fst].
    clear -Hin. induction d as [|[k0 v0] t IH]; [contradiction|].
    cbn [od_lookup]. destruct (str_eqb k0 k) eqn:E0; [eauto|].
    destruct Hin as [E|Hin]; [|now apply IH].
    injection E as -> ->. now rewrite str_eqb_refl in E0. }
  induction (sorted (map fst d)) as [|n t IH]; cbn [mapM map]; [reflexivity|].
  destruct (H n (or_introl eq_refl)) as [v Hv].
  unfold od_getitem at 1. rewrite Hv. cbn [bind].
  rewrite IH by (intros; apply H; now right). reflexivity.
Qed.

(** C9: [serialize_hgsub] raises AttributeError on every mapping,
    since [data.iteritems()] is no method of a dict of Python 3.  The
    mapping [C9_sample] meets the conditions of the claim for the ['=']
    format; serializing it raises, so no lines are produced and nothing
    is parsed back, however the text would have been cut into lines.
    [serialize_hgsubstate], which reads [data[n]] for [n] in
    [sorted(data)], returns on the same mapping, with the lines in
    sorted key order, and the lines of its text parse back to the same
    pairs. *)
Theorem C9_serialize_hgsub_raises :
  (forall data : strdict, serialize_hgsub data = Raise AttributeError) /\
  hgsub_mapping C9_sample = true /\
  serialize_hgsub C9_sample = Raise AttributeError /\
  (forall (split : pystr -> list pystr) (data : strdict),
     (text <- serialize_hgsub data ;; parse_hgsub (split text))
     = Raise AttributeError) /\
  serialize_hgsubstate C9_sample
  = Ok (tlit "0123456789abcdef alpha dir" ++ [ch_newline]
        ++ tlit "[git]https://example.org/beta.git sub/beta" ++ [ch_newline]) /\
  (text <- serialize_hgsubstate C9_sample ;; parse_hgsubstate (cut_lines text))
  = Ok [(tlit "alpha dir", tlit "0123456789abcdef");
        (tlit "sub/beta", tlit "[git]https://example.org/beta.git")].
Proof.
  split; [reflexivity|]. split; [reflexivity|]. split; [reflexivity|].
  split; [reflexivity|]. split; vm_compute; reflexivity.
Qed.

(** ** The matcher *)

Lemma extends_refl (st : mstate) : extends st st.
Proof. exists []. split; reflexivity. Qed.

Lemma extends_trans (a b c : mstate) : extends a b -> extends b c -> extends a c.
Proof.
  intros (w1 & A1 & B1) (w2 & A2 & B2). exists (w1 ++ w2). split.
  - rewrite A1, A2. now rewrite app_assoc.
  - rewrite B2, B1, rev_app_distr. now rewrite app_assoc.
Qed.

Lemma extends_length (a b : mstate) :
  extends a b -> (length (after b) <= length (after a))%nat.
Proof. intros (w & A & _). rewrite A, length_app. lia. Qed.

Lemma iter_extends (body : mstate -> list mstate) :
  (forall st st', In st' (body st) -> extends st st') ->
  forall n st st', iter body n st st' -> extends st st'.
Proof.
  intros Hb n st st' H. induction H as [st|n st st1 st' H1 _ _ IH].
  - apply extends_refl.
  - eapply extends_trans; [apply Hb; exact H1 | exact IH].
Qed.

Lemma rep_sound (body : mstate -> list mstate) (fuel : nat) :
  forall lo hi st st',
    In st' (rep body fuel lo hi st) ->
    exists n, iter body n st st' /\ (lo <= n)%nat /\ within hi n.
Proof.
  induction fuel as [|f IH]; intros lo hi st st'; cbn [rep]; [contradiction|].
  rewrite in_app_iff. intros [H|H].
  - destruct (more_allowed hi) eqn:Em; [|contradiction].
    apply in_flat_map in H. destruct H as (st1 & H1 & H).
    destruct (Nat.ltb_spec (length (after st1)) (length (after st))) as [Hlt|];
      [|contradiction].
    apply IH in H. destruct H as (n & Hn & Hlo & Hhi).
    exists (S n). split; [econstructor; eauto|]. split; [lia|].
    destruct hi as [[|h]|]; cbn in *; first [discriminate | lia | exact I].
  - destruct (Nat.eqb_spec lo 0) as [->|]; [|contradiction].
    destruct H as [<-|[]]. exists 0%nat. split; [constructor|]. split; [lia|].
    destruct hi; cbn; first [lia | exact I].
Qed.

Lemma rep_complete (body : mstate -> list mstate) :
  forall n st st', iter body n st st' ->
  forall fuel lo hi,
    (length (after st) < fuel)%nat -> (lo <= n)%nat -> within hi n ->
    In st' (rep body fuel lo hi st).
Proof.
  intros n st st' H. induction H as [st|n st st1 st' H1 Hlt _ IH];
    intros fuel lo hi Hf Hlo Hhi.
  - destruct fuel as [|f]; [lia|]. cbn [rep]. apply in_or_app. right.
    replace lo with 0%nat by lia. now left.
  - destruct fuel as [|f]; [lia|]. cbn [rep]. apply in_or_app. left.
    assert (Em : more_allowed hi = true).
    { destruct hi as [[|h]|]; cbn in *; try reflexivity. lia. }
    rewrite Em. apply in_flat_map. exists st1. split; [exact H1|].
    destruct (Nat.ltb_spec (length (after st1)) (length (after st))); [|lia].
    apply IH; [lia | lia |].
    destruct hi as [h|]; cbn in *; first [lia | exact I].
Qed.

Lemma results_rep_iff (r : regex) (lo : nat) (hi : option nat) (st st' : mstate) :
  In st' (results (Rep lo hi r) st) <->
  exists n, iter (results r) n st st' /\ (lo <= n)%nat /\ within hi n.
Proof.
  cbn [results]. split.
  - apply rep_sound.
  - intros (n & Hn & Hlo & Hhi). eapply rep_complete; eauto.
Qed.

Lemma results_extends (r : regex) :
  forall st st', In st' (results r st) -> extends st st'.
Proof.
  induction r as [p|r1 IH1 r2 IH2|lo hi r IH|i r IH|pos r IH|p| |];
    intros st st'.
  - cbn [results]. destruct (after st) as [|c t] eqn:E; [contradiction|].
    destruct (p c); [|contradiction]. intros [<-|[]].
    exists [c]. cbn. now rewrite E.
  - cbn [results]. rewrite in_flat_map. intros (mid & H1 & H2).
    eapply extends_trans; eauto.
  - rewrite results_rep_iff. intros (n & Hn & _).
    eapply iter_extends; eauto.
  - cbn [results]. rewrite in_map_iff. intros (x & <- & Hx).
    destruct (IH _ _ Hx) as (w & A & B). exists w. cbn. auto.
  - cbn [results]. destruct (results r st), pos; try contradiction;
      intros [<-|[]]; apply extends_refl.
  - cbn [results]. destruct (before st) as [|c t]; [|destruct (p c)];
      try contradiction; intros [<-|[]]; apply extends_refl.
  - cbn [results]. destruct (before st); try contradiction.
    intros [<-|[]]; apply extends_refl.
  - cbn [results]. destruct (after st) as [|c [|d t]]; try contradiction.
    + intros [<-|[]]; apply extends_refl.
    + destruct (c =? ch_lf); try contradiction.
      intros [<-|[]]; apply extends_refl.
Qed.

(** *** Repetition of a character class *)

Lemma results_chr_iff (p : codepoint -> bool) (st st' : mstate) :
  In st' (results (Chr p) st) <->
  exists c, p c = true /\ after st = c :: after st' /\
            before st' = c :: before st /\ groups st' = groups st.
Proof.
  cbn [results]. split.
  - destruct (after st) as [|c t]; [contradiction|].
    destruct (p c) eqn:E; [|contradiction]. intros [<-|[]].
    exists c. cbn. auto.
  - intros (c & Hp & A & B & G). rewrite A, Hp. left.
    destruct st'. cbn in *. now subst.
Qed.

Lemma iter_chr_iff (p : codepoint -> bool) (n : nat) (st st' : mstate) :
  iter (results (Chr p)) n st st' <->
  exists w, length w = n /\ forallb p w = true /\
            after st = w ++ after st' /\ before st' = rev w ++ before st /\
            groups st' = groups st.
Proof.
  split.
  - intros H. induction H as [st|n st st1 st' H1 _ _ IH].
    + exists []. cbn. auto.
    + apply results_chr_iff in H1. destruct H1 as (c & Hp & A & B & G).
      destruct IH as (w & L & F & A' & B' & G').
      exists (c :: w). cbn [length forallb app rev]. rewrite L, Hp, F.
      repeat split; try reflexivity.
      * now rewrite A, A'.
      * now rewrite B', B, <- app_assoc.
      * congruence.
  - intros (w & L & F & A & B & G). revert n st L F A B G.
    induction w as [|c w IH]; intros n st L F A B G; cbn in *; subst n.
    + destruct st, st'. cbn in *. subst. constructor.
    + apply andb_true_iff in F. destruct F as [Hp F].
      apply iter_S with (st1 := MState (c :: before st) (w ++ after st') (groups st)).
      * apply results_chr_iff. exists c. cbn. auto.
      * cbn. rewrite A. cbn. lia.
      * apply IH; cbn; auto. now rewrite B, <- app_assoc.
Qed.

Lemma results_rep_chr_iff (p : codepoint -> bool) (lo : nat) (hi : option nat)
      (st st' : mstate) :
  In st' (results (Rep lo hi (Chr p)) st) <->
  exists w, forallb p w = true /\ (lo <= length w)%nat /\ within hi (length w) /\
            after st = w ++ after st' /\ before st' = rev w ++ before st /\
            groups st' = groups st.
Proof.
  rewrite results_rep_iff. split.
  - intros (n & Hn & Hlo & Hhi). apply iter_chr_iff in Hn.
    destruct Hn as (w & <- & F & A & B & G). exists w. auto 10.
  - intros (w & F & Hlo & Hhi & A & B & G). exists (length w).
    split; [|auto]. apply iter_chr_iff. exists w. auto 10.
Qed.

Lemma StronglySorted_app_one {A} (R : A -> A -> Prop) (l : list A) (x : A) :
  StronglySorted R l -> (forall y, In y l -> R y x) -> StronglySorted R (l ++ [x]).
Proof.
  induction 1 as [|a t Ht IH Ha]; intros Hx; cbn [app].
  - repeat constructor.
  - constructor.
    + apply IH. intros y Hy. apply Hx. now right.
    + apply Forall_app. split; [exact Ha|]. constructor; [|constructor].
      apply Hx. now left.
Qed.

Lemma rep_chr_sorted (p : codepoint -> bool) (fuel : nat) :
  forall lo hi st, StronglySorted longer (rep (results (Chr p)) fuel lo hi st).
Proof.
  induction fuel as [|f IH]; intros lo hi st; cbn [rep]; [constructor|].
  set (tail := if Nat.eqb lo 0 then [st] else []).
  assert (Hhead : forall l : list mstate,
             StronglySorted longer l ->
             (forall y, In y l -> longer y st) ->
             StronglySorted longer (l ++ tail)).
  { intros l Hl Hy. unfold tail. destruct (Nat.eqb lo 0).
    - now apply StronglySorted_app_one.
    - now rewrite app_nil_r. }
  destruct (more_allowed hi); [|apply Hhead; [constructor | intros y []]].
  assert (Hb : results (Chr p) st = [] \/
               exists st1, results (Chr p) st = [st1] /\ longer st1 st).
  { cbn [results]. destruct (after st) as [|c t] eqn:E; [now left|].
    destruct (p c); [|now left]. right. eexists. split; [reflexivity|].
    unfold longer. rewrite E. cbn. lia. }
  destruct Hb as [->|(st1 & -> & Hl)]; [apply Hhead; [constructor | intros y []]|].
  cbn [flat_map]. rewrite app_nil_r. unfold longer in Hl.
  destruct (Nat.ltb_spec (length (after st1)) (length (after st))); [|lia].
  apply Hhead; [apply IH|].
  intros y Hy. apply rep_sound in Hy. destruct Hy as (n & Hn & _).
  apply iter_extends in Hn; [|apply results_extends].
  apply extends_length in Hn. unfold longer. lia.
Qed.


(** *** The FQDN pattern *)

Lemma in_results_seq (r1 r2 : regex) (st st' : mstate) :
  In st' (results (r1 ;;; r2) st) <->
  exists mid, In mid (results r1 st) /\ In st' (results r2 mid).
Proof. cbn [results]. apply in_flat_map. Qed.

Lemma in_results_group (i : nat) (r : regex) (st st' : mstate) :
  In st' (results (Group i r) st) <->
  exists x, In x (results r st) /\
            st' = set_group i (firstn (length (after st) - length (after x)) (after st)) x.
Proof.
  cbn [results]. rewrite in_map_iff. split; intros (x & A & B); exists x; auto.
Qed.

Lemma in_results_bol (st st' : mstate) :
  In st' (results Bol st) <-> st' = st /\ before st = [].
Proof.
  cbn [results]. destruct (before st); split.
  - intros [<-|[]]. auto.
  - intros [-> _]. now left.
  - contradiction.
  - intros [_ H]. discriminate.
Qed.

Lemma in_results_eol (st st' : mstate) :
  In st' (results Eol st) <-> st' = st /\ (after st = [] \/ after st = [ch_lf]).
Proof.
  cbn [results]. destruct (after st) as [|c [|d t]]; split.
  - intros [<-|[]]. auto.
  - intros [-> _]. now left.
  - destruct (N.eqb_spec c ch_lf) as [->|]; [|contradiction].
    intros [<-|[]]. auto.
  - intros [-> [H|H]]; [discriminate|]. injection H as ->. now left.
  - contradiction.
  - intros [_ [H|H]]; discriminate.
Qed.

Lemma startswith_nil (s : pystr) : startswith s [] = true.
Proof. now destruct s. Qed.

Lemma results_chr_nil (x : codepoint) (st : mstate) :
  results (Chr (is_char x)) st = [] <-> startswith (after st) [x] = false.
Proof.
  cbn [results]. destruct (after st) as [|c t]; cbn [startswith]; [tauto|].
  unfold is_char. rewrite (N.eqb_sym x c), startswith_nil.
  destruct (c =? x); cbn; split; congruence.
Qed.

Lemma in_results_not_ahead (x : codepoint) (st st' : mstate) :
  In st' (results (Look false (Chr (is_char x))) st) <->
  st' = st /\ startswith (after st) [x] = false.
Proof.
  change (results (Look false (Chr (is_char x))) st)
    with (match results (Chr (is_char x)) st with [] => [st] | _ :: _ => [] end).
  destruct (results (Chr (is_char x)) st) eqn:E.
  - apply results_chr_nil in E. split.
    + intros [<-|[]]. auto.
    + intros [-> _]. now left.
  - split; [contradiction|]. intros [_ H]. apply results_chr_nil in H. congruence.
Qed.

Lemma in_results_not_behind (x : codepoint) (st st' : mstate) :
  In st' (results (NotBehind (is_char x)) st) <->
  st' = st /\ startswith (before st) [x] = false.
Proof.
  cbn [results]. destruct (before st) as [|c t]; cbn [startswith].
  - split; [intros [<-|[]]; auto | intros [-> _]; now left].
  - unfold is_char. rewrite (N.eqb_sym x c), startswith_nil. destruct (c =? x); cbn.
    + split; [contradiction | intros [_ H]; discriminate].
    + split; [intros [<-|[]]; auto | intros [-> _]; now left].
Qed.

Lemma startswith_app_one (w s : pystr) (x : codepoint) :
  w <> [] -> startswith (w ++ s) [x] = startswith w [x].
Proof.
  destruct w; [congruence|]. intros _. cbn [app startswith].
  now rewrite !startswith_nil.
Qed.

(** One iteration of the repeated group is one label and its dot. *)
Lemma in_results_label (st st' : mstate) :
  In st' (results label_re st) <->
  exists lab, label_ok lab = true /\
              after st = lab ++ ch_dot :: after st' /\
              before st' = ch_dot :: rev lab ++ before st /\
              groups st' = (2%nat, lab ++ [ch_dot]) :: groups st.
Proof.
  unfold label_re, between. rewrite in_results_group. split.
  - intros (x & Hx & ->).
    apply in_results_seq in Hx. destruct Hx as (m1 & H1 & Hx).
    apply in_results_not_ahead in H1. destruct H1 as [-> Hhead].
    apply in_results_seq in Hx. destruct Hx as (m2 & H2 & Hx).
    apply results_rep_chr_iff in H2.
    destruct H2 as (w & F & Hlo & Hhi & A & B & G).
    apply in_results_seq in Hx. destruct Hx as (m3 & H3 & Hx).
    apply in_results_not_behind in H3. destruct H3 as [-> Hlast].
    apply results_chr_iff in Hx. destruct Hx as (c & Hc & A' & B' & G').
    apply N.eqb_eq in Hc. subst c. cbn [within] in Hhi.
    assert (Hw : w <> []) by (destruct w; [cbn in Hlo; lia | discriminate]).
    exists w. cbn [set_group after before groups]. split; [|split; [|split]].
    + unfold label_ok, endswith.
      rewrite A, startswith_app_one in Hhead by assumption.
      rewrite B in Hlast.
      rewrite startswith_app_one in Hlast by (intros E; apply Hw;
        now rewrite <- (rev_involutive w), E).
      rewrite F, Hhead. cbn [rev app]. rewrite Hlast.
      destruct (Nat.leb_spec 1 (length w)); [|lia].
      destruct (Nat.leb_spec (length w) 63); [|lia]. reflexivity.
    + now rewrite A, A'.
    + now rewrite B', B.
    + f_equal; [|congruence]. f_equal.
      rewrite A, A'. replace (w ++ ch_dot :: after x) with ((w ++ [ch_dot]) ++ after x)
        by now rewrite <- app_assoc.
      rewrite length_app, Nat.add_sub. now rewrite firstn_app, firstn_all, Nat.sub_diag,
        firstn_O, app_nil_r.
  - intros (lab & Hok & A & B & G).
    unfold label_ok, endswith in Hok.
    repeat (apply andb_true_iff in Hok; destruct Hok as [Hok ?]).
    apply negb_true_iff in H, H0. cbn [rev app] in H.
    apply Nat.leb_le in Hok, H2.
    assert (Hw : lab <> []) by (destruct lab; [cbn in Hok; lia | discriminate]).
    set (m2 := MState (rev lab ++ before st) (ch_dot :: after st') (groups st)).
    set (x := MState (ch_dot :: rev lab ++ before st) (after st') (groups st)).
    exists x. split.
    + apply in_results_seq. exists st. split.
      { apply in_results_not_ahead. split; [reflexivity|].
        now rewrite A, startswith_app_one. }
      apply in_results_seq. exists m2. split.
      { apply results_rep_chr_iff. exists lab. cbn. auto 10. }
      apply in_results_seq. exists m2. split.
      { apply in_results_not_behind. split; [reflexivity|]. cbn [before m2].
        rewrite startswith_app_one; [assumption|].
        intros E. apply Hw. now rewrite <- (rev_involutive lab), E. }
      apply results_chr_iff. exists ch_dot. cbn. auto.
    + destruct st' as [b a g]. cbn in *. subst b g. unfold set_group. cbn. f_equal.
      f_equal. f_equal. rewrite A.
      replace (lab ++ ch_dot :: a) with ((lab ++ [ch_dot]) ++ a)
        by now rewrite <- app_assoc.
      rewrite length_app, Nat.add_sub. now rewrite firstn_app, firstn_all, Nat.sub_diag,
        firstn_O, app_nil_r.
Qed.

Lemma iter_label_sound (n : nat) (st st' : mstate) :
  iter (results label_re) n st st' ->
  exists labels, length labels = n /\ forallb label_ok labels = true /\
                 after st = dotted labels ++ after st'.
Proof.
  induction 1 as [st|n st st1 st' H1 _ _ IH].
  - exists []. auto.
  - apply in_results_label in H1. destruct H1 as (lab & Hok & A & _).
    destruct IH as (labels & L & F & A').
    exists (lab :: labels). cbn [length forallb]. rewrite L, Hok, F.
    repeat split. unfold dotted in *. cbn [map concat].
    rewrite A, A'. now rewrite <- !app_assoc.
Qed.

Lemma iter_label_complete (labels : list pystr) :
  forallb label_ok labels = true ->
  forall st rest, after st = dotted labels ++ rest ->
  exists st', iter (results label_re) (length labels) st st' /\ after st' = rest.
Proof.
  induction labels as [|lab labels IH]; cbn [forallb]; intros F st rest A.
  - exists st. split; [constructor | exact A].
  - apply andb_true_iff in F. destruct F as [Hok F].
    unfold dotted in A. cbn [map concat] in A. rewrite <- !app_assoc in A.
    cbn [app] in A. fold (dotted labels) in A.
    set (st1 := MState (ch_dot :: rev lab ++ before st) (dotted labels ++ rest)
                       ((2%nat, lab ++ [ch_dot]) :: groups st)).
    destruct (IH F st1 rest eq_refl) as (st' & Hit & A').
    exists st'. split; [|exact A'].
    apply iter_S with (st1 := st1); [| |exact Hit].
    + apply in_results_label. exists lab. cbn. auto.
    + rewrite A. subst st1. cbn [after]. rewrite !length_app. cbn [length].
      rewrite !length_app. lia.
Qed.

Lemma is_match_iff (r : regex) (s : pystr) :
  is_match (re_match r s) = true <-> exists st', In st' (results r (MState [] s [])).
Proof.
  unfold re_match. destruct (results r (MState [] s [])) as [|x l]; cbn.
  - split; [discriminate | intros [st' []]].
  - split; [eauto | reflexivity].
Qed.

Lemma in_results_look_true (r : regex) (st st' : mstate) :
  In st' (results (Look true r) st) <-> st' = st /\ exists x, In x (results r st).
Proof.
  cbn [results]. destruct (results r st) as [|x l].
  - split; [contradiction | intros [_ [x []]]].
  - split; [intros [<-|[]]; split; [reflexivity | exists x; now left]
           | intros [-> _]; now left].
Qed.

Lemma forallb_impl {A} (p q : A -> bool) (l : list A) :
  (forall x, p x = true -> q x = true) -> forallb p l = true -> forallb q l = true.
Proof. apply forallb_weaken. Qed.

Lemma label_char_any (c : codepoint) : label_char c = true -> any_char c = true.
Proof.
  unfold any_char, ch_lf. destruct (N.eqb_spec c 10) as [->|]; [discriminate|reflexivity].
Qed.

Lemma ascii_letter_any (c : codepoint) : ascii_letter c = true -> any_char c = true.
Proof.
  unfold any_char, ch_lf. destruct (N.eqb_spec c 10) as [->|]; [discriminate|reflexivity].
Qed.

Lemma dotted_any (labels : list pystr) :
  forallb label_ok labels = true -> forallb any_char (dotted labels) = true.
Proof.
  induction labels as [|lab t IH]; cbn [forallb]; [reflexivity|].
  intros H. apply andb_true_iff in H. destruct H as [Hok Ht].
  unfold dotted. cbn [map concat]. rewrite !forallb_app. fold (dotted t).
  rewrite (IH Ht). unfold label_ok in Hok.
  repeat (apply andb_true_iff in Hok; destruct Hok as [Hok ?]).
  rewrite (forallb_impl _ _ _ label_char_any H1). reflexivity.
Qed.

Lemma fqdn_body_any (labels : list pystr) (tld : pystr) :
  forallb label_ok labels = true -> tld_ok tld = true ->
  forallb any_char (dotted labels ++ tld) = true.
Proof.
  intros Hl Ht. rewrite forallb_app, (dotted_any labels Hl).
  unfold tld_ok in Ht. apply andb_true_iff in Ht. destruct Ht as [_ Ht].
  now rewrite (forallb_impl _ _ _ ascii_letter_any Ht).
Qed.

Lemma any_char_no_lf_end (w : pystr) :
  forallb any_char (w ++ [ch_lf]) = true -> False.
Proof.
  rewrite forallb_app. cbn. rewrite andb_false_r. discriminate.
Qed.

(** What the look-ahead [(?=^.{4,253}$)] checks at the start of [h]. *)
Lemma in_results_length_re (h : pystr) (st' : mstate) :
  In st' (results length_re (MState [] h [])) <->
  st' = MState [] h [] /\
  exists w, forallb any_char w = true /\ (4 <= length w <= 253)%nat /\
            (h = w \/ h = w ++ [ch_lf]).
Proof.
  unfold length_re, between. rewrite in_results_look_true.
  apply and_iff_compat_l. split.
  - intros (x & Hx).
    apply in_results_seq in Hx. destruct Hx as (m1 & H1 & Hx).
    apply in_results_bol in H1. destruct H1 as [-> _].
    apply in_results_seq in Hx. destruct Hx as (m2 & H2 & Hx).
    apply results_rep_chr_iff in H2. cbn [after before groups within] in H2.
    destruct H2 as (w & F & Hlo & Hhi & A & _).
    apply in_results_eol in Hx. destruct Hx as [_ E].
    exists w. split; [exact F|]. split; [lia|].
    destruct E as [E|E]; rewrite E in A; [left | right]; [now rewrite app_nil_r in A | exact A].
  - intros (w & F & L & E).
    set (e := skipn (length w) h).
    assert (He : h = w ++ e /\ (e = [] \/ e = [ch_lf])).
    { unfold e. destruct E as [->| ->].
      - rewrite skipn_all, app_nil_r. auto.
      - rewrite skipn_app, skipn_all, Nat.sub_diag. cbn. auto. }
    destruct He as [Hh He].
    exists (MState (rev w ++ []) e []).
    apply in_results_seq. exists (MState [] h []). split.
    { apply in_results_bol. auto. }
    apply in_results_seq. exists (MState (rev w ++ []) e []). split.
    { apply results_rep_chr_iff. exists w. cbn. repeat split; auto; lia. }
    apply in_results_eol. auto.
Qed.

(** What the first group of the FQDN pattern matches at the start of
    [h]: labels with their dots and a top-level label, up to the end of
    [h] or to its final line feed. *)
Lemma in_results_fqdn_body (h : pystr) :
  (exists x, In x (results (Bol ;;; plus label_re ;;;
                             between 2 63 (Chr ascii_letter) ;;; Eol)
                            (MState [] h []))) <->
  exists labels tld,
    labels <> [] /\ forallb label_ok labels = true /\ tld_ok tld = true /\
    (h = dotted labels ++ tld \/ h = (dotted labels ++ tld) ++ [ch_lf]).
Proof.
  unfold plus, between. split.
  - intros (x & Hx).
    apply in_results_seq in Hx. destruct Hx as (m1 & H1 & Hx).
    apply in_results_bol in H1. destruct H1 as [-> _].
    apply in_results_seq in Hx. destruct Hx as (m2 & H2 & Hx).
    apply results_rep_iff in H2. destruct H2 as (n & Hn & Hlo & _).
    apply iter_label_sound in Hn. destruct Hn as (labels & L & Fl & A).
    cbn [after] in A.
    apply in_results_seq in Hx. destruct Hx as (m3 & H3 & Hx).
    apply results_rep_chr_iff in H3. cbn [within] in H3.
    destruct H3 as (t & Ft & Hlo' & Hhi' & A' & _).
    apply in_results_eol in Hx. destruct Hx as [-> E].
    exists labels, t. split; [destruct labels; [cbn in L; lia | discriminate]|].
    split; [exact Fl|]. split.
    { unfold tld_ok. rewrite Ft.
      destruct (Nat.leb_spec 2 (length t)); [|lia].
      destruct (Nat.leb_spec (length t) 63); [|lia]. reflexivity. }
    rewrite A, A'. destruct E as [-> | ->]; [left | right].
    + now rewrite app_nil_r.
    + now rewrite app_assoc.
  - intros (labels & tld & Hne & Fl & Ft & E).
    set (e := skipn (length (dotted labels ++ tld)) h).
    assert (He : h = dotted labels ++ tld ++ e /\ (e = [] \/ e = [ch_lf])).
    { unfold e. destruct E as [->| ->].
      - rewrite skipn_all, !app_nil_r. auto.
      - rewrite skipn_app, skipn_all, Nat.sub_diag. cbn. rewrite <- app_assoc. auto. }
    destruct He as [Hh He].
    destruct (iter_label_complete labels Fl (MState [] h []) (tld ++ e) Hh)
      as (s1 & Hit & A1).
    unfold tld_ok in Ft. apply andb_true_iff in Ft. destruct Ft as [Ft Fa].
    apply andb_true_iff in Ft. destruct Ft as [L1 L2].
    apply Nat.leb_le in L1, L2.
    set (s2 := MState (rev tld ++ before s1) e (groups s1)).
    exists s2.
    apply in_results_seq. exists (MState [] h []). split.
    { apply in_results_bol. auto. }
    apply in_results_seq. exists s1. split.
    { apply results_rep_iff. exists (length labels). split; [exact Hit|].
      split; [|exact I]. destruct labels; [congruence | cbn; lia]. }
    apply in_results_seq. exists s2. split.
    { apply results_rep_chr_iff. exists tld. cbn. auto 10. }
    apply in_results_eol. auto.
Qed.

Lemma app_lf_cases (a b : pystr) (ea eb : pystr) :
  forallb any_char a = true -> forallb any_char b = true ->
  (ea = [] \/ ea = [ch_lf]) -> (eb = [] \/ eb = [ch_lf]) ->
  a ++ ea = b ++ eb -> a = b.
Proof.
  intros Fa Fb [->| ->] [->| ->] E; rewrite ?app_nil_r in E.
  - exact E.
  - subst a. exfalso. now apply (any_char_no_lf_end b).
  - subst b. exfalso. now apply (any_char_no_lf_end a).
  - now apply app_inv_tail in E.
Qed.

(** The FQDN pattern matches [h] when [h], or [h] without its final line
    feed, is a host name of [fqdn_spec]. *)
Lemma fqdn_re_sound (h : pystr) :
  is_match (re_match fqdn_re h) = true ->
  exists h', fqdn_spec h' /\ (h = h' \/ h = h' ++ [ch_lf]).
Proof.
  rewrite is_match_iff. intros (st' & H). unfold fqdn_re in H.
  apply in_results_seq in H. destruct H as (m1 & H1 & H).
  apply in_results_length_re in H1. destruct H1 as (-> & w & Fw & Lw & Ew).
  apply in_results_group in H. destruct H as (x & Hx & _).
  destruct (proj1 (in_results_fqdn_body h) (ex_intro _ x Hx))
    as (labels & tld & Hne & Fl & Ft & E).
  exists (dotted labels ++ tld).
  assert (Hw : w = dotted labels ++ tld).
  { pose proof (fqdn_body_any labels tld Fl Ft) as Fb.
    destruct Ew as [Ew|Ew], E as [E|E].
    - congruence.
    - apply (app_lf_cases w (dotted labels ++ tld) [] [ch_lf]); auto.
      rewrite app_nil_r. congruence.
    - apply (app_lf_cases w (dotted labels ++ tld) [ch_lf] []); auto.
      rewrite app_nil_r. congruence.
    - apply (app_lf_cases w (dotted labels ++ tld) [ch_lf] [ch_lf]); auto.
      congruence. }
  split.
  - split; [rewrite <- Hw; lia|]. exists labels, tld. auto.
  - exact E.
Qed.

Lemma fqdn_re_complete (h : pystr) :
  fqdn_spec h -> is_match (re_match fqdn_re h) = true.
Proof.
  intros (L & labels & tld & Hne & Fl & Ft & E).
  destruct (proj2 (in_results_fqdn_body h)) as (x & Hx).
  { exists labels, tld. auto. }
  apply is_match_iff. eexists. unfold fqdn_re.
  apply in_results_seq. exists (MState [] h []). split.
  - apply in_results_length_re. split; [reflexivity|].
    exists h. split; [|split; [exact L | now left]].
    rewrite E. now apply fqdn_body_any.
  - apply in_results_group. exists x. split; [exact Hx | reflexivity].
Qed.

Lemma fqdn_re_iff (h : pystr) :
  forallb any_char h = true ->
  (is_match (re_match fqdn_re h) = true <-> fqdn_spec h).
Proof.
  intros Fh. split; [|apply fqdn_re_complete].
  intros H. apply fqdn_re_sound in H. destruct H as (h' & Hs & [->| ->]); [exact Hs|].
  exfalso. now apply (any_char_no_lf_end h').
Qed.

(** *** The first result: the order of backtracking *)

Lemma flat_map_nonempty {A B} (K : A -> list B) (l : list A) (x : A) :
  In x l -> K x <> [] -> flat_map K l <> [].
Proof.
  intros Hin Hk E. apply Hk.
  destruct (K x) as [|y t] eqn:Ex; [reflexivity|].
  assert (Hy : In y (flat_map K l)).
  { apply in_flat_map. exists x. split; [exact Hin|]. rewrite Ex. now left. }
  rewrite E in Hy. destruct Hy.
Qed.

Lemma hd_error_app {A} (l1 l2 : list A) :
  hd_error (l1 ++ l2) = match hd_error l1 with Some x => Some x | None => hd_error l2 end.
Proof. now destruct l1. Qed.

Lemma hd_error_None {A} (l : list A) : hd_error l = None <-> l = [].
Proof. destruct l; split; intros H; try discriminate; reflexivity. Qed.

(** In a list ordered from the longest match to the shortest, the first
    result of the continuation [K] comes from the longest match on which
    [K] has a result. *)
Lemma hd_flat_map_sorted (K : mstate -> list mstate) (l : list mstate) (y : mstate) :
  StronglySorted longer l ->
  hd_error (flat_map K l) = Some y ->
  exists x, In x l /\ hd_error (K x) = Some y /\
            forall x', In x' l -> K x' <> [] ->
                       (length (after x) <= length (after x'))%nat.
Proof.
  induction 1 as [|a t Ht IH Ha]; cbn [flat_map]; [discriminate|].
  rewrite hd_error_app. destruct (hd_error (K a)) as [z|] eqn:E.
  - intros [= <-]. exists a. split; [now left|]. split; [exact E|].
    intros x' [<-|Hx'] _; [lia|].
    rewrite Forall_forall in Ha. specialize (Ha x' Hx'). unfold longer in Ha. lia.
  - intros H. destruct (IH H) as (x & Hx & Hy & Hmin).
    exists x. split; [now right|]. split; [exact Hy|].
    intros x' [<-|Hx'] Hk; [|now apply Hmin].
    apply hd_error_None in E. contradiction.
Qed.

Lemma sorted_in_before (l1 l2 : list mstate) (e x : mstate) :
  StronglySorted longer (l1 ++ e :: l2) ->
  In x (l1 ++ e :: l2) -> longer x e -> In x l1.
Proof.
  induction l1 as [|a l1 IH]; cbn [app]; intros Hs Hin Hl.
  - exfalso. inversion Hs as [|? ? _ Hall]; subst.
    destruct Hin as [<-|Hin]; [unfold longer in Hl; lia|].
    rewrite Forall_forall in Hall. specialize (Hall x Hin).
    unfold longer in *. lia.
  - destruct Hin as [<-|Hin]; [now left|]. right.
    inversion Hs; subst. now apply IH.
Qed.

Section StarFirst.
Variable body : mstate -> list mstate.
Hypothesis body_sorted : forall st, StronglySorted longer (body st).
Hypothesis body_progress : forall st st1, In st1 (body st) -> longer st1 st.
Hypothesis body_compose :
  forall st st1 st2, In st1 (body st) -> In st2 (body st1) -> In st2 (body st).
Variable K : mstate -> list mstate.

Lemma absorb_seen (S' C : mstate -> list mstate) (R : list mstate) :
  forall (l seen : list mstate),
    (forall x, In x seen -> K x = []) ->
    (forall l1 e l2, l = l1 ++ e :: l2 ->
       hd_error (flat_map K (S' e)) = hd_error (flat_map K (C e ++ [e])) /\
       forall x, In x (C e) -> In x seen \/ In x l1) ->
    hd_error (flat_map K (flat_map S' l ++ R)) = hd_error (flat_map K (l ++ R)).
Proof.
  induction l as [|e l IH]; intros seen Hseen Hl; [reflexivity|].
  cbn [flat_map app]. rewrite <- app_assoc, flat_map_app, !hd_error_app.
  destruct (Hl [] e l eq_refl) as [He Hc].
  rewrite He, flat_map_app, hd_error_app.
  assert (Hnone : hd_error (flat_map K (C e)) = None).
  { apply hd_error_None. destruct (flat_map K (C e)) as [|y t] eqn:E; [reflexivity|].
    assert (Hy : In y (flat_map K (C e))) by (rewrite E; now left).
    apply in_flat_map in Hy. destruct Hy as (x & Hx & Hy).
    destruct (Hc x Hx) as [Hs|[]]. rewrite (Hseen x Hs) in Hy. destruct Hy. }
  rewrite Hnone. cbn [flat_map]. rewrite app_nil_r.
  destruct (hd_error (K e)) as [z|] eqn:Ez; [reflexivity|].
  apply (IH (e :: seen)).
  - intros x [<-|Hx]; [now apply hd_error_None | now apply Hseen].
  - intros l1 e' l2 E. destruct (Hl (e :: l1) e' l2) as [He' Hc'].
    { now rewrite E. }
    split; [exact He'|]. intros x Hx.
    destruct (Hc' x Hx) as [Hs|[<-|Hin]]; [left; now right | left; now left | now right].
Qed.

(** A greedy star whose body composes (two iterations are also one)
    gives the continuation the same first result as zero or one
    iteration. *)
Lemma star_first (fuel : nat) :
  forall st, (length (after st) < fuel)%nat ->
  hd_error (flat_map K (rep body fuel 0 None st))
  = hd_error (flat_map K (body st ++ [st])).
Proof.
  induction fuel as [|f IH]; intros st Hf; [lia|].
  cbn [rep more_allowed Nat.eqb pred one_less].
  apply (absorb_seen
           (fun st' => if Nat.ltb (length (after st')) (length (after st))
                       then rep body f 0 None st' else [])
           body [st] (body st) []); [intros x []|].
  intros l1 e l2 E.
  assert (He : In e (body st)) by (rewrite E; apply in_elt).
  pose proof (body_progress st e He) as Hp. unfold longer in Hp.
  destruct (Nat.ltb_spec (length (after e)) (length (after st))); [|lia].
  split; [apply IH; lia|].
  intros x Hx. right.
  apply (sorted_in_before l1 l2 e x).
  - rewrite <- E. apply body_sorted.
  - rewrite <- E. eapply body_compose; eauto.
  - now apply body_progress.
Qed.
End StarFirst.

(** *** The pattern of isgitsshuri *)

Lemma flat_map_singleton {A} (l : list A) : flat_map (fun x => [x]) l = l.
Proof. induction l as [|x t IH]; cbn; [reflexivity | now rewrite IH]. Qed.

Lemma flat_map_assoc {A B C} (K : B -> list C) (F : A -> list B) (l : list A) :
  flat_map K (flat_map F l) = flat_map (fun x => flat_map K (F x)) l.
Proof.
  induction l as [|x t IH]; cbn [flat_map]; [reflexivity|].
  now rewrite flat_map_app, IH.
Qed.

Lemma flat_map_of_map {A B C} (K : B -> list C) (g : A -> B) (l : list A) :
  flat_map K (map g l) = flat_map (fun x => K (g x)) l.
Proof. induction l as [|x t IH]; cbn; [reflexivity | now rewrite IH]. Qed.

Lemma flat_map_seq (K : mstate -> list mstate) (r1 r2 : regex) (st : mstate) :
  flat_map K (results (r1 ;;; r2) st)
  = flat_map (fun x => flat_map K (results r2 x)) (results r1 st).
Proof. cbn [results]. apply flat_map_assoc. Qed.

Lemma hd_seq_sorted (K : mstate -> list mstate) (r1 r2 : regex) (st y : mstate) :
  StronglySorted longer (results r1 st) ->
  hd_error (flat_map K (results (r1 ;;; r2) st)) = Some y ->
  exists x, In x (results r1 st) /\
            hd_error (flat_map K (results r2 x)) = Some y /\
            forall x', In x' (results r1 st) ->
                       flat_map K (results r2 x') <> [] ->
                       (length (after x) <= length (after x'))%nat.
Proof.
  intros Hs. rewrite flat_map_seq. now apply hd_flat_map_sorted.
Qed.

Lemma chr_after_sorted (p : codepoint -> bool) (l : list mstate) :
  StronglySorted longer l -> StronglySorted longer (flat_map (results (Chr p)) l).
Proof.
  induction 1 as [|a t Ht IH Ha]; cbn [flat_map]; [constructor|].
  destruct (results (Chr p) a) as [|a' l'] eqn:E; [exact IH|].
  assert (Ha' : In a' (results (Chr p) a)) by (rewrite E; now left).
  assert (l' = []) as ->.
  { revert E. cbn [results]. destruct (after a); [discriminate|].
    destruct (p n); [|discriminate]. now intros [= _ <-]. }
  cbn [app]. constructor; [exact IH|].
  apply Forall_forall. intros y Hy.
  apply in_flat_map in Hy. destruct Hy as (x & Hx & Hy).
  apply results_chr_iff in Ha', Hy.
  destruct Ha' as (c & _ & A & _), Hy as (d & _ & A' & _).
  rewrite Forall_forall in Ha. specialize (Ha x Hx).
  unfold longer in *. rewrite A, A' in Ha. cbn in Ha. lia.
Qed.

Lemma in_results_user (st s1 : mstate) :
  In s1 (results user_re st) <->
  exists w, w <> [] /\ forallb any_char w = true /\
            after st = w ++ ch_at :: after s1 /\
            before s1 = ch_at :: rev w ++ before st /\
            groups s1 = groups st.
Proof.
  unfold user_re, plus. rewrite in_results_seq. split.
  - intros (mid & H1 & H2).
    apply results_rep_chr_iff in H1. destruct H1 as (w & F & Hlo & _ & A & B & G).
    apply results_chr_iff in H2. destruct H2 as (c & Hc & A' & B' & G').
    apply N.eqb_eq in Hc. subst c.
    exists w. split; [destruct w; [cbn in Hlo; lia | discriminate]|].
    split; [exact F|]. rewrite A, A', B', B. repeat split. congruence.
  - intros (w & Hw & F & A & B & G).
    exists (MState (rev w ++ before st) (ch_at :: after s1) (groups st)). split.
    + apply results_rep_chr_iff. exists w. cbn [after before groups within].
      repeat split; auto. destruct w; [congruence | cbn; lia].
    + apply results_chr_iff. exists ch_at. cbn. auto.
Qed.

Lemma user_sorted (st : mstate) : StronglySorted longer (results user_re st).
Proof.
  unfold user_re. cbn [results]. apply chr_after_sorted.
  apply rep_chr_sorted.
Qed.

Lemma user_progress (st s1 : mstate) : In s1 (results user_re st) -> longer s1 st.
Proof.
  intros H. apply in_results_user in H. destruct H as (w & _ & _ & A & _).
  unfold longer. rewrite A, length_app. cbn. lia.
Qed.

Lemma user_compose (st s1 s2 : mstate) :
  In s1 (results user_re st) -> In s2 (results user_re s1) ->
  In s2 (results user_re st).
Proof.
  intros H1 H2. apply in_results_user in H1, H2.
  destruct H1 as (w1 & N1 & F1 & A1 & B1 & G1).
  destruct H2 as (w2 & N2 & F2 & A2 & B2 & G2).
  apply in_results_user. exists (w1 ++ ch_at :: w2).
  split; [destruct w1; [congruence | discriminate]|].
  split; [rewrite forallb_app; cbn [forallb]; now rewrite F1, F2|].
  split; [rewrite A1, A2; now rewrite <- app_assoc|].
  split; [|congruence].
  rewrite B2, B1, rev_app_distr. cbn [rev]. now rewrite <- !app_assoc.
Qed.

Lemma user_or_none_sorted (st : mstate) :
  StronglySorted longer (results user_re st ++ [st]).
Proof.
  apply StronglySorted_app_one; [apply user_sorted|].
  intros y. apply user_progress.
Qed.

Lemma star_user_first (K : mstate -> list mstate) (st : mstate) :
  hd_error (flat_map K (results (star user_re) st))
  = hd_error (flat_map K (results user_re st ++ [st])).
Proof.
  unfold star. cbn [results].
  apply (star_first (results user_re) user_sorted user_progress user_compose K).
  lia.
Qed.

Lemma mstate_eq (a b : mstate) :
  before a = before b -> after a = after b -> groups a = groups b -> a = b.
Proof. destruct a, b. cbn. now intros -> -> ->. Qed.

Lemma in_results_opt_chr (x : codepoint) (st a : mstate) :
  In a (results (opt (Chr (is_char x))) st) <->
  exists w, (w = [] \/ w = [x]) /\ after st = w ++ after a /\
            before a = rev w ++ before st /\ groups a = groups st.
Proof.
  unfold opt. rewrite results_rep_chr_iff. split.
  - intros (w & F & _ & Hhi & A & B & G). cbn [within] in Hhi.
    exists w. split; [|auto].
    destruct w as [|c [|d t]]; [now left | right | cbn in Hhi; lia].
    cbn in F. rewrite andb_true_r in F. apply N.eqb_eq in F. now subst.
  - intros (w & [->| ->] & A & B & G); [exists [] | exists [x]];
      cbn [forallb length within]; unfold is_char; rewrite ?N.eqb_refl;
      repeat split; auto.
Qed.

Lemma in_results_plus_chr (p : codepoint -> bool) (st b : mstate) :
  In b (results (plus (Chr p)) st) <->
  exists w, w <> [] /\ forallb p w = true /\ after st = w ++ after b /\
            before b = rev w ++ before st /\ groups b = groups st.
Proof.
  unfold plus. rewrite results_rep_chr_iff. split.
  - intros (w & F & Hlo & _ & A & B & G). exists w.
    split; [destruct w; [cbn in Hlo; lia | discriminate] | auto].
  - intros (w & Hw & F & A & B & G). exists w. cbn [within].
    repeat split; auto. destruct w; [congruence | cbn; lia].
Qed.

Lemma in_results_star_chr (p : codepoint -> bool) (st b : mstate) :
  In b (results (star (Chr p)) st) <->
  exists w, forallb p w = true /\ after st = w ++ after b /\
            before b = rev w ++ before st /\ groups b = groups st.
Proof.
  unfold star. rewrite results_rep_chr_iff. split.
  - intros (w & F & _ & _ & A & B & G). exists w. auto.
  - intros (w & F & A & B & G). exists w. cbn [within]. repeat split; auto. lia.
Qed.

Lemma app_same_length {A} (a b a' b' : list A) :
  a ++ b = a' ++ b' -> length a = length a' -> a = a' /\ b = b'.
Proof.
  revert a'. induction a as [|x a IH]; intros [|y a'] E L; cbn in *; try lia.
  - auto.
  - injection E as -> E. destruct (IH a' E) as [-> ->]; [lia | auto].
Qed.

Lemma app_shorter {A} (a b a' b' : list A) :
  a ++ b = a' ++ b' -> (length a' < length a)%nat ->
  exists x t, a = a' ++ x :: t /\ b' = x :: t ++ b.
Proof.
  revert a'. induction a as [|x a IH]; intros [|y a'] E L; cbn in *; try lia.
  - exists x, a. auto.
  - injection E as -> E. destruct (IH a' E) as (z & t & -> & ->); [lia|].
    exists z, t. auto.
Qed.

Section HostFirst.
Context `{U : UnicodeDB}.

Lemma host_char_lbracket : host_char ch_lbracket = false.
Proof. reflexivity. Qed.

Lemma host_char_rbracket : host_char ch_rbracket = false.
Proof. reflexivity. Qed.

Lemma host_char_any (c : codepoint) : host_char c = true -> any_char c = true.
Proof.
  unfold any_char, ch_lf. destruct (N.eqb_spec c 10) as [->|]; [discriminate|reflexivity].
Qed.

Lemma in_results_host (s1 c : mstate) :
  In c (results host_re s1) <->
  exists ob run cb, host_words ob run cb /\ after_host s1 (ob ++ run ++ cb) c.
Proof.
  unfold host_re, host_words, after_host. rewrite in_results_seq. split.
  - intros (a & Ha & H). apply in_results_seq in H. destruct H as (b & Hb & Hc).
    apply in_results_opt_chr in Ha, Hc. apply in_results_plus_chr in Hb.
    destruct Ha as (ob & Hob & A1 & B1 & G1).
    destruct Hb as (run & Hrun & F & A2 & B2 & G2).
    destruct Hc as (cb & Hcb & A3 & B3 & G3).
    exists ob, run, cb. repeat split; auto.
    + rewrite A1, A2, A3. now rewrite <- !app_assoc.
    + rewrite B3, B2, B1, !rev_app_distr. now rewrite <- !app_assoc.
    + congruence.
  - intros (ob & run & cb & (Hob & Hcb & Hrun & F) & A & B & G).
    rewrite <- !app_assoc in A. rewrite !rev_app_distr, <- !app_assoc in B.
    set (a := MState (rev ob ++ before s1) (run ++ cb ++ after c) (groups s1)).
    set (b := MState (rev run ++ before a) (cb ++ after c) (groups s1)).
    exists a. split.
    + apply in_results_opt_chr. exists ob. cbn. auto.
    + apply in_results_seq. exists b. split.
      * apply in_results_plus_chr. exists run. cbn. auto.
      * apply in_results_opt_chr. exists cb. cbn. auto.
Qed.

Lemma host_sorted_layers (s1 : mstate) :
  StronglySorted longer (results (opt (Chr (is_char ch_lbracket))) s1) /\
  (forall a, StronglySorted longer (results (plus (Chr host_char)) a)) /\
  (forall b, StronglySorted longer (results (opt (Chr (is_char ch_rbracket))) b)).
Proof. repeat split; intros; apply rep_chr_sorted. Qed.

(** The first result through the host token comes from the longest host
    token after which the continuation [K] has a result. *)
Lemma host_first (K : mstate -> list mstate) (s1 y : mstate) :
  hd_error (flat_map K (results host_re s1)) = Some y ->
  exists ob run cb c,
    host_words ob run cb /\ after_host s1 (ob ++ run ++ cb) c /\
    hd_error (K c) = Some y /\
    forall ob' run' cb' c',
      host_words ob' run' cb' -> after_host s1 (ob' ++ run' ++ cb') c' ->
      K c' <> [] ->
      (length (ob' ++ run' ++ cb') <= length (ob ++ run ++ cb))%nat.
Proof.
  unfold host_re. intros H.
  destruct (host_sorted_layers s1) as (S1 & S2 & S3).
  apply hd_seq_sorted in H; [|exact S1]. destruct H as (a & Ha & H & Mina).
  apply hd_seq_sorted in H; [|apply S2]. destruct H as (b & Hb & H & Minb).
  apply hd_flat_map_sorted in H; [|apply S3]. destruct H as (c & Hc & H & Minc).
  pose proof Ha as Ha'. pose proof Hb as Hb'. pose proof Hc as Hc'.
  apply in_results_opt_chr in Ha'. destruct Ha' as (ob & Hob & A1 & B1 & G1).
  apply in_results_plus_chr in Hb'. destruct Hb' as (run & Hrun & F & A2 & B2 & G2).
  apply in_results_opt_chr in Hc'. destruct Hc' as (cb & Hcb & A3 & B3 & G3).
  exists ob, run, cb, c. split; [repeat split; auto|].
  split.
  { repeat split.
    - rewrite A1, A2, A3. now rewrite <- !app_assoc.
    - rewrite B3, B2, B1, !rev_app_distr. now rewrite <- !app_assoc.
    - congruence. }
  split; [exact H|].
  intros ob' run' cb' c' (Hob' & Hcb' & Hrun' & F') (A' & B' & G') Hk.
  rewrite <- !app_assoc in A'. rewrite !rev_app_distr, <- !app_assoc in B'.
  set (a' := MState (rev ob' ++ before s1) (run' ++ cb' ++ after c') (groups s1)).
  set (b' := MState (rev run' ++ before a') (cb' ++ after c') (groups s1)).
  assert (Ia : In a' (results (opt (Chr (is_char ch_lbracket))) s1)).
  { apply in_results_opt_chr. exists ob'. cbn. auto. }
  assert (Ib : In b' (results (plus (Chr host_char)) a')).
  { apply in_results_plus_chr. exists run'. cbn. auto. }
  assert (Ic : In c' (results (opt (Chr (is_char ch_rbracket))) b')).
  { apply in_results_opt_chr. exists cb'. cbn. auto. }
  assert (Kb : flat_map K (results (opt (Chr (is_char ch_rbracket))) b') <> []).
  { eapply flat_map_nonempty; eauto. }
  assert (Ka : flat_map K (results (plus (Chr host_char) ;;;
                                    opt (Chr (is_char ch_rbracket))) a') <> []).
  { rewrite flat_map_seq. eapply flat_map_nonempty; eauto. }
  pose proof (Mina a' Ia Ka) as La. cbn [after a'] in La.
  assert (Lob : (length ob' <= length ob)%nat).
  { pose proof (f_equal (@length _) A') as LA. rewrite A1, !length_app in LA.
    rewrite !length_app in La. lia. }
  assert (Eob : ob' = ob).
  { destruct (Nat.eq_dec (length ob') (length ob)) as [E|E].
    - rewrite A1 in A'. now destruct (app_same_length _ _ _ _ A' (eq_sym E)).
    - exfalso. destruct Hob' as [-> | ->], Hob as [-> | ->]; cbn in E, Lob; try lia.
      cbn [app] in A1, A'. rewrite A1 in A'.
      destruct run' as [|x t]; [congruence|]. cbn in A', F'.
      injection A' as <- _. rewrite host_char_lbracket in F'. discriminate. }
  subst ob'.
  assert (Ea : a' = a).
  { apply mstate_eq; cbn; [congruence| |congruence].
    rewrite A1 in A'. now apply app_inv_head in A'. }
  rewrite Ea in Ib.
  pose proof (Minb b' Ib Kb) as Lb. cbn [after b'] in Lb.
  assert (A'' : run ++ cb ++ after c = run' ++ cb' ++ after c').
  { rewrite A1, A2, A3 in A'. now apply app_inv_head in A'. }
  assert (Lrun : (length run' <= length run)%nat).
  { pose proof (f_equal (@length _) A'') as LA. rewrite !length_app in LA.
    rewrite A3, !length_app in Lb. lia. }
  destruct (Nat.eq_dec (length run') (length run)) as [E|E].
  - destruct (app_same_length _ _ _ _ A'' (eq_sym E)) as [-> Ecb].
    assert (Eb : b' = b).
    { apply mstate_eq; cbn; congruence. }
    rewrite Eb in Ic. pose proof (Minc c' Ic Hk) as Lc.
    pose proof (f_equal (@length _) Ecb) as LA. rewrite !length_app in LA.
    rewrite !length_app. lia.
  - destruct (app_shorter _ _ _ _ A'' ltac:(lia)) as (x & t & Erun & Ecb).
    assert (Hx : host_char x = true).
    { rewrite Erun, forallb_app in F. cbn [forallb] in F.
      apply andb_true_iff in F. destruct F as [_ F].
      now apply andb_true_iff in F. }
    destruct Hcb' as [-> | ->].
    + rewrite !length_app. cbn [length]. lia.
    + cbn [app] in Ecb. injection Ecb as <- _.
      rewrite host_char_rbracket in Hx. discriminate.
Qed.
End HostFirst.

Lemma hd_error_map {A B} (f : A -> B) (l : list A) :
  hd_error (map f l) = option_map f (hd_error l).
Proof. now destruct l. Qed.

Lemma firstn_app_exact {A} (h t : list A) :
  firstn (length (h ++ t) - length t) (h ++ t) = h.
Proof.
  rewrite length_app, Nat.add_sub, firstn_app, Nat.sub_diag, firstn_all.
  cbn. apply app_nil_r.
Qed.

(** The first result of [:( .* )]: the colon and the text up to the first
    line feed. *)
Lemma path_first (x m : mstate) :
  hd_error (results path_re x) = Some m ->
  exists p rest,
    after x = ch_colon :: p ++ rest /\ path_part p rest /\
    after m = rest /\ before m = rev p ++ ch_colon :: before x /\
    groups m = (2%nat, p) :: groups x.
Proof.
  unfold path_re. cbn [results].
  destruct (after x) as [|c t] eqn:Ex; [discriminate|].
  unfold is_char at 1. destruct (N.eqb_spec c ch_colon) as [->|]; [|discriminate].
  cbn [flat_map]. rewrite app_nil_r.
  set (d := MState (ch_colon :: before x) t (groups x)).
  change (rep (results (Chr any_char)) (S (length (after d))) 0 None d)
    with (results (star (Chr any_char)) d).
  rewrite hd_error_map.
  destruct (hd_error (results (star (Chr any_char)) d)) as [e|] eqn:E; [|discriminate].
  cbn [option_map]. intros [= <-].
  rewrite <- (flat_map_singleton (results (star (Chr any_char)) d)) in E.
  apply hd_flat_map_sorted in E; [|apply rep_chr_sorted].
  destruct E as (e' & He & [= ->] & Min).
  pose proof He as He'. apply in_results_star_chr in He'.
  destruct He' as (w & F & A & B & G). cbn [after before groups d] in A, B, G.
  exists w, (after e). cbn [set_group after before groups].
  split; [now rewrite A|]. split; [|split; [reflexivity|split; [exact B|]]].
  - split; [exact F|].
    destruct (after e) as [|c r] eqn:Ee; [now left|]. right.
    destruct (N.eqb_spec c ch_lf) as [->|Hc]; [eauto|]. exfalso.
    set (e2 := MState (c :: before e) r (groups e)).
    assert (H2 : In e2 (results (star (Chr any_char)) d)).
    { apply in_results_star_chr. exists (w ++ [c]). cbn [after before groups e2 d].
      rewrite forallb_app, F. cbn [forallb]. unfold any_char.
      rewrite (proj2 (N.eqb_neq c ch_lf) Hc). cbn.
      rewrite A, B, rev_app_distr, <- app_assoc. cbn. auto. }
    specialize (Min e2 H2 ltac:(discriminate)). cbn in Min. lia.
  - f_equal; [|exact G]. f_equal. cbn [after d]. rewrite A. apply firstn_app_exact.
Qed.

Lemma path_nonempty (x : mstate) (t : pystr) :
  after x = ch_colon :: t -> results path_re x <> [].
Proof.
  intros Ex. set (d := MState (ch_colon :: before x) t (groups x)).
  assert (H : In (set_group 2 (firstn (length (after d) - length (after d)) (after d)) d)
                 (results path_re x)).
  { unfold path_re. apply in_results_seq. exists d. split.
    - apply results_chr_iff. exists ch_colon. cbn. auto.
    - apply in_results_group. exists d. split; [|reflexivity].
      apply in_results_star_chr. exists []. cbn. auto. }
  intros E. rewrite E in H. destruct H.
Qed.

Lemma in_user_or_none (st s1 : mstate) :
  In s1 (results user_re st ++ [st]) <->
  exists u, user_part u /\ after st = u ++ after s1 /\
            before s1 = rev u ++ before st /\ groups s1 = groups st.
Proof.
  rewrite in_app_iff, in_results_user. split.
  - intros [(w & Hw & F & A & B & G)|[<-|[]]].
    + exists (w ++ [ch_at]). split; [right; eauto|].
      rewrite <- app_assoc, rev_app_distr. cbn. auto.
    + exists []. split; [now left | auto].
  - intros (u & [->|(w & Hw & F & ->)] & A & B & G).
    + right. left. apply mstate_eq; auto.
    + left. exists w. rewrite <- app_assoc in A. rewrite rev_app_distr in B.
      cbn in A, B. auto.
Qed.

Section UriPattern.
Context `{U : UnicodeDB}.

Lemma after_group_nonempty (s1 c : mstate) (t : pystr) :
  In c (results host_re s1) -> after c = ch_colon :: t ->
  results (Group 1 host_re ;;; path_re) s1 <> [].
Proof.
  intros Hc Ec.
  set (g := set_group 1 (firstn (length (after s1) - length (after c)) (after s1)) c).
  destruct (results path_re g) as [|y l] eqn:E.
  { exfalso. apply (path_nonempty g t); [exact Ec | exact E]. }
  assert (H : In y (results (Group 1 host_re ;;; path_re) s1)).
  { apply in_results_seq. exists g. split.
    - apply in_results_group. exists c. auto.
    - rewrite E. now left. }
  intros E'. rewrite E' in H. destruct H.
Qed.

Lemma host_token_words (h : pystr) :
  host_token h <-> exists ob run cb, host_words ob run cb /\ h = ob ++ run ++ cb.
Proof.
  unfold host_token, host_words. split.
  - intros (ob & run & cb & H1 & H2 & H3 & H4 & H5). exists ob, run, cb. auto.
  - intros (ob & run & cb & (H1 & H2 & H3 & H4) & H5). exists ob, run, cb. auto.
Qed.

(** What [re.match] returns on the pattern: the preferred split. *)
Lemma uri_match_sound (uri : pystr) (m : mstate) :
  re_match uri_re uri = Some m ->
  exists u, preferred uri u (group m 1) (group m 2) /\
            matched m = u ++ group m 1 ++ ch_colon :: group m 2.
Proof.
  unfold re_match. fold (start_state uri). intros H.
  rewrite <- (flat_map_singleton (results uri_re (start_state uri))) in H.
  unfold uri_re in H. rewrite flat_map_seq, star_user_first in H.
  apply hd_flat_map_sorted in H; [|apply user_or_none_sorted].
  destruct H as (s1 & Hs1 & H & Min1).
  apply in_user_or_none in Hs1. destruct Hs1 as (u & Hu & A0 & B0 & G0).
  cbn [start_state after before groups] in A0, B0, G0. rewrite app_nil_r in B0.
  rewrite flat_map_seq in H. cbn [results] in H. rewrite flat_map_of_map in H.
  change (flat_map _ (flat_map (results (plus (Chr host_char) ;;;
                                          opt (Chr (is_char ch_rbracket))))
                               (results (opt (Chr (is_char ch_lbracket))) s1)))
    with (flat_map
            (fun x => flat_map (fun x0 => [x0])
               (results path_re
                  (set_group 1 (firstn (length (after s1) - length (after x)) (after s1)) x)))
            (results host_re s1)) in H.
  apply host_first in H.
  destruct H as (ob & run & cb & c & Hw & (A1 & B1 & G1) & H & MinH).
  rewrite flat_map_singleton in H.
  rewrite A1, firstn_app_exact in H.
  apply path_first in H. destruct H as (p & rest & A2 & Hp & A3 & B2 & G2).
  cbn [set_group after before groups] in A2, B2, G2.
  assert (Eg1 : group m 1 = ob ++ run ++ cb).
  { unfold group. rewrite G2. reflexivity. }
  assert (Eg2 : group m 2 = p).
  { unfold group. rewrite G2. reflexivity. }
  rewrite Eg1, Eg2. exists u. split; [split|].
  - exists rest. split; [|split; [exact Hu | split; [|exact Hp]]].
    + rewrite A0, A1, A2. now rewrite <- app_assoc.
    + apply host_token_words. eauto.
  - intros u' h' p' (rest' & E' & Hu' & Hh' & Hp').
    apply host_token_words in Hh'. destruct Hh' as (ob' & run' & cb' & Hw' & ->).
    set (s1' := MState (rev u') ((ob' ++ run' ++ cb') ++ ch_colon :: p' ++ rest') []).
    set (c' := MState (rev (ob' ++ run' ++ cb') ++ rev u') (ch_colon :: p' ++ rest') []).
    assert (Hc' : In c' (results host_re s1')).
    { apply in_results_host. exists ob', run', cb'. split; [exact Hw'|].
      repeat split. }
    assert (I1 : In s1' (results user_re (start_state uri) ++ [start_state uri])).
    { apply in_user_or_none. exists u'. cbn. rewrite app_nil_r. auto. }
    assert (K1 : flat_map (fun x => [x])
                          (results (Group 1 host_re ;;; path_re) s1') <> []).
    { rewrite flat_map_singleton.
      exact (after_group_nonempty s1' c' (p' ++ rest') Hc' eq_refl). }
    pose proof (Min1 s1' I1 K1) as L1. cbn [after s1'] in L1.
    assert (Lu : (length u' <= length u)%nat).
    { pose proof (f_equal (@length _) E') as LE. rewrite A0 in LE.
      rewrite !length_app in LE. cbn [length] in LE. rewrite !length_app in LE.
      rewrite !length_app in L1. cbn [length] in L1. rewrite !length_app in L1. lia. }
    destruct (Nat.eq_dec (length u') (length u)) as [Eu|Eu]; [right|left; lia].
    split; [exact Eu|].
    assert (E2 : u' = u /\ (ob' ++ run' ++ cb') ++ ch_colon :: p' ++ rest' = after s1).
    { apply app_same_length; [|exact Eu]. rewrite <- A0, E'. now rewrite <- app_assoc. }
    destruct E2 as [-> E2].
    apply (MinH ob' run' cb'
                (MState (rev (ob' ++ run' ++ cb') ++ before s1)
                        (ch_colon :: p' ++ rest') (groups s1))).
    + exact Hw'.
    + repeat split. cbn [after]. now rewrite <- E2.
    + rewrite flat_map_singleton. apply (path_nonempty _ (p' ++ rest')). reflexivity.
  - unfold matched. rewrite B2, B1, B0, !rev_app_distr, !rev_involutive. cbn [rev].
    rewrite !rev_app_distr, !rev_involutive, <- !app_assoc. reflexivity.
Qed.

(** A location that has a split is matched. *)
Lemma uri_match_complete (uri u h p : pystr) :
  parses uri u h p -> is_match (re_match uri_re uri) = true.
Proof.
  intros (rest & E & Hu & Hh & Hp).
  apply host_token_words in Hh. destruct Hh as (ob & run & cb & Hw & ->).
  set (s1 := MState (rev u) ((ob ++ run ++ cb) ++ ch_colon :: p ++ rest) []).
  set (c := MState (rev (ob ++ run ++ cb) ++ rev u) (ch_colon :: p ++ rest) []).
  assert (Hc : In c (results host_re s1)).
  { apply in_results_host. exists ob, run, cb. split; [exact Hw|]. repeat split. }
  pose proof (after_group_nonempty s1 c (p ++ rest) Hc eq_refl) as Hne.
  destruct (results (Group 1 host_re ;;; path_re) s1) as [|y l] eqn:Ey; [congruence|].
  apply is_match_iff. exists y. fold (start_state uri). unfold uri_re.
  apply in_results_seq. exists s1. split; [|rewrite Ey; now left].
  unfold star. apply results_rep_iff.
  destruct Hu as [->|(w & Hw' & F & ->)].
  - exists 0%nat. split; [|split; [lia|exact I]].
    replace s1 with (start_state uri); [constructor|].
    apply mstate_eq; cbn; auto.
  - exists 1%nat. split; [|split; [lia|exact I]].
    apply iter_S with (st1 := s1); [| |constructor].
    + apply in_results_user. exists w. cbn. rewrite E, <- !app_assoc.
      rewrite rev_app_distr. cbn. rewrite app_nil_r. auto.
    + cbn [after s1 start_state]. rewrite E, !length_app. cbn [length].
      destruct w; [congruence|]. cbn. lia.
Qed.
End UriPattern.

(** ** isgitsshuri *)

Lemma path_part_unique (p p' rest rest' : pystr) :
  path_part p rest -> path_part p' rest' -> p ++ rest = p' ++ rest' -> p = p'.
Proof.
  intros [F R] [F' R']. revert p' F'.
  induction p as [|c p IH]; intros [|c' p'] F' E; cbn [app forallb] in *.
  - reflexivity.
  - exfalso. apply andb_true_iff in F'. destruct F' as [Hc _].
    destruct R as [->|(r & ->)]; [discriminate|].
    injection E as <- _. discriminate.
  - exfalso. apply andb_true_iff in F. destruct F as [Hc _].
    destruct R' as [->|(r & ->)]; [discriminate|].
    injection E as -> _. discriminate.
  - apply andb_true_iff in F, F'. destruct F as [_ F], F' as [_ F'].
    injection E as -> E. f_equal. now apply IH.
Qed.

Section Classifier.
Context `{U : UnicodeDB}.

Lemma host_token_any (h : pystr) : host_token h -> forallb any_char h = true.
Proof.
  intros (ob & run & cb & Hob & Hcb & _ & F & ->).
  rewrite !forallb_app, (forallb_impl _ _ _ host_char_any F).
  destruct Hob as [-> | ->], Hcb as [-> | ->]; reflexivity.
Qed.

Lemma preferred_unique (uri u h p u' h' p' : pystr) :
  preferred uri u h p -> preferred uri u' h' p' -> u = u' /\ h = h' /\ p = p'.
Proof.
  intros [P M] [P' M'].
  destruct (M _ _ _ P') as [L1|[L1 L2]], (M' _ _ _ P) as [L3|[L3 L4]]; try lia.
  destruct P as (rest & E & _ & _ & Hp), P' as (rest' & E' & _ & _ & Hp').
  rewrite E in E'.
  destruct (app_same_length _ _ _ _ E' (eq_sym L1)) as [-> E1].
  destruct (app_same_length _ _ _ _ E1 ltac:(lia)) as [-> E2].
  injection E2 as E2. repeat split. eapply path_part_unique; eauto.
Qed.

Lemma isgitsshuri_unfold (uri : pystr) :
  isgitsshuri uri =
  if has_scheme_prefix uri then false
  else match re_match uri_re uri with
       | Some m => endswith (group m 2) (tlit ".git")
                   || is_match (re_match fqdn_re (group m 1))
       | None => false
       end.
Proof.
  unfold isgitsshuri, has_scheme_prefix.
  destruct (existsb (fun scheme => startswith uri (scheme ++ tlit "://")) gitschemes);
    [reflexivity|]. cbn [orb].
  destruct (startswith uri (tlit "http:") || startswith uri (tlit "https:"));
    [reflexivity|].
  destruct (re_match uri_re uri) as [m|]; [|reflexivity].
  destruct (endswith (group m 2) (tlit ".git")); [reflexivity|].
  now destruct (is_match _).
Qed.

(** C2, as the spec words it, fails in both directions: a host token
    that could have ended at an earlier colon is taken up to the last
    one, the path ends at the first line feed, and a bracket may stand
    on one side only. *)
Lemma C2_wording_counterexample :
  (@isgitsshuri ascii_db (tlit "host.com:path:x") = false /\
   @spec_classify ascii_db (tlit "host.com:path:x") = true) /\
  (@isgitsshuri ascii_db (tlit "host:repo.git" ++ [ch_lf] ++ tlit "x") = true /\
   @spec_classify ascii_db (tlit "host:repo.git" ++ [ch_lf] ++ tlit "x") = false) /\
  (@isgitsshuri ascii_db (tlit "[github.com:repo.git") = true /\
   @spec_classify ascii_db (tlit "[github.com:repo.git") = false).
Proof. repeat split; vm_compute; reflexivity. Qed.

(** C2 (amended): [isgitsshuri uri] is true exactly when [uri] begins
    with none of [git://], [git+ssh://], [git+http://], [git+https://],
    [http:], [https:], and, in the split [uri = user ++ host ++ ":" ++
    path ++ rest] that the pattern chooses, the path ends with [.git] or
    the host is a host name of the FQDN pattern.  In that split [user]
    is empty or a text without line feed that ends with ['@'] (the
    longest for which a split exists), [host] is one or more word
    characters, digits, dots, colons and hyphens with or without ['[']
    in front and with or without [']'] behind (the longest for that
    [user], so it runs to the last colon it can), and [path] runs to the
    first line feed or to the end of [uri]. *)
Theorem C2_isgitsshuri_characterized (uri : pystr) :
  isgitsshuri uri = true <->
  has_scheme_prefix uri = false /\
  exists u h p, preferred uri u h p /\
                (endswith p (tlit ".git") = true \/ fqdn_spec h).
Proof.
  rewrite isgitsshuri_unfold. split.
  - destruct (has_scheme_prefix uri); [discriminate|].
    destruct (re_match uri_re uri) as [m|] eqn:Em; [|discriminate].
    intros H. split; [reflexivity|].
    destruct (uri_match_sound uri m Em) as (u & Hpref & _).
    exists u, (group m 1), (group m 2). split; [exact Hpref|].
    apply orb_true_iff in H. destruct H as [H|H]; [now left|right].
    apply fqdn_re_iff; [|exact H].
    destruct Hpref as [(rest & _ & _ & Hh & _) _]. now apply host_token_any.
  - intros (-> & u & h & p & Hpref & Hc).
    pose proof (uri_match_complete uri u h p (proj1 Hpref)) as Hm.
    destruct (re_match uri_re uri) as [m|] eqn:Em; [|discriminate].
    destruct (uri_match_sound uri m Em) as (u' & Hpref' & _).
    destruct (preferred_unique _ _ _ _ _ _ _ Hpref' Hpref) as (_ & -> & ->).
    apply orb_true_iff. destruct Hc as [Hc|Hc]; [now left|right].
    now apply fqdn_re_complete.
Qed.

Lemma fqdn_spec_ends (h : pystr) :
  fqdn_spec h ->
  (exists c t, h = c :: t /\ label_char c = true) /\
  (exists t c, h = t ++ [c] /\ ascii_letter c = true).
Proof.
  intros (_ & labels & tld & Hne & Fl & Ft & ->). split.
  - destruct labels as [|lab labels]; [congruence|].
    cbn [forallb] in Fl. apply andb_true_iff in Fl. destruct Fl as [Hok _].
    unfold label_ok in Hok.
    repeat (apply andb_true_iff in Hok; destruct Hok as [Hok ?]).
    destruct lab as [|c lab]; [discriminate|].
    cbn [forallb] in H1. apply andb_true_iff in H1. destruct H1 as [Hc _].
    exists c. eexists. split; [|exact Hc]. reflexivity.
  - unfold tld_ok in Ft. apply andb_true_iff in Ft. destruct Ft as [Ft Fa].
    apply andb_true_iff in Ft. destruct Ft as [L _]. apply Nat.leb_le in L.
    destruct (exists_last (l := tld)) as (t & c & ->).
    { destruct tld; [cbn in L; lia | discriminate]. }
    rewrite forallb_app in Fa. apply andb_true_iff in Fa. destruct Fa as [_ Fc].
    cbn in Fc. rewrite andb_true_r in Fc.
    exists (dotted labels ++ t), c. split; [now rewrite app_assoc | exact Fc].
Qed.

Lemma endswith_one (t : pystr) (c x : codepoint) :
  endswith (t ++ [c]) [x] = (x =? c).
Proof.
  unfold endswith. rewrite rev_app_distr. cbn [rev app startswith].
  now rewrite startswith_nil, andb_true_r.
Qed.

(** A host token with a bracket at either end is not matched by the FQDN
    pattern. *)
Lemma bracketed_not_fqdn (h : pystr) :
  startswith h [ch_lbracket] = true \/ endswith h [ch_rbracket] = true ->
  re_match fqdn_re h = None.
Proof.
  intros Hb. destruct (re_match fqdn_re h) as [m|] eqn:Em; [exfalso|reflexivity].
  assert (Hm : is_match (re_match fqdn_re h) = true) by now rewrite Em.
  apply fqdn_re_sound in Hm. destruct Hm as (h' & Hs & Eh).
  destruct (fqdn_spec_ends h' Hs) as [(c & t & E1 & Hc) (t' & c' & E2 & Hc')].
  destruct Hb as [Hb|Hb].
  - assert (E : h = c :: (t ++ skipn (length h') h)).
    { destruct Eh as [-> | ->].
      - now rewrite skipn_all, app_nil_r.
      - rewrite skipn_app, skipn_all, Nat.sub_diag. cbn. now rewrite E1. }
    rewrite E in Hb. cbn [startswith] in Hb. rewrite startswith_nil, andb_true_r in Hb.
    apply N.eqb_eq in Hb. subst c. discriminate.
  - destruct Eh as [-> | ->].
    + rewrite E2, endswith_one in Hb. apply N.eqb_eq in Hb. subst c'. discriminate.
    + rewrite endswith_one in Hb. discriminate.
Qed.

(** C3: the location with the bracketed IPv6 host and the [.git] path is
    a git ssh uri; a host token with a bracket never matches the FQDN
    pattern, so a location whose matched host token has one and whose
    path does not end with [.git] is not. *)
Theorem C3_bracketed_host_only_with_git_suffix :
  isgitsshuri (tlit "git@[2001:db8::1]:repository.git") = true /\
  isgitsshuri (tlit "[2001:db8::1]:repo") = false /\
  (forall h : pystr,
     startswith h [ch_lbracket] = true \/ endswith h [ch_rbracket] = true ->
     re_match fqdn_re h = None) /\
  (forall (uri : pystr) (m : mstate),
     re_match uri_re uri = Some m ->
     startswith (group m 1) [ch_lbracket] = true
     \/ endswith (group m 1) [ch_rbracket] = true ->
     endswith (group m 2) (tlit ".git") = false ->
     isgitsshuri uri = false).
Proof.
  split; [vm_compute; reflexivity|]. split; [vm_compute; reflexivity|].
  split; [exact bracketed_not_fqdn|].
  intros uri m Em Hb Hg. rewrite isgitsshuri_unfold, Em, Hg.
  rewrite (bracketed_not_fqdn _ Hb). now destruct (has_scheme_prefix uri).
Qed.

Lemma user_part_has_at (u : pystr) :
  user_part u -> u = [] \/ contains ch_at u = true.
Proof.
  intros [->|(w & _ & _ & ->)]; [now left|right].
  unfold contains. rewrite existsb_app. cbn. apply orb_true_r.
Qed.

(** C8 (amended): when the pattern matches, the matched portion of
    [uri] is [Prefix ++ HostToken ++ ":" ++ PathToken], where [Prefix] is
    the user part (empty, or a text that ends with ['@']; empty when
    [uri] holds no ['@']), and [uri] is the matched portion followed by
    nothing or by a line feed and more.  The split is the preferred one:
    [HostToken] is the longest host token that a colon follows, so the
    separator is the last colon that a host token can reach, not always
    the last colon of [uri]. *)
Theorem C8_match_reconstructs (uri : pystr) (m : mstate) :
  re_match uri_re uri = Some m ->
  exists prefix rest,
    matched m = prefix ++ group m 1 ++ ch_colon :: group m 2 /\
    uri = matched m ++ rest /\
    preferred uri prefix (group m 1) (group m 2) /\
    path_part (group m 2) rest /\
    (contains ch_at uri = false -> prefix = []).
Proof.
  intros Em. destruct (uri_match_sound uri m Em) as (u & Hpref & Hm).
  pose proof Hpref as [(rest & E & Hu & Hh & Hp) _].
  exists u, rest. split; [exact Hm|]. split; [|split; [exact Hpref|split; [exact Hp|]]].
  - rewrite Hm, E. now rewrite <- !app_assoc.
  - intros Hat. destruct (user_part_has_at u Hu) as [->|Hc]; [reflexivity|].
    exfalso. rewrite E in Hat. unfold contains in *.
    rewrite existsb_app, Hc in Hat. discriminate.
Qed.
End Classifier.

(** C8, as the spec states it, fails on a location with a user part:
    host, colon and path do not make up the matched portion; and the
    separator is not always the final colon. *)
Lemma C8_user_prefix_counterexample :
  has_scheme_prefix C8_sample = false /\
  (exists m, @re_match (@uri_re ascii_db) C8_sample = Some m /\
             group m 1 = tlit "github.com" /\
             group m 2 = tlit "user/repo.git" /\
             matched m = C8_sample /\
             group m 1 ++ ch_colon :: group m 2 <> matched m) /\
  (exists m, @re_match (@uri_re ascii_db) (tlit "a:b/c:d") = Some m /\
             group m 1 = tlit "a" /\
             before_last ch_colon (tlit "a:b/c:d") = Some (tlit "a:b/c")).
Proof.
  split; [reflexivity|]. split.
  - eexists. split; [vm_compute; reflexivity|].
    repeat split; try reflexivity. discriminate.
  - eexists. split; [vm_compute; reflexivity|]. split; reflexivity.
Qed.

Lemma C8_witness :
  exists m, @re_match (@uri_re ascii_db) C8_sample = Some m /\
  exists prefix rest,
    matched m = prefix ++ group m 1 ++ ch_colon :: group m 2 /\
    C8_sample = matched m ++ rest /\
    @preferred ascii_db C8_sample prefix (group m 1) (group m 2) /\
    path_part (group m 2) rest /\
    (contains ch_at C8_sample = false -> prefix = []).
Proof.
  eexists. split; [vm_compute; reflexivity|].
  apply (@C8_match_reconstructs ascii_db C8_sample). vm_compute. reflexivity.
Defined.

Lemma C3_witness :
  exists m, @re_match (@uri_re ascii_db) C3_sample = Some m /\
            (startswith (group m 1) [ch_lbracket] = true
             \/ endswith (group m 1) [ch_rbracket] = true) /\
            endswith (group m 2) (tlit ".git") = false /\
            @isgitsshuri ascii_db C3_sample = false.
Proof.
  eexists. split; [vm_compute; reflexivity|].
  split; [left; reflexivity|]. split; [reflexivity|].
  eapply (proj2 (proj2 (proj2 (@C3_bracketed_host_only_with_git_suffix ascii_db)))).
  - vm_compute. reflexivity.
  - left. reflexivity.
  - reflexivity.
Defined.

(** ** checksafessh *)

(** *** The first character of a percent-decoded text *)

Ltac div_lia := zify; Z.to_euclidean_division_equations; lia.

Ltac decode_branches :=
  repeat match goal with
         | |- context [if ?c then _ else _] => destruct c eqn:?
         | |- context [match ?l with [] => _ | _ :: _ => _ end] => destruct l
         end.

Lemma utf8_decode_replace_total (r : codepoint) (n : nat) :
  forall bs, (length bs <= n)%nat -> exists s, utf8_decode_with (Some r) bs = Some s.
Proof.
  induction n as [|n IH]; intros bs Hn.
  - destruct bs; [exists []; reflexivity | cbn in Hn; lia].
  - destruct bs as [|b0 t0]; [exists []; reflexivity|]. cbn [utf8_decode_with].
    assert (H0 : forall t, (length t <= n)%nat ->
                           exists s, utf8_decode_with (Some r) t = Some s) by exact IH.
    clear IH. cbn [length] in Hn.
    decode_branches;
      match goal with
      | |- exists s, _ _ (utf8_decode_with (Some r) ?t) = Some s =>
        destruct (H0 t ltac:(cbn [length] in *; lia)) as [s' ->]; cbn; eauto
      end.
Qed.

(** The first character that the decoder gives for a text that begins
    with the byte [b0]: the byte itself when it is ASCII, otherwise the
    replacement or a character above ASCII. *)
Lemma utf8_decode_replace_head (r : codepoint) (b0 : byte) (t0 : pybytes) :
  exists x s, utf8_decode_with (Some r) (b0 :: t0) = Some (x :: s) /\
              (Byte.to_N b0 < 128 -> x = Byte.to_N b0) /\
              (128 <= Byte.to_N b0 -> x = r \/ 128 <= x).
Proof.
  assert (H0 : forall t, exists s, utf8_decode_with (Some r) t = Some s).
  { intros t. apply (utf8_decode_replace_total r (length t)). lia. }
  cbn [utf8_decode_with].
  destruct (N.ltb_spec (Byte.to_N b0) 128) as [Hlo|Hhi].
  { destruct (H0 t0) as [s ->]. cbn. eexists _, _. split; [reflexivity|].
    split; [reflexivity | lia]. }
  unfold second3, second4, is_cont, low6.
  decode_branches;
    match goal with
    | |- exists x s, _ _ (utf8_decode_with (Some r) ?t) = Some (x :: s) /\ _ =>
      destruct (H0 t) as [s' ->]; cbn [on_error option_map];
        eexists _, _; (split; [reflexivity|]); (split; [lia|]); intros _;
          first [now left | right]
    end;
    repeat match goal with
           | H : (_ && _) = true |- _ => apply andb_true_iff in H; destruct H
           | H : (_ <? _) = true |- _ => apply N.ltb_lt in H
           | H : (_ <? _) = false |- _ => apply N.ltb_ge in H
           | H : (_ <=? _) = true |- _ => apply N.leb_le in H
           | H : (_ =? _) = true |- _ => apply N.eqb_eq in H
           | H : (_ =? _) = false |- _ => apply N.eqb_neq in H
           end;
    div_lia.
Qed.

Lemma ascii_runs_head (c : codepoint) (t : pystr) :
  exists rest,
    ascii_runs (c :: t) = (c <? 128, c :: take_class (c <? 128) t) :: rest.
Proof.
  revert c. induction t as [|c' t' IH]; intros c.
  - exists []. reflexivity.
  - destruct (IH c') as [rest E]. cbn [ascii_runs] in E |- *. rewrite E.
    cbn [take_class].
    destruct (c' <? 128), (c <? 128); cbn [Bool.eqb]; eauto.
Qed.

Lemma split_byte_nonempty (sep : byte) (l : pybytes) :
  exists p ps, split_byte sep l = p :: ps.
Proof.
  induction l as [|b l IH]; cbn [split_byte]; [eauto|].
  destruct (Byte.eqb b sep); [eauto|].
  destruct IH as (p & ps & ->). eauto.
Qed.

Lemma split_byte_first_prefix (sep : byte) (l p : pybytes) (ps : list pybytes) :
  split_byte sep l = p :: ps -> exists rest, l = p ++ rest.
Proof.
  revert p ps. induction l as [|b l IH]; intros p ps; cbn [split_byte].
  - intros [= <- <-]. exists []. reflexivity.
  - destruct (Byte.eqb b sep).
    + intros [= <- _]. exists (b :: l). reflexivity.
    + destruct (split_byte_nonempty sep l) as (q & qs & E). rewrite E.
      intros [= <- _]. destruct (IH q qs E) as [rest ->]. exists rest. reflexivity.
Qed.

Lemma hex_digit_lt (b : byte) (v : N) : hex_digit b = Some v -> v < 16.
Proof.
  unfold hex_digit.
  destruct (N.leb_spec 48 (Byte.to_N b)), (N.leb_spec (Byte.to_N b) 57); cbn [andb];
    try (intros [= <-]; lia);
    destruct (N.leb_spec 65 (Byte.to_N b)), (N.leb_spec (Byte.to_N b) 70); cbn [andb];
      try (intros [= <-]; lia);
      destruct (N.leb_spec 97 (Byte.to_N b)), (N.leb_spec (Byte.to_N b) 102);
      cbn [andb]; try (intros [= <-]; lia); discriminate.
Qed.

Lemma hex_digit_2 (b : byte) : hex_digit b = Some 2 -> Byte.to_N b = 50.
Proof.
  unfold hex_digit.
  destruct (N.leb_spec 48 (Byte.to_N b)), (N.leb_spec (Byte.to_N b) 57); cbn [andb];
    try (intros [= E]; lia);
    destruct (N.leb_spec 65 (Byte.to_N b)), (N.leb_spec (Byte.to_N b) 70); cbn [andb];
      try (intros [= E]; lia);
      destruct (N.leb_spec 97 (Byte.to_N b)), (N.leb_spec (Byte.to_N b) 102);
      cbn [andb]; try (intros [= E]; lia); discriminate.
Qed.

Lemma hex_digit_13 (b : byte) :
  hex_digit b = Some 13 -> Byte.to_N b = 68 \/ Byte.to_N b = 100.
Proof.
  unfold hex_digit.
  destruct (N.leb_spec 48 (Byte.to_N b)), (N.leb_spec (Byte.to_N b) 57); cbn [andb];
    try (intros [= E]; lia);
    destruct (N.leb_spec 65 (Byte.to_N b)), (N.leb_spec (Byte.to_N b) 70); cbn [andb];
      try (intros [= E]; lia);
      destruct (N.leb_spec 97 (Byte.to_N b)), (N.leb_spec (Byte.to_N b) 102);
      cbn [andb]; try (intros [= E]; lia); discriminate.
Qed.

Lemma startswith_one (s : pystr) (x : codepoint) :
  startswith s [x] = match s with c :: _ => x =? c | [] => false end.
Proof. destruct s; cbn [startswith]; [reflexivity|]. now rewrite startswith_nil, andb_true_r. Qed.

Lemma startswith_two (s : pystr) (a b : codepoint) :
  startswith s [a; b]
  = match s with x :: y :: _ => (a =? x) && (b =? y) | _ => false end.
Proof.
  destruct s as [|x [|y t]]; cbn [startswith]; try reflexivity.
  - apply andb_false_r.
  - now rewrite startswith_nil, andb_true_r.
Qed.

Lemma startswith_cons (s p : pystr) (c d : codepoint) :
  startswith (d :: s) (c :: p) = (c =? d) && startswith s p.
Proof. reflexivity. Qed.

Lemma tlit_2d : tlit "2d" = [50; 100] /\ tlit "2D" = [50; 68] /\
                tlit "%2d" = 37 :: [50; 100] /\ tlit "%2D" = 37 :: [50; 68] /\
                tlit "-" = [45].
Proof. repeat split. Qed.

Lemma utf8_decode_replace_hyphen (b0 : byte) (t0 : pybytes) :
  startswith (utf8_decode_replace (b0 :: t0)) [ch_hyphen] = (Byte.to_N b0 =? 45).
Proof.
  unfold utf8_decode_replace.
  destruct (utf8_decode_replace_head 0xFFFD b0 t0) as (x & s & -> & Hlo & Hhi).
  rewrite startswith_one. unfold ch_hyphen. rewrite N.eqb_sym.
  destruct (N.lt_ge_cases (Byte.to_N b0) 128) as [H|H].
  - now rewrite (Hlo H).
  - destruct (N.eqb_spec (Byte.to_N b0) 45); [lia|].
    apply N.eqb_neq. destruct (Hhi H); lia.
Qed.

Lemma byte_of_inj_ascii (x : codepoint) (b : byte) :
  x < 128 -> byte_of x = b -> Byte.to_N b = x.
Proof. intros Hx <-. apply byte_of_to_N. lia. Qed.

(** The head of the bytes that [unquote_to_bytes] gives for an ASCII run
    that begins with a percent sign: 45 exactly when ["2d"] or ["2D"]
    follows. *)
Lemma unquote_to_bytes_percent (t : pystr) :
  exists b0 X,
    unquote_to_bytes (percent :: map byte_of (take_class true t)) = b0 :: X /\
    (Byte.to_N b0 =? 45) = startswith t (tlit "2d") || startswith t (tlit "2D").
Proof.
  unfold unquote_to_bytes. cbn [split_byte]. change (Byte.eqb percent percent) with true.
  cbv iota.
  destruct (split_byte_nonempty percent (map byte_of (take_class true t)))
    as (p & ps & E).
  rewrite E. cbn [app map concat].
  assert (Hpre := split_byte_first_prefix _ _ _ _ E). destruct Hpre as [rest Hpre].
  destruct (startswith t (tlit "2d") || startswith t (tlit "2D")) eqn:G.
  - (* the run begins with 2d or 2D *)
    assert (Ht : exists y t', t = 50 :: y :: t' /\ (y = 100 \/ y = 68)).
    { destruct tlit_2d as (E1 & E2 & _). rewrite E1, E2, !startswith_two in G.
      destruct t as [|x [|y t']]; try discriminate G.
      destruct (N.eqb_spec 50 x) as [<-|]; [|discriminate G]. cbn [andb] in G.
      exists y, t'. split; [reflexivity|].
      apply orb_true_iff in G. destruct G as [G|G]; apply N.eqb_eq in G; auto. }
    destruct Ht as (y & t' & -> & Hy).
    assert (Ep : exists p', p = byte_of 50 :: byte_of y :: p').
    { destruct Hy as [-> | ->]; cbn in E;
        destruct (split_byte_nonempty percent (map byte_of (take_class true t')))
          as (q & qs & Eq); rewrite Eq in E; injection E as <- _; eauto. }
    destruct Ep as (p' & ->). cbn [unquote_item app].
    destruct Hy as [-> | ->]; cbn; eauto.
  - (* otherwise the head is not the byte 45 *)
    assert (Hhead : forall b0 X, unquote_item p = b0 :: X -> (Byte.to_N b0 =? 45) = false).
    { intros b0 X. unfold unquote_item.
      destruct p as [|h1 [|h2 p']]; try (intros [= <- _]; reflexivity).
      destruct (hex_digit h1) as [v1|] eqn:E1; [|intros [= <- _]; reflexivity].
      destruct (hex_digit h2) as [v2|] eqn:E2; [|intros [= <- _]; reflexivity].
      intros Eb. assert (b0 = byte_of (16 * v1 + v2)) as -> by congruence. clear Eb.
      apply N.eqb_neq. intros E45.
      pose proof (hex_digit_lt _ _ E1). pose proof (hex_digit_lt _ _ E2).
      rewrite byte_of_to_N in E45 by lia.
      assert (v1 = 2 /\ v2 = 13) as [-> ->] by lia.
      apply hex_digit_2 in E1. apply hex_digit_13 in E2.
      (* the two bytes come from the first two characters of t *)
      destruct t as [|x [|y t']]; cbn [take_class map app] in Hpre; try discriminate Hpre.
      - cbn [Bool.eqb] in Hpre. destruct (x <? 128); discriminate Hpre.
      - cbn [Bool.eqb] in Hpre.
        destruct (N.ltb_spec x 128) as [Hx|]; [|discriminate Hpre].
        cbn [map take_class Bool.eqb] in Hpre.
        destruct (N.ltb_spec y 128) as [Hy|]; [|discriminate Hpre].
        cbn [map app] in Hpre. injection Hpre as Hx' Hy' _.
        apply (byte_of_inj_ascii x h1 Hx) in Hx'.
        apply (byte_of_inj_ascii y h2 Hy) in Hy'.
        assert (x = 50) as -> by lia.
        destruct tlit_2d as (T1 & T2 & _). rewrite T1, T2, !startswith_two in G.
        destruct E2 as [E2|E2]; rewrite E2 in Hy'; subst y; discriminate G. }
    destruct (unquote_item p) as [|b0 X] eqn:Ei.
    { exfalso. revert Ei. unfold unquote_item.
      destruct p as [|h1 [|h2 p']]; try discriminate.
      destruct (hex_digit h1), (hex_digit h2); discriminate. }
    exists b0. eexists. split; [reflexivity|]. eapply Hhead; eauto.
Qed.

Lemma unquote_to_bytes_plain (b : byte) (bs : pybytes) :
  Byte.eqb b percent = false ->
  exists X, unquote_to_bytes (b :: bs) = b :: X.
Proof.
  intros Hb. unfold unquote_to_bytes. cbn [split_byte]. rewrite Hb.
  destruct (split_byte_nonempty percent bs) as (p & ps & ->).
  destruct ps; cbn [app]; eauto.
Qed.

(** The decoded host begins with a hyphen exactly when the host begins
    with a hyphen or with its percent-encoding. *)
Lemma unquote_hyphen_iff (h : pystr) :
  startswith (unquote h) (tlit "-") = hyphen_first h.
Proof.
  unfold unquote, hyphen_first.
  destruct tlit_2d as (T1 & T2 & T3 & T4 & T5). rewrite T3, T4, T5.
  change [45] with [ch_hyphen].
  destruct (existsb (N.eqb 37) h) eqn:Ex.
  - destruct h as [|c t]; [discriminate|].
    destruct (ascii_runs_head c t) as [rest ->]. cbn [map concat].
    destruct (N.ltb_spec c 128) as [Hc|Hc].
    + destruct (N.eqb_spec c 37) as [->|Hne].
      * change (byte_of 37) with percent.
        destruct (unquote_to_bytes_percent t) as (b0 & X & -> & Hb).
        rewrite startswith_app_one, utf8_decode_replace_hyphen, Hb.
        { rewrite T1, T2, !startswith_cons. reflexivity. }
        unfold utf8_decode_replace.
        destruct (utf8_decode_replace_head 0xFFFD b0 X) as (x & s & -> & _).
        discriminate.
      * cbn [map].
        destruct (unquote_to_bytes_plain (byte_of c) (map byte_of (take_class true t)))
          as [X ->].
        { destruct (Byte.eqb (byte_of c) percent) eqn:E; [exfalso|reflexivity].
          apply Byte.byte_dec_bl in E. apply Hne.
          apply (f_equal Byte.to_N) in E. rewrite byte_of_to_N in E by lia.
          exact E. }
        rewrite startswith_app_one, utf8_decode_replace_hyphen, byte_of_to_N by
            (try lia; unfold utf8_decode_replace;
             destruct (utf8_decode_replace_head 0xFFFD (byte_of c) X)
               as (x & s & -> & _); discriminate).
        rewrite !startswith_cons, startswith_nil, (N.eqb_sym c 45).
        unfold ch_hyphen.
        replace (37 =? c) with false by (symmetry; apply N.eqb_neq; lia).
        now rewrite !andb_true_r, !orb_false_r.
    + cbn [app]. rewrite !startswith_cons. unfold ch_hyphen.
      replace (45 =? c) with false by (symmetry; apply N.eqb_neq; lia).
      replace (37 =? c) with false by (symmetry; apply N.eqb_neq; lia).
      reflexivity.
  - destruct h as [|c t]; [reflexivity|].
    cbn [existsb] in Ex. apply orb_false_iff in Ex. destruct Ex as [Ex _].
    rewrite !startswith_cons, Ex. now rewrite !orb_false_r.
Qed.

(** C1: [checksafessh] raises exactly when the percent-decoded host
    starts with ['-'], that is, when the host starts with ['-'], ["%2d"]
    or ["%2D"]; the error is the abort that carries the decoded host,
    and otherwise the call returns [None].  It raises for
    ["-oProxyCommand=x"] and for ["%2doProxyCommand=x"] and returns for
    ["github.com"]. *)
Theorem C1_checksafessh_guard :
  (forall host : pystr,
     (startswith (unquote host) (tlit "-") = true <->
      checksafessh host
      = Raise (Abort "potentially unsafe hostname: %r" (unquote host))) /\
     (startswith (unquote host) (tlit "-") = true <->
      exists e, checksafessh host = Raise e) /\
     (startswith (unquote host) (tlit "-") = false <->
      checksafessh host = Ok VNone) /\
     (hyphen_first host = true <-> exists e, checksafessh host = Raise e)) /\
  checksafessh (tlit "-oProxyCommand=x")
  = Raise (Abort "potentially unsafe hostname: %r" (tlit "-oProxyCommand=x")) /\
  checksafessh (tlit "%2doProxyCommand=x")
  = Raise (Abort "potentially unsafe hostname: %r" (tlit "-oProxyCommand=x")) /\
  checksafessh (tlit "%2DoProxyCommand=x")
  = Raise (Abort "potentially unsafe hostname: %r" (tlit "-oProxyCommand=x")) /\
  checksafessh (tlit "github.com") = Ok VNone.
Proof.
  split.
  - intros host. rewrite <- unquote_hyphen_iff. unfold checksafessh.
    destruct (startswith (unquote host) (tlit "-")); repeat split;
      try reflexivity; try discriminate; eauto;
      intros [e He]; discriminate.
  - repeat split; reflexivity.
Qed.

(** * Further properties *)

(** ** The two parsers *)

Lemma parse_hgsub_from_with (lines : list pystr) (rv : strdict) :
  parse_hgsub_from rv lines = parse_with hgsub_entry rv lines.
Proof.
  revert rv. induction lines as [|l rest IH]; intros rv; [reflexivity|].
  cbn [parse_hgsub_from parse_with]. unfold content_line, hgsub_entry.
  destruct (skipped (strip l)); cbn [negb]; [apply IH|].
  destruct (split_once ch_equal l) as [[name value]|]; [apply IH | reflexivity].
Qed.

Lemma parse_hgsubstate_from_with (lines : list pystr) (rv : strdict) :
  parse_hgsubstate_from rv lines = parse_with hgsubstate_entry rv lines.
Proof.
  revert rv. induction lines as [|l rest IH]; intros rv; [reflexivity|].
  cbn [parse_hgsubstate_from parse_with]. unfold content_line, hgsubstate_entry.
  destruct (skipped (strip l)); cbn [negb]; [apply IH|].
  destruct (split_once ch_space l) as [[value name]|]; [apply IH | reflexivity].
Qed.

Lemma od_lookup_set (d : strdict) (k v k' : pystr) :
  od_lookup (od_set d k v) k' = if str_eqb k k' then Some v else od_lookup d k'.
Proof.
  induction d as [|[k0 v0] t IH]; cbn [od_set od_lookup]; [reflexivity|].
  destruct (str_eqb k0 k) eqn:E; cbn [od_lookup].
  - apply str_eqb_eq in E. subst k0. now destruct (str_eqb k k').
  - destruct (str_eqb k0 k') eqn:E'; [|exact IH].
    apply str_eqb_eq in E'. subst k0.
    destruct (str_eqb k k') eqn:E2; [|reflexivity].
    apply str_eqb_eq in E2. subst k'. now rewrite str_eqb_refl in E.
Qed.

Lemma od_set_keys (d : strdict) (k v : pystr) :
  map fst (od_set d k v)
  = if existsb (fun k0 => str_eqb k0 k) (map fst d) then map fst d
    else map fst d ++ [k].
Proof.
  induction d as [|[k0 v0] t IH]; cbn [od_set map fst existsb app]; [reflexivity|].
  destruct (str_eqb k0 k) eqn:E; cbn [orb map fst]; [reflexivity|].
  rewrite IH. now destruct (existsb _ (map fst t)).
Qed.

Lemma od_set_NoDup (d : strdict) (k v : pystr) :
  NoDup (map fst d) -> NoDup (map fst (od_set d k v)).
Proof.
  intros Hn. rewrite od_set_keys.
  destruct (existsb _ (map fst d)) eqn:E; [assumption|].
  apply NoDup_app; [assumption | repeat constructor; intros [] |].
  intros x Hx [E'|[]]. subst x.
  assert (existsb (fun k0 => str_eqb k0 k) (map fst d) = true); [|congruence].
  apply existsb_exists. exists k. split; [assumption | apply str_eqb_refl].
Qed.

Lemma od_set_In (d : strdict) (k v : pystr) (x : pystr * pystr) :
  In x (od_set d k v) -> x = (k, v) \/ In x d.
Proof.
  induction d as [|[k0 v0] t IH]; cbn [od_set In].
  - intros [<-|[]]. now left.
  - destruct (str_eqb k0 k) eqn:E; cbn [In].
    + apply str_eqb_eq in E. subst k0. intros [<-|H]; auto.
    + intros [<-|H]; auto. destruct (IH H); auto.
Qed.

Section ParseWith.
Variable entry : pystr -> option (pystr * pystr).

Lemma parse_with_app (a b : list pystr) (rv : strdict) :
  parse_with entry rv (a ++ b)
  = (rv' <- parse_with entry rv a ;; parse_with entry rv' b).
Proof.
  revert rv. induction a as [|l a IH]; intros rv; [reflexivity|].
  cbn [app parse_with]. destruct (content_line l); [|apply IH].
  destruct (entry l) as [[k v]|]; [apply IH | reflexivity].
Qed.

Lemma parse_with_filter (lines : list pystr) (rv : strdict) :
  parse_with entry rv (filter content_line lines) = parse_with entry rv lines.
Proof.
  revert rv. induction lines as [|l rest IH]; intros rv; [reflexivity|].
  cbn [filter parse_with]. destruct (content_line l) eqn:E; [|apply IH].
  cbn [parse_with]. rewrite E. destruct (entry l) as [[k v]|]; [apply IH | reflexivity].
Qed.

Lemma parse_with_raises (lines : list pystr) (rv : strdict) (e : pyexc) :
  parse_with entry rv lines = Raise e -> e = ValueError.
Proof.
  revert rv. induction lines as [|l rest IH]; intros rv; cbn [parse_with];
    [discriminate|].
  destruct (content_line l); [|apply IH].
  destruct (entry l) as [[k v]|]; [apply IH | congruence].
Qed.

Lemma parse_with_returns (lines : list pystr) (rv : strdict) :
  (exists d, parse_with entry rv lines = Ok d) <->
  forallb (fun l => negb (content_line l)
                    || match entry l with Some _ => true | None => false end)
          lines = true.
Proof.
  revert rv. induction lines as [|l rest IH]; intros rv; cbn [parse_with forallb].
  - split; eauto.
  - destruct (content_line l); cbn [negb orb]; [|apply IH].
    destruct (entry l) as [[k v]|]; cbn [andb]; [apply IH|].
    split; [intros [d H]|]; discriminate.
Qed.

Lemma parse_with_keeps (lines : list pystr) (rv d : strdict) (k : pystr) :
  parse_with entry rv lines = Ok d ->
  (forall l k' v', In l lines -> content_line l = true ->
                   entry l = Some (k', v') -> k' <> k) ->
  od_lookup d k = od_lookup rv k.
Proof.
  revert rv. induction lines as [|l rest IH]; intros rv; cbn [parse_with].
  - intros [= ->] _. reflexivity.
  - intros H Hk. destruct (content_line l) eqn:E.
    + destruct (entry l) as [[k' v']|] eqn:El; [|discriminate].
      rewrite (IH _ H) by (intros; eapply Hk; eauto; now right).
      rewrite od_lookup_set. destruct (str_eqb k' k) eqn:E'; [|reflexivity].
      apply str_eqb_eq in E'. exfalso. eapply Hk; eauto. now left.
    + apply (IH _ H). intros. eapply Hk; eauto. now right.
Qed.

Lemma parse_with_NoDup (lines : list pystr) (rv d : strdict) :
  parse_with entry rv lines = Ok d -> NoDup (map fst rv) -> NoDup (map fst d).
Proof.
  revert rv. induction lines as [|l rest IH]; intros rv; cbn [parse_with].
  - now intros [= ->].
  - destruct (content_line l).
    + destruct (entry l) as [[k v]|]; [|discriminate].
      intros H Hn. apply (IH _ H). now apply od_set_NoDup.
    + apply IH.
Qed.

Lemma parse_with_In (lines : list pystr) (rv d : strdict) (x : pystr * pystr) :
  parse_with entry rv lines = Ok d -> In x d ->
  In x rv \/ exists l, In l lines /\ content_line l = true /\ entry l = Some x.
Proof.
  revert rv. induction lines as [|l rest IH]; intros rv; cbn [parse_with].
  - intros [= ->]. now left.
  - intros H Hx. destruct (content_line l) eqn:E.
    + destruct (entry l) as [[k v]|] eqn:El; [|discriminate].
      destruct (IH _ H Hx) as [Hin|(l' & Hl' & Hc & He)].
      * destruct (od_set_In _ _ _ _ Hin) as [->|Hin']; [|now left].
        right. exists l. repeat split; auto. now left.
      * right. exists l'. repeat split; auto. now right.
    + destruct (IH _ H Hx) as [Hin|(l' & Hl' & Hc & He)]; [now left|].
      right. exists l'. repeat split; auto. now right.
Qed.

End ParseWith.

(** X1: blank lines and comment lines (a ['#'] after optional white
    space) have no effect on what the two parsers return or raise:
    parsing the other lines alone gives the same result. *)
Theorem parsers_ignore_blank_and_comment_lines (lines : list pystr) :
  parse_hgsub (filter content_line lines) = parse_hgsub lines /\
  parse_hgsubstate (filter content_line lines) = parse_hgsubstate lines.
Proof.
  unfold parse_hgsub, parse_hgsubstate.
  rewrite !parse_hgsub_from_with, !parse_hgsubstate_from_with.
  split; apply parse_with_filter.
Qed.

(** *** [strip] *)

Lemma lstrip_head (s : pystr) (c : codepoint) (t : pystr) :
  lstrip s = c :: t -> is_space c = false.
Proof.
  induction s as [|a s IH]; cbn [lstrip]; [discriminate|].
  destruct (is_space a) eqn:E; [exact IH|]. intros [= -> ->]. exact E.
Qed.

Lemma lstrip_app (s b : pystr) (c : codepoint) (t : pystr) :
  lstrip s = c :: t -> lstrip (s ++ b) = c :: t ++ b.
Proof.
  induction s as [|a s IH]; cbn [lstrip app]; [discriminate|].
  destruct (is_space a) eqn:E; [exact IH|]. intros [= -> ->]. reflexivity.
Qed.

Lemma lstrip_all_space (w s : pystr) :
  forallb is_space w = true -> lstrip (w ++ s) = lstrip s.
Proof.
  induction w as [|a w IH]; cbn [forallb app]; [reflexivity|].
  intros H. apply andb_true_iff in H. destruct H as [Ha Hw].
  rewrite lstrip_space by assumption. now apply IH.
Qed.

Lemma lstrip_nil (s : pystr) : lstrip s = [] -> forallb is_space s = true.
Proof.
  induction s as [|a s IH]; cbn [lstrip forallb]; [reflexivity|].
  destruct (is_space a); [exact IH | discriminate].
Qed.

Lemma rstrip_nil (s : pystr) : rstrip s = [] -> forallb is_space s = true.
Proof.
  induction s as [|a s IH]; cbn [rstrip forallb]; [reflexivity|].
  destruct (rstrip s); [|discriminate].
  destruct (is_space a); [intros _; now apply IH | discriminate].
Qed.

Lemma strip_nil (s : pystr) : strip s = [] -> forallb is_space s = true.
Proof.
  unfold strip. intros H. apply rstrip_nil in H.
  destruct (lstrip s) as [|c t] eqn:E; [now apply lstrip_nil|].
  apply lstrip_head in E. cbn [forallb] in H. now rewrite E in H.
Qed.

Lemma rstrip_last (s : pystr) (d : codepoint) :
  rstrip s <> [] -> is_space (last (rstrip s) d) = false.
Proof.
  induction s as [|a s IH]; cbn [rstrip]; [congruence|].
  destruct (rstrip s) as [|c r] eqn:E.
  - destruct (is_space a) eqn:Ea; [congruence|]. intros _. exact Ea.
  - intros _. change (last (a :: c :: r) d) with (last (c :: r) d).
    apply IH. discriminate.
Qed.

Lemma strip_trimmed (s : pystr) : trimmed (strip s) = true.
Proof.
  destruct (strip s) as [|c r] eqn:E; [reflexivity|].
  unfold trimmed. unfold strip in E.
  destruct (lstrip s) as [|c' t] eqn:El; [discriminate|].
  pose proof (lstrip_head _ _ _ El) as Hc.
  destruct (rstrip_head c' t Hc) as [r' Hr]. rewrite Hr in E.
  injection E as -> ->. rewrite Hc. cbn [negb andb].
  rewrite <- Hr. rewrite rstrip_last; [reflexivity|]. rewrite Hr. discriminate.
Qed.

Lemma trimmed_strip (s : pystr) : trimmed s = true -> strip s = s.
Proof.
  destruct s as [|c t]; [reflexivity|]. unfold trimmed. intros H.
  apply andb_true_iff in H. destruct H as [H1 H2].
  apply negb_true_iff in H1, H2. unfold strip.
  rewrite lstrip_nonspace by assumption.
  apply (rstrip_last_nonspace (c :: t) c); [discriminate | assumption].
Qed.

Lemma strip_head_app (a b : pystr) (c : codepoint) (r : pystr) :
  strip a = c :: r -> exists r', strip (a ++ b) = c :: r'.
Proof.
  unfold strip. intros H.
  destruct (lstrip a) as [|c' t] eqn:El; [discriminate|].
  pose proof (lstrip_head _ _ _ El) as Hc.
  destruct (rstrip_head c' t Hc) as [r0 Hr]. rewrite Hr in H.
  injection H as -> ->. rewrite (lstrip_app _ b _ _ El).
  apply rstrip_head. exact Hc.
Qed.

Lemma strip_app_space (k w : pystr) :
  trimmed k = true -> forallb is_space w = true -> strip (k ++ w) = k.
Proof.
  intros Hk Hw. destruct k as [|c t].
  - cbn [app]. unfold strip.
    rewrite <- (app_nil_r w), lstrip_all_space by assumption. reflexivity.
  - rewrite <- (trimmed_strip _ Hk) at 2. unfold strip.
    unfold trimmed in Hk. apply andb_true_iff in Hk. destruct Hk as [Hc _].
    apply negb_true_iff in Hc. cbn [app].
    rewrite !lstrip_nonspace by assumption.
    change (c :: t ++ w) with ((c :: t) ++ w). now apply rstrip_app_space.
Qed.

Lemma strip_space_app (w s : pystr) :
  forallb is_space w = true -> strip (w ++ s) = strip s.
Proof. intros Hw. unfold strip. now rewrite lstrip_all_space. Qed.

Lemma lstrip_incl (s : pystr) (x : codepoint) : In x (lstrip s) -> In x s.
Proof.
  induction s as [|a s IH]; cbn [lstrip]; [contradiction|].
  destruct (is_space a); [intros H; right; now apply IH | trivial].
Qed.

Lemma rstrip_incl (s : pystr) (x : codepoint) : In x (rstrip s) -> In x s.
Proof.
  induction s as [|a s IH]; cbn [rstrip]; [contradiction|].
  destruct (rstrip s) as [|c r].
  - destruct (is_space a); [contradiction|]. intros [<-|[]]. now left.
  - intros [<-|H]; [now left | right; now apply IH].
Qed.

Lemma contains_strip (c : codepoint) (s : pystr) :
  contains c s = false -> contains c (strip s) = false.
Proof.
  unfold contains. intros H.
  destruct (existsb (N.eqb c) (strip s)) eqn:E; [|reflexivity].
  apply existsb_exists in E. destruct E as (x & Hx & Ex).
  unfold strip in Hx. apply rstrip_incl, lstrip_incl in Hx.
  assert (existsb (N.eqb c) s = true); [|congruence].
  apply existsb_exists. eauto.
Qed.

Lemma split_once_Some (sep : codepoint) (s a b : pystr) :
  split_once sep s = Some (a, b) -> s = a ++ sep :: b /\ contains sep a = false.
Proof.
  unfold contains. revert a. induction s as [|c t IH]; intros a; cbn [split_once];
    [discriminate|].
  destruct (N.eqb_spec c sep) as [->|Hne].
  - intros [= <- <-]. split; reflexivity.
  - destruct (split_once sep t) as [[a' b']|]; [|discriminate].
    intros [= <- <-]. destruct (IH a' eq_refl) as [-> H]. split; [reflexivity|].
    cbn [existsb]. rewrite H. destruct (N.eqb_spec sep c); [congruence | reflexivity].
Qed.

Lemma split_once_None (sep : codepoint) (s : pystr) :
  split_once sep s = None <-> contains sep s = false.
Proof.
  unfold contains. induction s as [|c t IH]; cbn [split_once existsb].
  - split; reflexivity.
  - rewrite (N.eqb_sym sep c). destruct (c =? sep); cbn [orb].
    + split; discriminate.
    + rewrite <- IH. destruct (split_once sep t) as [[a b]|]; split; congruence.
Qed.

Lemma split_once_prefix (sep : codepoint) (w s : pystr) :
  contains sep w = false ->
  split_once sep (w ++ s)
  = match split_once sep s with
    | Some (a, b) => Some (w ++ a, b)
    | None => None
    end.
Proof.
  unfold contains. induction w as [|c w IH]; cbn [existsb app split_once].
  - intros _. now destruct (split_once sep s) as [[a b]|].
  - intros H. apply orb_false_iff in H. destruct H as [Hc Hw].
    rewrite N.eqb_sym in Hc. rewrite Hc, (IH Hw).
    now destruct (split_once sep s) as [[a b]|].
Qed.

Lemma space_not_equal (w : pystr) :
  forallb is_space w = true -> contains ch_equal w = false.
Proof.
  unfold contains. induction w as [|c w IH]; cbn [forallb existsb]; [reflexivity|].
  intros H. apply andb_true_iff in H. destruct H as [Hc Hw]. rewrite (IH Hw).
  destruct (N.eqb_spec ch_equal c) as [<-|]; [discriminate | reflexivity].
Qed.

(** *** What the parsers return *)

Lemma hgsub_entry_item (l k v : pystr) :
  content_line l = true -> hgsub_entry l = Some (k, v) -> hgsub_item (k, v) = true.
Proof.
  unfold content_line, hgsub_entry, hgsub_item, hgsub_key. cbn [fst snd].
  intros Hc. apply negb_true_iff in Hc.
  destruct (split_once ch_equal l) as [[name value]|] eqn:E; [|discriminate].
  intros [= <- <-]. apply split_once_Some in E. destruct E as [-> Hn].
  rewrite !strip_trimmed, (contains_strip _ _ Hn). cbn [negb andb].
  rewrite andb_true_r. apply negb_true_iff.
  destruct (strip name) as [|c r] eqn:Es; [reflexivity|].
  destruct (strip_head_app _ (ch_equal :: value) _ _ Es) as [r' Hr].
  rewrite Hr in Hc. cbn [skipped] in Hc. cbn [startswith].
  rewrite N.eqb_sym, Hc. reflexivity.
Qed.

Lemma hgsubstate_entry_item (l k v : pystr) :
  content_line l = true -> hgsubstate_entry l = Some (k, v) ->
  hgsubstate_item (k, v) = true.
Proof.
  unfold content_line, hgsubstate_entry, hgsubstate_item. cbn [fst snd].
  intros Hc. apply negb_true_iff in Hc.
  destruct (split_once ch_space l) as [[value name]|] eqn:E; [|discriminate].
  intros [= <- <-]. apply split_once_Some in E. destruct E as [-> Hn].
  rewrite !strip_trimmed, (contains_strip _ _ Hn). cbn [negb andb].
  apply negb_true_iff.
  destruct (strip value) as [|c r] eqn:Es.
  - apply strip_nil in Es. cbn [app].
    change (value ++ ch_space :: name) with (value ++ [ch_space] ++ name) in Hc.
    rewrite app_assoc, strip_space_app in Hc; [exact Hc|].
    rewrite forallb_app, Es. reflexivity.
  - destruct (strip_head_app _ (ch_space :: name) _ _ Es) as [r' Hr].
    rewrite Hr in Hc. exact Hc.
Qed.

Lemma hgsubstate_line_entry (k v : pystr) :
  hgsubstate_item (k, v) = true ->
  content_line (hgsubstate_line (k, v)) = true /\
  hgsubstate_entry (hgsubstate_line (k, v)) = Some (k, v).
Proof.
  unfold hgsubstate_item, hgsubstate_line. cbn [fst snd]. intros H.
  apply andb_true_iff in H. destruct H as [H Hs].
  apply andb_true_iff in H. destruct H as [H Hsp].
  apply andb_true_iff in H. destruct H as [Hk Hv].
  apply negb_true_iff in Hs, Hsp. split.
  - unfold content_line. apply negb_true_iff. destruct v as [|c t].
    + cbn [app] in Hs |- *.
      change (ch_space :: k ++ [ch_newline]) with ([ch_space] ++ k ++ [ch_newline]).
      rewrite strip_space_app, strip_app_space by (assumption || reflexivity).
      exact Hs.
    + pose proof (trimmed_strip _ Hv) as Es.
      destruct (strip_head_app _ ([ch_space] ++ k ++ [ch_newline]) _ _ Es) as [r' ->].
      exact Hs.
  - unfold hgsubstate_entry. cbn [app].
    rewrite split_once_app by assumption.
    rewrite strip_app_space by (assumption || reflexivity).
    now rewrite trimmed_strip.
Qed.

Section OwnLines.
Variable entry : pystr -> option (pystr * pystr).
Variable line : pystr * pystr -> pystr.

Lemma parse_with_own_lines (d rv : strdict) :
  NoDup (map fst (rv ++ d)) ->
  (forall x, In x d -> content_line (line x) = true /\ entry (line x) = Some x) ->
  parse_with entry rv (map line d) = Ok (rv ++ d).
Proof.
  revert rv. induction d as [|[k v] t IH]; intros rv Hn Hd.
  - cbn. now rewrite app_nil_r.
  - cbn [map parse_with]. destruct (Hd (k, v) (or_introl eq_refl)) as [-> ->].
    rewrite od_set_append.
    + rewrite IH; [now rewrite <- app_assoc | now rewrite <- app_assoc |].
      intros x Hx. apply Hd. now right.
    + apply distinct_NoDup in Hn. rewrite map_app in Hn. cbn [map fst] in Hn.
      eapply distinct_app_head; eauto.
Qed.

End OwnLines.

Lemma parse_with_items (entry : pystr -> option (pystr * pystr))
      (good : pystr * pystr -> bool) (lines : list pystr) (d : strdict) :
  (forall l k v, content_line l = true -> entry l = Some (k, v) -> good (k, v) = true) ->
  parse_with entry [] lines = Ok d ->
  NoDup (map fst d) /\ forallb good d = true.
Proof.
  intros Hg H. split.
  - eapply parse_with_NoDup; [exact H | constructor].
  - apply forallb_forall. intros [k v] Hx.
    destruct (parse_with_In _ _ _ _ _ H Hx) as [[]|(l & _ & Hc & He)]. eauto.
Qed.

Lemma forallb_pointwise {A} (f g : A -> bool) (l : list A) :
  (forall x, f x = g x) -> forallb f l = forallb g l.
Proof.
  intros H. induction l as [|x t IH]; cbn [forallb]; [reflexivity|].
  now rewrite H, IH.
Qed.

Lemma hgsub_entry_some (l : pystr) :
  match hgsub_entry l with Some _ => true | None => false end = contains ch_equal l.
Proof.
  unfold hgsub_entry. destruct (split_once ch_equal l) as [[a b]|] eqn:E.
  - destruct (contains ch_equal l) eqn:C; [reflexivity|].
    apply split_once_None in C. congruence.
  - apply split_once_None in E. now rewrite E.
Qed.

Lemma hgsubstate_entry_some (l : pystr) :
  match hgsubstate_entry l with Some _ => true | None => false end
  = contains ch_space l.
Proof.
  unfold hgsubstate_entry. destruct (split_once ch_space l) as [[a b]|] eqn:E.
  - destruct (contains ch_space l) eqn:C; [reflexivity|].
    apply split_once_None in C. congruence.
  - apply split_once_None in E. now rewrite E.
Qed.

Lemma parse_with_last (entry : pystr -> option (pystr * pystr))
      (pre post : list pystr) (l k v : pystr) (d : strdict) :
  content_line l = true -> entry l = Some (k, v) ->
  existsb (assigns entry k) post = false ->
  parse_with entry [] (pre ++ l :: post) = Ok d ->
  od_lookup d k = Some v.
Proof.
  intros Hc He Hp. rewrite parse_with_app.
  destruct (parse_with entry [] pre) as [rv|e]; [|discriminate].
  cbn [bind parse_with]. rewrite Hc, He. intros H.
  rewrite (parse_with_keeps _ _ _ _ _ H).
  - now rewrite od_lookup_set, str_eqb_refl.
  - intros l' k' v' Hin Hc' He' ->.
    assert (existsb (assigns entry k) post = true); [|congruence].
    apply existsb_exists. exists l'. split; [assumption|].
    unfold assigns. now rewrite Hc', He', str_eqb_refl.
Qed.

(** X2: the two parsers return unless some line that is neither blank
    nor a comment lacks the separator (['='] for [.hgsub], a space for
    [.hgsubstate]); then they raise ValueError, and they raise nothing
    else. *)
Theorem parsers_raise_on_line_without_separator (lines : list pystr) :
  ((exists d, parse_hgsub lines = Ok d) <->
   forallb (fun l => negb (content_line l) || contains ch_equal l) lines = true) /\
  (forall e, parse_hgsub lines = Raise e -> e = ValueError) /\
  ((exists d, parse_hgsubstate lines = Ok d) <->
   forallb (fun l => negb (content_line l) || contains ch_space l) lines = true) /\
  (forall e, parse_hgsubstate lines = Raise e -> e = ValueError).
Proof.
  unfold parse_hgsub, parse_hgsubstate.
  rewrite parse_hgsub_from_with, parse_hgsubstate_from_with.
  split; [|split; [apply parse_with_raises | split; [|apply parse_with_raises]]].
  - rewrite parse_with_returns.
    erewrite forallb_pointwise; [reflexivity|]. intros l. cbv beta.
    now rewrite hgsub_entry_some.
  - rewrite parse_with_returns.
    erewrite forallb_pointwise; [reflexivity|]. intros l. cbv beta.
    now rewrite hgsubstate_entry_some.
Qed.

Lemma parsers_raise_on_line_without_separator_witness :
  parse_hgsub [tlit "lib = one"; tlit "doc"] = Raise ValueError /\
  forallb (fun l => negb (content_line l) || contains ch_equal l)
          [tlit "lib = one"; tlit "doc"] = false /\
  parse_hgsubstate [tlit "0123 lib"; tlit "4567"] = Raise ValueError /\
  ValueError = ValueError.
Proof.
  split; [reflexivity|]. split; [reflexivity|]. split; [reflexivity|].
  apply (proj1 (proj2 (parsers_raise_on_line_without_separator
                         [tlit "lib = one"; tlit "doc"]))).
  reflexivity.
Defined.

(** X3: a key that several lines assign has the value of the last of
    them: when no line after [l] assigns the key of [l], the parsed
    mapping holds the value of [l] under that key. *)
Theorem parsers_last_assignment_wins
        (pre post : list pystr) (l k v : pystr) (d : strdict) :
  content_line l = true ->
  (hgsub_entry l = Some (k, v) ->
   existsb (assigns hgsub_entry k) post = false ->
   parse_hgsub (pre ++ l :: post) = Ok d ->
   od_lookup d k = Some v) /\
  (hgsubstate_entry l = Some (k, v) ->
   existsb (assigns hgsubstate_entry k) post = false ->
   parse_hgsubstate (pre ++ l :: post) = Ok d ->
   od_lookup d k = Some v).
Proof.
  intros Hc. unfold parse_hgsub, parse_hgsubstate.
  rewrite parse_hgsub_from_with, parse_hgsubstate_from_with.
  split; intros He Hp H; eapply parse_with_last; eauto.
Qed.

Lemma parsers_last_assignment_wins_witness :
  content_line (tlit "  lib=[git]two.git  ") = true /\
  hgsub_entry (tlit "  lib=[git]two.git  ") = Some (tlit "lib", tlit "[git]two.git") /\
  existsb (assigns hgsub_entry (tlit "lib")) [tlit "doc = =x"] = false /\
  parse_hgsub hgsub_sample_lines
  = Ok [(tlit "lib", tlit "[git]two.git"); (tlit "doc", tlit "=x")] /\
  od_lookup [(tlit "lib", tlit "[git]two.git"); (tlit "doc", tlit "=x")] (tlit "lib")
  = Some (tlit "[git]two.git").
Proof.
  split; [reflexivity|]. split; [reflexivity|]. split; [reflexivity|].
  split; [reflexivity|].
  apply (proj1 (parsers_last_assignment_wins
                  [tlit "# subrepositories"; tlit "lib = [git]one.git"; tlit ""]
                  [tlit "doc = =x"] (tlit "  lib=[git]two.git  ")
                  (tlit "lib") (tlit "[git]two.git") _ eq_refl));
    reflexivity.
Defined.

(** X4: what the parsers return.  The keys are pairwise different, and
    every item is the assignment of some line that is neither blank nor
    a comment.  The keys and values are trimmed; a key of [.hgsub] holds
    no ['='] and does not begin with ['#']; a value of [.hgsubstate]
    holds no space, and its value and key are not both empty. *)
Theorem parsers_result_items (lines : list pystr) (d : strdict) :
  (parse_hgsub lines = Ok d ->
   NoDup (map fst d) /\ forallb hgsub_item d = true /\
   forall k v, In (k, v) d ->
     exists l, In l lines /\ content_line l = true /\ hgsub_entry l = Some (k, v)) /\
  (parse_hgsubstate lines = Ok d ->
   NoDup (map fst d) /\ forallb hgsubstate_item d = true /\
   forall k v, In (k, v) d ->
     exists l, In l lines /\ content_line l = true /\
               hgsubstate_entry l = Some (k, v)).
Proof.
  unfold parse_hgsub, parse_hgsubstate.
  rewrite parse_hgsub_from_with, parse_hgsubstate_from_with.
  split; intros H.
  - destruct (parse_with_items _ hgsub_item _ _ hgsub_entry_item H) as [Hn Hf].
    split; [assumption|]. split; [assumption|]. intros k v Hin.
    destruct (parse_with_In _ _ _ _ _ H Hin) as [[]|Hl]. exact Hl.
  - destruct (parse_with_items _ hgsubstate_item _ _ hgsubstate_entry_item H)
      as [Hn Hf].
    split; [assumption|]. split; [assumption|]. intros k v Hin.
    destruct (parse_with_In _ _ _ _ _ H Hin) as [[]|Hl]. exact Hl.
Qed.

Lemma parsers_result_items_witness :
  parse_hgsub hgsub_sample_lines
  = Ok [(tlit "lib", tlit "[git]two.git"); (tlit "doc", tlit "=x")] /\
  NoDup (map fst [(tlit "lib", tlit "[git]two.git"); (tlit "doc", tlit "=x")]) /\
  parse_hgsubstate hgsubstate_sample_lines
  = Ok [(tlit "lib", tlit "89ab"); (tlit "doc dir", tlit "4567")] /\
  NoDup (map fst [(tlit "lib", tlit "89ab"); (tlit "doc dir", tlit "4567")]).
Proof.
  split; [reflexivity|]. split.
  - apply (proj1 (parsers_result_items hgsub_sample_lines _)). reflexivity.
  - split; [reflexivity|].
    apply (proj2 (parsers_result_items hgsubstate_sample_lines _)). reflexivity.
Defined.

(** X6: [serialize_hgsubstate] returns on every mapping that
    [parse_hgsubstate] returned, and the lines it joins parse to the
    same key-to-value pairs, in sorted key order. *)
Theorem parse_hgsubstate_result_reparses (lines : list pystr) (d : strdict) :
  parse_hgsubstate lines = Ok d ->
  exists ls, hgsubstate_lines d = Ok ls /\
             serialize_hgsubstate d = Ok (concat ls) /\
             parse_hgsubstate ls = Ok (sorted_items d) /\
             Permutation d (sorted_items d) /\
             Sorted str_le (map fst (sorted_items d)).
Proof.
  unfold parse_hgsubstate. rewrite parse_hgsubstate_from_with. intros H.
  destruct (parse_with_items _ hgsubstate_item _ _ hgsubstate_entry_item H)
    as [Hn Hf].
  pose proof (sorted_items_perm d Hn) as Hp.
  exists (map hgsubstate_line (sorted_items d)).
  split; [apply hgsubstate_lines_sorted_items|].
  split; [unfold serialize_hgsubstate; now rewrite hgsubstate_lines_sorted_items|].
  split; [|split; [exact Hp | rewrite sorted_items_keys; apply sorted_Sorted]].
  rewrite parse_hgsubstate_from_with.
  rewrite (parse_with_own_lines hgsubstate_entry hgsubstate_line); [reflexivity| |].
  - cbn [app]. eapply Permutation_NoDup; [|exact Hn]. now apply Permutation_map.
  - intros [k v] Hx. apply hgsubstate_line_entry.
    apply (Permutation_in _ (Permutation_sym Hp)) in Hx.
    exact (proj1 (forallb_forall _ _) Hf _ Hx).
Qed.

Lemma parse_hgsubstate_result_reparses_witness :
  parse_hgsubstate hgsubstate_sample_lines
  = Ok [(tlit "lib", tlit "89ab"); (tlit "doc dir", tlit "4567")] /\
  exists ls, hgsubstate_lines [(tlit "lib", tlit "89ab"); (tlit "doc dir", tlit "4567")]
             = Ok ls /\
             parse_hgsubstate ls
             = Ok [(tlit "doc dir", tlit "4567"); (tlit "lib", tlit "89ab")].
Proof.
  split; [reflexivity|].
  destruct (parse_hgsubstate_result_reparses hgsubstate_sample_lines _ eq_refl)
    as (ls & H1 & _ & H2 & _).
  exists ls. split; [exact H1 | exact H2].
Defined.

Lemma cut_lines_from_line (body cur rest : pystr) :
  contains ch_newline body = false ->
  cut_lines_from cur (body ++ ch_newline :: rest)
  = (rev cur ++ body ++ [ch_newline]) :: cut_lines_from [] rest.
Proof.
  revert cur. induction body as [|c b IH]; intros cur H.
  - cbn [app cut_lines_from rev]. now rewrite N.eqb_refl.
  - unfold contains in H. cbn [existsb] in H. apply orb_false_iff in H.
    destruct H as [Hc Hb]. cbn [app cut_lines_from].
    rewrite N.eqb_sym, Hc, (IH (c :: cur) Hb). cbn [rev].
    now rewrite <- app_assoc.
Qed.

Lemma cut_lines_hgsubstate_lines (d : strdict) :
  forallb one_line_item d = true ->
  cut_lines (concat (map hgsubstate_line d)) = map hgsubstate_line d.
Proof.
  unfold cut_lines. induction d as [|[k v] t IH]; [reflexivity|].
  cbn [forallb map concat]. intros H. apply andb_true_iff in H.
  destruct H as [Hkv Ht]. unfold one_line_item in Hkv. cbn [fst snd] in Hkv.
  apply andb_true_iff in Hkv. destruct Hkv as [Hk Hv].
  apply negb_true_iff in Hk, Hv.
  unfold hgsubstate_line at 1 3. cbn [fst snd].
  replace ((v ++ [ch_space] ++ k ++ [ch_newline]) ++ concat (map hgsubstate_line t))
    with ((v ++ [ch_space] ++ k) ++ ch_newline :: concat (map hgsubstate_line t))
    by now rewrite <- !app_assoc.
  rewrite cut_lines_from_line, (IH Ht).
  - cbn [rev app]. now rewrite <- !app_assoc.
  - unfold contains in *. rewrite !existsb_app, Hv, Hk. reflexivity.
Qed.

(** X25: for a mapping with pairwise different keys, whose keys and
    values are non-empty, trimmed and do not begin with ['#'] and whose
    values hold no space, [serialize_hgsubstate] returns the lines
    ['value key\n'] of its items, joined in sorted key order, and
    [parse_hgsubstate] of the lines it joins gives the same key-to-value
    pairs back, in that order.  When no key and no value holds a line
    feed, these are the lines of the text it returns, so that parsing
    the lines of the serialized text gives the pairs back. *)
Theorem serialize_hgsubstate_lines_parse_back (d : strdict) :
  hgsubstate_mapping d = true ->
  exists lines d',
    serialize_hgsubstate d = Ok (concat lines) /\
    lines = map hgsubstate_line d' /\
    Sorted str_le (map fst d') /\
    parse_hgsubstate lines = Ok d' /\
    Permutation d d' /\
    (forall k, od_lookup d' k = od_lookup d k) /\
    (forallb one_line_item d = true ->
     cut_lines (concat lines) = lines /\
     (text <- serialize_hgsubstate d ;; parse_hgsubstate (cut_lines text)) = Ok d').
Proof.
  unfold hgsubstate_mapping. intros H. apply andb_true_iff in H.
  destruct H as [Hd Hf].
  assert (Hn : NoDup (map fst d)) by now apply distinct_NoDup.
  pose proof (sorted_items_perm d Hn) as Hp.
  assert (Hs : serialize_hgsubstate d
               = Ok (concat (map hgsubstate_line (sorted_items d))))
    by (unfold serialize_hgsubstate; now rewrite hgsubstate_lines_sorted_items).
  assert (Hparse : parse_hgsubstate (map hgsubstate_line (sorted_items d))
                   = Ok (sorted_items d)).
  { unfold parse_hgsubstate. rewrite parse_hgsubstate_from_lines; [reflexivity| |].
    - cbn [app]. apply distinct_NoDup.
      eapply Permutation_NoDup; [|exact Hn]. now apply Permutation_map.
    - apply forallb_forall. intros x Hx.
      apply (Permutation_in _ (Permutation_sym Hp)) in Hx.
      now apply (proj1 (forallb_forall _ _) Hf). }
  exists (map hgsubstate_line (sorted_items d)), (sorted_items d).
  split; [exact Hs|].
  split; [reflexivity|].
  split; [rewrite sorted_items_keys; apply sorted_Sorted|].
  split; [exact Hparse|].
  split; [exact Hp|].
  split; [intros k; now apply sorted_items_lookup|].
  intros Hl.
  assert (Hc : cut_lines (concat (map hgsubstate_line (sorted_items d)))
               = map hgsubstate_line (sorted_items d)).
  { apply cut_lines_hgsubstate_lines. apply forallb_forall. intros x Hx.
    apply (Permutation_in _ (Permutation_sym Hp)) in Hx.
    now apply (proj1 (forallb_forall _ _) Hl). }
  split; [exact Hc|].
  rewrite Hs. cbn [bind]. now rewrite Hc.
Qed.

Lemma serialize_hgsubstate_lines_parse_back_witness :
  hgsubstate_mapping C9_sample = true /\
  forallb one_line_item C9_sample = true /\
  exists lines d',
    serialize_hgsubstate C9_sample = Ok (concat lines) /\
    lines = map hgsubstate_line d' /\
    Sorted str_le (map fst d') /\
    parse_hgsubstate lines = Ok d' /\
    Permutation C9_sample d' /\
    (forall k, od_lookup d' k = od_lookup C9_sample k) /\
    cut_lines (concat lines) = lines /\
    (text <- serialize_hgsubstate C9_sample ;; parse_hgsubstate (cut_lines text))
    = Ok d'.
Proof.
  split; [reflexivity|]. split; [reflexivity|].
  destruct (serialize_hgsubstate_lines_parse_back C9_sample eq_refl)
    as (lines & d' & H1 & H2 & H3 & H4 & H5 & H6 & H7).
  exists lines, d'. destruct (H7 eq_refl) as [H8 H9]. auto 10.
Defined.

(** X7: [parse_hgsub] does not see the indentation of a line, since it
    strips the name it splits off; [parse_hgsubstate] splits the
    unstripped line at its first space, so a line that begins with a
    space assigns the empty value to the key that is the whole rest of
    the line. *)
Theorem parsers_and_indentation (w : pystr) :
  forallb is_space w = true ->
  (forall lines, parse_hgsub (map (app w) lines) = parse_hgsub lines) /\
  (forall rest, content_line rest = true ->
     parse_hgsubstate [ch_space :: rest] = Ok [(strip rest, [])]).
Proof.
  intros Hw. split.
  - intros lines. unfold parse_hgsub. generalize (@nil (pystr * pystr)) as rv.
    induction lines as [|l t IH]; intros rv; [reflexivity|].
    cbn [map parse_hgsub_from].
    rewrite strip_space_app, split_once_prefix by
        (assumption || now apply space_not_equal).
    destruct (skipped (strip l)); [apply IH|].
    destruct (split_once ch_equal l) as [[name value]|]; [|reflexivity].
    rewrite strip_space_app by assumption. apply IH.
  - intros rest Hc. unfold parse_hgsubstate. cbn [parse_hgsubstate_from].
    change (ch_space :: rest) with ([ch_space] ++ rest).
    rewrite strip_space_app by reflexivity.
    unfold content_line in Hc. apply negb_true_iff in Hc. rewrite Hc.
    reflexivity.
Qed.

Lemma parsers_and_indentation_witness :
  forallb is_space (tlit "  ") = true /\
  parse_hgsub (map (app (tlit "  ")) hgsub_sample_lines)
  = parse_hgsub hgsub_sample_lines /\
  parse_hgsubstate [ch_space :: tlit "0123 lib"] = Ok [(tlit "0123 lib", [])].
Proof.
  split; [reflexivity|].
  destruct (parsers_and_indentation (tlit "  ") eq_refl) as [H1 H2].
  split; [apply H1 | apply (H2 (tlit "0123 lib")); reflexivity].
Defined.

(** ** The UTF-8 codec, from bytes to text and back *)

Lemma byte_of_to (b : byte) : byte_of (Byte.to_N b) = b.
Proof. unfold byte_of. now rewrite Byte.of_to_N. Qed.

Lemma is_cont_range (b : byte) :
  is_cont b = true -> 128 <= Byte.to_N b /\ Byte.to_N b < 192.
Proof.
  unfold is_cont. intros H. apply andb_true_iff in H. destruct H as [H1 H2].
  apply N.leb_le in H1. apply N.ltb_lt in H2. now split.
Qed.

Lemma low6_cont (b : byte) : is_cont b = true -> low6 b = Byte.to_N b - 128.
Proof.
  intros H. apply is_cont_range in H. unfold low6. symmetry.
  apply (N.mod_unique _ 64 2); lia.
Qed.

Lemma encode_2 (n0 n1 : N) :
  0xC2 <= n0 -> n0 < 0xE0 -> 128 <= n1 -> n1 < 192 ->
  utf8_encode_cp ((n0 - 192) * 64 + (n1 - 128)) = Some [byte_of n0; byte_of n1].
Proof.
  intros H1 H2 H3 H4. remember ((n0 - 192) * 64 + (n1 - 128)) as c eqn:Ec.
  assert (D : c / 64 = n0 - 192)
    by (symmetry; apply (N.div_unique c 64 _ (n1 - 128)); lia).
  assert (M : c mod 64 = n1 - 128)
    by (symmetry; apply (N.mod_unique c 64 (n0 - 192)); lia).
  unfold utf8_encode_cp. rewrite ltb_false, ltb_true by lia. rewrite D, M.
  replace (192 + (n0 - 192)) with n0 by lia.
  replace (128 + (n1 - 128)) with n1 by lia. reflexivity.
Qed.

Lemma encode_3 (n0 n1 n2 : N) :
  0xE0 <= n0 -> n0 < 0xF0 -> 128 <= n1 -> n1 < 192 ->
  (n0 = 0xE0 -> 0xA0 <= n1) -> (n0 = 0xED -> n1 < 0xA0) ->
  128 <= n2 -> n2 < 192 ->
  utf8_encode_cp ((n0 - 224) * 4096 + (n1 - 128) * 64 + (n2 - 128))
  = Some [byte_of n0; byte_of n1; byte_of n2].
Proof.
  intros H1 H2 H3 H4 H5 H6 H7 H8.
  remember ((n0 - 224) * 4096 + (n1 - 128) * 64 + (n2 - 128)) as c eqn:Ec.
  assert (D : c / 4096 = n0 - 224)
    by (symmetry; apply (N.div_unique c 4096 _ ((n1 - 128) * 64 + (n2 - 128))); lia).
  assert (D1 : c / 64 = (n0 - 224) * 64 + (n1 - 128))
    by (symmetry; apply (N.div_unique c 64 _ (n2 - 128)); lia).
  assert (M1 : (c / 64) mod 64 = n1 - 128)
    by (rewrite D1; symmetry; apply (N.mod_unique _ 64 (n0 - 224)); lia).
  assert (M : c mod 64 = n2 - 128)
    by (symmetry; apply (N.mod_unique c 64 ((n0 - 224) * 64 + (n1 - 128))); lia).
  assert (S : is_surrogate c = false).
  { unfold is_surrogate. apply andb_false_iff.
    destruct (N.eq_dec n0 0xED) as [E|E].
    - left. apply N.leb_gt. specialize (H6 E). lia.
    - destruct (N.lt_ge_cases n0 0xED); [left; apply N.leb_gt | right; apply N.leb_gt];
        lia. }
  assert (L : 0x800 <= c).
  { destruct (N.eq_dec n0 0xE0) as [E|E]; [specialize (H5 E)|]; lia. }
  unfold utf8_encode_cp. rewrite !ltb_false by lia. rewrite ltb_true by lia.
  rewrite S, D, M1, M.
  replace (224 + (n0 - 224)) with n0 by lia.
  replace (128 + (n1 - 128)) with n1 by lia.
  replace (128 + (n2 - 128)) with n2 by lia. reflexivity.
Qed.

Lemma encode_4 (n0 n1 n2 n3 : N) :
  0xF0 <= n0 -> n0 < 0xF5 -> 128 <= n1 -> n1 < 192 ->
  (n0 = 0xF0 -> 0x90 <= n1) -> (n0 = 0xF4 -> n1 < 0x90) ->
  128 <= n2 -> n2 < 192 -> 128 <= n3 -> n3 < 192 ->
  utf8_encode_cp ((n0 - 240) * 262144 + (n1 - 128) * 4096 + (n2 - 128) * 64
                  + (n3 - 128))
  = Some [byte_of n0; byte_of n1; byte_of n2; byte_of n3].
Proof.
  intros H1 H2 H3 H4 H5 H6 H7 H8 H9 H10.
  remember ((n0 - 240) * 262144 + (n1 - 128) * 4096 + (n2 - 128) * 64 + (n3 - 128))
    as c eqn:Ec.
  assert (D : c / 262144 = n0 - 240)
    by (symmetry;
        apply (N.div_unique c 262144 _
                 ((n1 - 128) * 4096 + (n2 - 128) * 64 + (n3 - 128))); lia).
  assert (D2 : c / 4096 = (n0 - 240) * 64 + (n1 - 128))
    by (symmetry; apply (N.div_unique c 4096 _ ((n2 - 128) * 64 + (n3 - 128))); lia).
  assert (M2 : (c / 4096) mod 64 = n1 - 128)
    by (rewrite D2; symmetry; apply (N.mod_unique _ 64 (n0 - 240)); lia).
  assert (D1 : c / 64 = (n0 - 240) * 4096 + (n1 - 128) * 64 + (n2 - 128))
    by (symmetry; apply (N.div_unique c 64 _ (n3 - 128)); lia).
  assert (M1 : (c / 64) mod 64 = n2 - 128)
    by (rewrite D1; symmetry;
        apply (N.mod_unique _ 64 ((n0 - 240) * 64 + (n1 - 128))); lia).
  assert (M : c mod 64 = n3 - 128)
    by (symmetry;
        apply (N.mod_unique c 64 ((n0 - 240) * 4096 + (n1 - 128) * 64 + (n2 - 128)));
        lia).
  assert (L : 0x10000 <= c).
  { destruct (N.eq_dec n0 0xF0) as [E|E]; [specialize (H5 E)|]; lia. }
  assert (U : c < 0x110000).
  { destruct (N.eq_dec n0 0xF4) as [E|E]; [specialize (H6 E)|]; lia. }
  unfold utf8_encode_cp. rewrite !ltb_false by lia. rewrite ltb_true by lia.
  rewrite D, M2, M1, M.
  replace (240 + (n0 - 240)) with n0 by lia.
  replace (128 + (n1 - 128)) with n1 by lia.
  replace (128 + (n2 - 128)) with n2 by lia.
  replace (128 + (n3 - 128)) with n3 by lia. reflexivity.
Qed.

Lemma second3_range (n0 : N) (b : byte) :
  second3 n0 b = true ->
  is_cont b = true /\ (n0 = 0xE0 -> 0xA0 <= Byte.to_N b)
  /\ (n0 = 0xED -> Byte.to_N b < 0xA0).
Proof.
  unfold second3. intros H. apply andb_true_iff in H. destruct H as [Hc H].
  split; [assumption|]. split; intros ->; cbn in H.
  - now apply N.leb_le.
  - now apply N.ltb_lt.
Qed.

Lemma second4_range (n0 : N) (b : byte) :
  second4 n0 b = true ->
  is_cont b = true /\ (n0 = 0xF0 -> 0x90 <= Byte.to_N b)
  /\ (n0 = 0xF4 -> Byte.to_N b < 0x90).
Proof.
  unfold second4. intros H. apply andb_true_iff in H. destruct H as [Hc H].
  split; [assumption|]. split; intros ->; cbn in H.
  - now apply N.leb_le.
  - now apply N.ltb_lt.
Qed.

Lemma option_map_cons_Some (c : codepoint) (o : option pystr) (s : pystr) :
  option_map (cons c) o = Some s -> exists s', o = Some s' /\ s = c :: s'.
Proof. destruct o as [s'|]; [|discriminate]. intros [= <-]. eauto. Qed.

(** The first step of the strict decoder: a well-formed sequence at the
    head of the bytes, which is the encoding of the code point it gives. *)
Lemma utf8_decode_step (b0 : byte) (t0 : pybytes) (s : pystr) :
  utf8_decode_with None (b0 :: t0) = Some s ->
  exists c bs rest s',
    b0 :: t0 = bs ++ rest /\ s = c :: s' /\
    utf8_decode_with None rest = Some s' /\
    utf8_encode_cp c = Some bs /\
    (length rest < length (b0 :: t0))%nat.
Proof.
  cbn [utf8_decode_with on_error].
  destruct (N.ltb_spec (Byte.to_N b0) 0x80) as [L1|L1].
  { intros H. apply option_map_cons_Some in H. destruct H as (s' & H & ->).
    exists (Byte.to_N b0), [b0], t0, s'. repeat split; auto.
    unfold utf8_encode_cp. rewrite ltb_true by assumption. now rewrite byte_of_to. }
  destruct (N.ltb_spec (Byte.to_N b0) 0xC2) as [L2|L2]; [discriminate|].
  destruct (N.ltb_spec (Byte.to_N b0) 0xE0) as [L3|L3].
  { destruct t0 as [|b1 t1]; [discriminate|].
    destruct (is_cont b1) eqn:C1; [|discriminate].
    intros H. apply option_map_cons_Some in H. destruct H as (s' & H & ->).
    exists (Byte.to_N b0 mod 32 * 64 + low6 b1), [b0; b1], t1, s'.
    repeat split; auto; [|cbn [length]; lia].
    rewrite (low6_cont _ C1). apply is_cont_range in C1.
    replace (Byte.to_N b0 mod 32) with (Byte.to_N b0 - 192)
      by (apply (N.mod_unique _ 32 6); lia).
    rewrite encode_2 by lia. now rewrite !byte_of_to. }
  destruct (N.ltb_spec (Byte.to_N b0) 0xF0) as [L4|L4].
  { destruct t0 as [|b1 t1]; [discriminate|].
    destruct (second3 (Byte.to_N b0) b1) eqn:C1; [|discriminate].
    destruct t1 as [|b2 t2]; [discriminate|].
    destruct (is_cont b2) eqn:C2; [|discriminate].
    intros H. apply option_map_cons_Some in H. destruct H as (s' & H & ->).
    exists (Byte.to_N b0 mod 16 * 4096 + low6 b1 * 64 + low6 b2), [b0; b1; b2], t2, s'.
    repeat split; auto; [|cbn [length]; lia].
    apply second3_range in C1. destruct C1 as (C1 & Ha & Hb).
    rewrite (low6_cont _ C1), (low6_cont _ C2).
    apply is_cont_range in C1, C2.
    replace (Byte.to_N b0 mod 16) with (Byte.to_N b0 - 224)
      by (apply (N.mod_unique _ 16 14); lia).
    rewrite encode_3 by (auto; lia). now rewrite !byte_of_to. }
  destruct (N.ltb_spec (Byte.to_N b0) 0xF5) as [L5|L5]; [|discriminate].
  destruct t0 as [|b1 t1]; [discriminate|].
  destruct (second4 (Byte.to_N b0) b1) eqn:C1; [|discriminate].
  destruct t1 as [|b2 t2]; [discriminate|].
  destruct (is_cont b2) eqn:C2; [|discriminate].
  destruct t2 as [|b3 t3]; [discriminate|].
  destruct (is_cont b3) eqn:C3; [|discriminate].
  intros H. apply option_map_cons_Some in H. destruct H as (s' & H & ->).
  exists (Byte.to_N b0 mod 8 * 262144 + low6 b1 * 4096 + low6 b2 * 64 + low6 b3),
    [b0; b1; b2; b3], t3, s'.
  repeat split; auto; [|cbn [length]; lia].
  apply second4_range in C1. destruct C1 as (C1 & Ha & Hb).
  rewrite (low6_cont _ C1), (low6_cont _ C2), (low6_cont _ C3).
  apply is_cont_range in C1, C2, C3.
  replace (Byte.to_N b0 mod 8) with (Byte.to_N b0 - 240)
    by (apply (N.mod_unique _ 8 30); lia).
  rewrite encode_4 by (auto; lia). now rewrite !byte_of_to.
Qed.

Lemma utf8_encode_decode (b : pybytes) (s : pystr) :
  utf8_decode b = Some s -> utf8_encode s = Some b.
Proof.
  unfold utf8_decode. remember (length b) as n eqn:En.
  revert b s En. induction n as [n IH] using lt_wf_ind. intros b s En.
  destruct b as [|b0 t0].
  - intros [= <-]. reflexivity.
  - intros H. apply utf8_decode_step in H.
    destruct H as (c & bs & rest & s' & E & -> & Hd & He & Hl).
    cbn [utf8_encode]. rewrite He, E.
    rewrite (IH (length rest) ltac:(lia) rest s' eq_refl Hd). reflexivity.
Qed.

Lemma utf8_encode_cp_encodable (c : codepoint) (b : pybytes) :
  utf8_encode_cp c = Some b -> is_codepoint c && negb (is_surrogate c) = true.
Proof.
  unfold utf8_encode_cp, is_codepoint.
  destruct (N.ltb_spec c 0x110000) as [H|H].
  - destruct (is_surrogate c) eqn:S; [|reflexivity].
    unfold is_surrogate in S. apply andb_true_iff in S. destruct S as [S1 S2].
    apply N.leb_le in S1. apply N.leb_le in S2.
    rewrite !ltb_false by lia. rewrite ltb_true by lia. discriminate.
  - rewrite !ltb_false by lia. discriminate.
Qed.

Lemma utf8_encode_encodable (s : pystr) (b : pybytes) :
  utf8_encode s = Some b -> encodable s = true.
Proof.
  revert b. induction s as [|c t IH]; intros b; [reflexivity|].
  cbn [utf8_encode encodable forallb].
  destruct (utf8_encode_cp c) as [bc|] eqn:Ec; [|discriminate].
  destruct (utf8_encode t) as [bt|] eqn:Et; [|discriminate].
  intros _. rewrite (utf8_encode_cp_encodable _ _ Ec).
  exact (IH _ eq_refl).
Qed.

(** X8: [to_bytes] undoes [to_str]: when [to_str] decodes a byte string
    [b], the result is a text without surrogates and [to_bytes] of it is
    [b] again (the strict decoder accepts no second encoding of a code
    point). *)
Theorem to_bytes_undoes_to_str `{R : PyRuntime} (b : pybytes) (v : pyval) :
  to_str (VBytes b) = Ok v ->
  (exists s, v = VStr s /\ encodable s = true) /\ to_bytes v = Ok (VBytes b).
Proof.
  cbn [to_str]. unfold bytes_decode.
  destruct (utf8_decode b) as [s|] eqn:E; [|discriminate].
  cbn [bind]. intros [= <-]. apply utf8_encode_decode in E. split.
  - exists s. split; [reflexivity|]. exact (utf8_encode_encodable _ _ E).
  - unfold to_bytes. cbn [is_type_bytes negb py_str]. unfold str_encode.
    now rewrite E.
Qed.

Lemma to_bytes_undoes_to_str_witness :
  to_str (VBytes (map byte_of [0x63; 0xC3; 0xA9; 0xE2; 0x82; 0xAC; 0xF0; 0x9F; 0x98; 0x80]))
  = Ok (VStr [0x63; 0xE9; 0x20AC; 0x1F600]) /\
  @to_bytes sample_runtime (VStr [0x63; 0xE9; 0x20AC; 0x1F600])
  = Ok (VBytes (map byte_of [0x63; 0xC3; 0xA9; 0xE2; 0x82; 0xAC; 0xF0; 0x9F; 0x98; 0x80])).
Proof.
  split; [reflexivity|].
  apply (@to_bytes_undoes_to_str sample_runtime
           (map byte_of [0x63; 0xC3; 0xA9; 0xE2; 0x82; 0xAC; 0xF0; 0x9F; 0x98; 0x80])).
  reflexivity.
Defined.

Lemma utf8_encode_None (s : pystr) : utf8_encode s = None <-> encodable s = false.
Proof.
  split; intros H.
  - destruct (encodable s) eqn:E; [|reflexivity].
    destruct (utf8_encode_total s E) as [b Hb]. congruence.
  - destruct (utf8_encode s) as [b|] eqn:E; [|reflexivity].
    apply utf8_encode_encodable in E. congruence.
Qed.

(** X9: the exceptions of the two scalar helpers.  [to_str] raises only
    on a byte string that is not well-formed UTF-8, and then
    UnicodeDecodeError; every other value is returned as it is.
    [to_bytes] raises only on a value that is not a byte string and whose
    [str] holds a surrogate or a number that is no code point, and then
    UnicodeEncodeError. *)
Theorem scalar_wrappers_exceptions `{R : PyRuntime} (v : pyval) (e : pyexc) :
  (to_str v = Raise e <->
   e = UnicodeDecodeError /\ exists b, v = VBytes b /\ utf8_decode b = None) /\
  (is_type_bytes v = false -> to_str v = Ok v) /\
  (to_bytes v = Raise e <->
   e = UnicodeEncodeError /\ is_type_bytes v = false /\ encodable (py_str v) = false).
Proof.
  split; [|split].
  - destruct v; cbn [to_str];
      try (split; [discriminate | intros (_ & b' & Hb & _); discriminate]).
    unfold bytes_decode. destruct (utf8_decode b) as [s|] eqn:E; cbn [bind].
    + split; [discriminate|]. intros (_ & b' & [= <-] & Hb). congruence.
    + split; [intros [= <-]; eauto | intros [-> _]; reflexivity].
  - destruct v; try reflexivity. discriminate.
  - unfold to_bytes. destruct (is_type_bytes v); cbn [negb].
    + split; [discriminate | intros (_ & H & _); discriminate].
    + unfold str_encode. rewrite <- utf8_encode_None.
      destruct (utf8_encode (py_str v)) as [b|]; cbn [bind].
      * split; [discriminate | intros (_ & _ & H); discriminate].
      * split; [intros [= <-]; auto | intros [-> _]; reflexivity].
Qed.

Lemma scalar_wrappers_exceptions_witness :
  is_type_bytes (VStr [0xD800]) = false /\
  to_str (VStr [0xD800]) = Ok (VStr [0xD800]) /\
  @to_bytes sample_runtime (VStr [0xD800]) = Raise UnicodeEncodeError /\
  to_str (VBytes (map byte_of [0xC0; 0x80])) = Raise UnicodeDecodeError.
Proof.
  split; [reflexivity|]. split.
  - apply (proj1 (proj2 (@scalar_wrappers_exceptions sample_runtime (VStr [0xD800])
                                                     UnicodeEncodeError))).
    reflexivity.
  - split; reflexivity.
Defined.

(** ** convert on every value *)

Lemma mapM_Forall2 {A B} (f : A -> result B) (l : list A) (l' : list B) :
  mapM f l = Ok l' -> Forall2 (fun x y => f x = Ok y) l l'.
Proof.
  revert l'. induction l as [|x t IH]; intros l'; cbn [mapM].
  - intros [= <-]. constructor.
  - destruct (f x) as [y|] eqn:Ex; cbn [bind]; [|discriminate].
    destruct (mapM f t) as [ys|]; cbn [bind]; [|discriminate].
    intros [= <-]. constructor; auto.
Qed.

Lemma dict_set_keys (q : pyval -> bool) (d : pydict) (k v : pyval) :
  forallb (fun kv => q (fst kv)) d = true -> q k = true ->
  forallb (fun kv => q (fst kv)) (dict_set d k v) = true.
Proof.
  intros Hd Hk. induction d as [|[k0 v0] t IH]; cbn [dict_set forallb fst] in *.
  - now rewrite Hk.
  - apply andb_true_iff in Hd. destruct Hd as [H0 Ht].
    destruct (py_eqb k0 k); cbn [forallb fst]; rewrite H0; cbn [andb]; auto.
Qed.

Lemma dict_set_values (q : pyval -> bool) (d : pydict) (k v : pyval) :
  forallb (fun kv => q (snd kv)) d = true -> q v = true ->
  forallb (fun kv => q (snd kv)) (dict_set d k v) = true.
Proof.
  intros Hd Hv. induction d as [|[k0 v0] t IH]; cbn [dict_set forallb snd] in *.
  - now rewrite Hv.
  - apply andb_true_iff in Hd. destruct Hd as [H0 Ht].
    destruct (py_eqb k0 k); cbn [forallb snd]; [now rewrite Hv | rewrite H0; auto].
Qed.

Lemma dict_set_pairwise (d : pydict) (k v : pyval) :
  pairwise key_differs d = true -> pairwise key_differs (dict_set d k v) = true.
Proof.
  induction d as [|[k0 v0] t IH]; cbn [dict_set pairwise]; [reflexivity|].
  intros H. apply andb_true_iff in H. destruct H as [H0 Ht].
  destruct (py_eqb k0 k) eqn:E; cbn [pairwise].
  - now rewrite Ht, andb_true_r.
  - rewrite (IH Ht), andb_true_r.
    apply (dict_set_keys (fun k' => negb (py_eqb k0 k'))); [exact H0|].
    now rewrite E.
Qed.

Lemma dict_update_inv (qk qv : pyval -> bool) (kvs d d' : pydict) :
  dict_update d kvs = Ok d' ->
  forallb (fun kv => qk (fst kv)) d = true -> forallb (fun kv => qv (snd kv)) d = true ->
  forallb (fun kv => qk (fst kv)) kvs = true ->
  forallb (fun kv => qv (snd kv)) kvs = true ->
  pairwise key_differs d = true ->
  forallb (fun kv => hashable (fst kv)) d = true ->
  forallb (fun kv => qk (fst kv)) d' = true /\
  forallb (fun kv => qv (snd kv)) d' = true /\
  pairwise key_differs d' = true /\
  forallb (fun kv => hashable (fst kv)) d' = true.
Proof.
  revert d. induction kvs as [|[k v] t IH]; intros d; cbn [dict_update forallb fst snd].
  - intros [= <-]. auto.
  - destruct (hashable k) eqn:Hh; [|discriminate].
    intros H Hk Hv Hkt Hvt Hp Hhd.
    apply andb_true_iff in Hkt, Hvt. destruct Hkt as [Hk0 Hkt], Hvt as [Hv0 Hvt].
    apply (IH _ H); auto using dict_set_keys, dict_set_values, dict_set_pairwise.
Qed.

Lemma dict_update_total (kvs d : pydict) :
  forallb (fun kv => hashable (fst kv)) kvs = true ->
  exists d', dict_update d kvs = Ok d'.
Proof.
  revert d. induction kvs as [|[k v] t IH]; intros d; cbn [dict_update forallb fst].
  - eauto.
  - intros H. apply andb_true_iff in H. destruct H as [Hk Ht]. rewrite Hk. now apply IH.
Qed.

Lemma converted_elems (l l' : list pyval) :
  Forall (fun x => forall x', convert x KStr KBytes = Ok x' -> converted x' = true) l ->
  mapM (fun x => convert x KStr KBytes) l = Ok l' ->
  forallb no_text l' = true /\ forallb wf_value l' = true.
Proof.
  intros IH H. apply mapM_Forall2 in H.
  induction H as [|x y t t' Hxy _ IHt]; [auto|].
  inversion IH as [|? ? Hx Ht]; subst. destruct (IHt Ht) as [H1 H2].
  specialize (Hx _ Hxy). unfold converted in Hx. apply andb_true_iff in Hx.
  destruct Hx as [Hn Hw]. cbn [forallb]. now rewrite Hn, Hw, H1, H2.
Qed.

Lemma converted_items (items kvs : list (pyval * pyval)) :
  Forall (fun kv =>
            (forall x', convert (fst kv) KStr KBytes = Ok x' -> converted x' = true) /\
            (forall x', convert (snd kv) KStr KBytes = Ok x' -> converted x' = true))
         items ->
  mapM convert_item items = Ok kvs ->
  forallb (fun kv => converted (fst kv)) kvs = true /\
  forallb (fun kv => converted (snd kv)) kvs = true.
Proof.
  intros IH H. apply mapM_Forall2 in H.
  induction H as [|[k x] [k' x'] t t' Hxy _ IHt]; [auto|].
  inversion IH as [|? ? [Hk Hx] Ht]; subst. destruct (IHt Ht) as [H1 H2].
  cbn [convert_item fst snd] in *.
  destruct (convert k KStr KBytes) as [k1|] eqn:Ek; cbn [bind] in Hxy; [|discriminate].
  destruct (convert x KStr KBytes) as [x1|] eqn:Ex; cbn [bind] in Hxy; [|discriminate].
  injection Hxy as <- <-. cbn [forallb fst snd].
  now rewrite (Hk _ eq_refl), (Hx _ eq_refl), H1, H2.
Qed.

Lemma convert_converted (v v' : pyval) :
  convert v KStr KBytes = Ok v' -> converted v' = true.
Proof.
  revert v'. induction v as [| | |s|b|l IH|l IH|items IH] using pyval_nested_ind;
    intros v'.
  - intros [= <-]. reflexivity.
  - intros [= <-]. reflexivity.
  - intros [= <-]. reflexivity.
  - cbn [convert isinstance construct]. destruct (str_encode s); cbn [bind];
      [|discriminate]. intros [= <-]. reflexivity.
  - intros [= <-]. reflexivity.
  - rewrite convert_tuple.
    destruct (mapM _ l) as [l'|] eqn:E; cbn [bind]; [|discriminate].
    intros [= <-]. destruct (converted_elems l l' IH E) as [H1 H2].
    unfold converted. cbn [no_text wf_value]. now rewrite H1, H2.
  - rewrite convert_list.
    destruct (mapM _ l) as [l'|] eqn:E; cbn [bind]; [|discriminate].
    intros [= <-]. destruct (converted_elems l l' IH E) as [H1 H2].
    unfold converted. cbn [no_text wf_value]. now rewrite H1, H2.
  - rewrite convert_dict.
    destruct (mapM convert_item items) as [kvs|] eqn:E; cbn [bind]; [|discriminate].
    destruct (dict_of_pairs kvs) as [d|] eqn:Ed; cbn [bind]; [|discriminate].
    intros [= <-]. destruct (converted_items items kvs IH E) as [H1 H2].
    unfold dict_of_pairs in Ed.
    destruct (dict_update_inv converted converted kvs [] d Ed)
      as (Hk & Hv & Hp & Hh); auto.
    unfold converted. cbn [no_text wf_value]. apply andb_true_iff. split.
    + apply forallb_forall. intros [k x] Hin.
      pose proof (proj1 (forallb_forall _ _) Hk _ Hin) as Hk1.
      pose proof (proj1 (forallb_forall _ _) Hv _ Hin) as Hv1.
      cbn [fst snd] in *. unfold converted in Hk1, Hv1.
      apply andb_true_iff in Hk1, Hv1. destruct Hk1 as [-> _], Hv1 as [-> _].
      reflexivity.
    + apply andb_true_iff. split; [|exact Hp].
      apply forallb_forall. intros [k x] Hin.
      pose proof (proj1 (forallb_forall _ _) Hk _ Hin) as Hk1.
      pose proof (proj1 (forallb_forall _ _) Hv _ Hin) as Hv1.
      pose proof (proj1 (forallb_forall _ _) Hh _ Hin) as Hh1.
      cbn [fst snd] in *. unfold converted in Hk1, Hv1.
      apply andb_true_iff in Hk1, Hv1. destruct Hk1 as [_ ->], Hv1 as [_ ->].
      now rewrite Hh1.
Qed.

Lemma convert_no_text_id (c : pyval) :
  no_text c = true -> wf_value c = true -> convert c KStr KBytes = Ok c.
Proof.
  induction c as [| | |s|b|l IH|l IH|items IH] using pyval_nested_ind;
    cbn [no_text wf_value]; try discriminate; try reflexivity.
  - intros Hb Hw. rewrite convert_tuple.
    assert (E : mapM (fun x => convert x KStr KBytes) l = Ok l).
    { induction IH as [|x t Hx _ IHt]; cbn [mapM forallb] in *; [reflexivity|].
      apply andb_true_iff in Hb, Hw. destruct Hb as [Hb1 Hb2], Hw as [Hw1 Hw2].
      now rewrite (Hx Hb1 Hw1), (IHt Hb2 Hw2). }
    now rewrite E.
  - intros Hb Hw. rewrite convert_list.
    assert (E : mapM (fun x => convert x KStr KBytes) l = Ok l).
    { induction IH as [|x t Hx _ IHt]; cbn [mapM forallb] in *; [reflexivity|].
      apply andb_true_iff in Hb, Hw. destruct Hb as [Hb1 Hb2], Hw as [Hw1 Hw2].
      now rewrite (Hx Hb1 Hw1), (IHt Hb2 Hw2). }
    now rewrite E.
  - intros Hb Hw. apply andb_true_iff in Hw. destruct Hw as [Hw Hp].
    rewrite convert_dict.
    assert (E : mapM convert_item items = Ok items).
    { clear Hp. induction IH as [|[k x] t [Hk Hx] _ IHt]; cbn [mapM forallb] in *;
        [reflexivity|].
      apply andb_true_iff in Hb, Hw. destruct Hb as [Hb1 Hb2], Hw as [Hw1 Hw2].
      apply andb_true_iff in Hb1, Hw1. destruct Hb1 as [Hbk Hbx], Hw1 as [Hw0 Hwx].
      apply andb_true_iff in Hw0. destruct Hw0 as [_ Hwk].
      cbn [convert_item fst snd] in *.
      now rewrite (Hk Hbk Hwk), (Hx Hbx Hwx), (IHt Hb2 Hw2). }
    rewrite E. cbn [bind]. rewrite dict_of_pairs_distinct; [reflexivity| |exact Hp].
    revert Hw. apply forallb_weaken. intros [k x] H. cbn [fst].
    apply andb_true_iff in H. destruct H as [H _].
    now apply andb_true_iff in H.
Qed.

(** X10: what [convert] with the defaults returns holds no text, in
    any tuple, list, dict key or dict value, and is a dict with hashable,
    pairwise different keys wherever it is a dict; converting it again
    returns it unchanged. *)
Theorem convert_result_is_fixed_point (v v' : pyval) :
  convert v KStr KBytes = Ok v' ->
  no_text v' = true /\ wf_value v' = true /\ convert v' KStr KBytes = Ok v'.
Proof.
  intros H. apply convert_converted in H. unfold converted in H.
  apply andb_true_iff in H. destruct H as [Hn Hw].
  split; [assumption|]. split; [assumption|]. now apply convert_no_text_id.
Qed.

Lemma convert_result_is_fixed_point_witness :
  exists v', convert convert_sample KStr KBytes = Ok v' /\
             no_text v' = true /\ wf_value v' = true /\
             convert v' KStr KBytes = Ok v'.
Proof.
  eexists. split; [reflexivity|].
  apply (convert_result_is_fixed_point convert_sample). reflexivity.
Defined.

Lemma convert_outcome_elems (l : list pyval) :
  Forall convert_outcome l -> forallb wf_value l = true ->
  match mapM (fun x => convert x KStr KBytes) l with
  | Ok l' => forallb encodable_tree l = true /\
             (forallb hashable l = true -> forallb hashable l' = true)
  | Raise e => e = UnicodeEncodeError /\ forallb encodable_tree l = false
  end.
Proof.
  induction 1 as [|x t Hx _ IH]; cbn [forallb mapM]; [auto|].
  intros Hw. apply andb_true_iff in Hw. destruct Hw as [Hw1 Hw2].
  specialize (Hx Hw1). specialize (IH Hw2).
  destruct (convert x KStr KBytes) as [x'|e]; cbn [bind].
  - destruct Hx as [Ex Hhx]. rewrite Ex. cbn [andb].
    destruct (mapM _ t) as [t'|e]; cbn [bind]; [|exact IH].
    destruct IH as [Et Hht]. split; [assumption|]. cbn [forallb].
    intros H. apply andb_true_iff in H. destruct H as [H1 H2].
    now rewrite Hhx, Hht.
  - destruct Hx as [-> Ex]. now rewrite Ex.
Qed.

Lemma convert_outcome_items (items : list (pyval * pyval)) :
  Forall (fun kv => convert_outcome (fst kv) /\ convert_outcome (snd kv)) items ->
  forallb (fun kv => let '(k, x) := kv in hashable k && wf_value k && wf_value x)
          items = true ->
  match mapM convert_item items with
  | Ok kvs =>
    forallb (fun kv => let '(k, x) := kv in encodable_tree k && encodable_tree x)
            items = true /\
    forallb (fun kv => hashable (fst kv)) kvs = true
  | Raise e =>
    e = UnicodeEncodeError /\
    forallb (fun kv => let '(k, x) := kv in encodable_tree k && encodable_tree x)
            items = false
  end.
Proof.
  induction 1 as [|[k x] t [Hk Hx] _ IH]; cbn [forallb mapM]; [auto|].
  intros Hw. apply andb_true_iff in Hw. destruct Hw as [Hw1 Hw2].
  apply andb_true_iff in Hw1. destruct Hw1 as [Hw0 Hwx].
  apply andb_true_iff in Hw0. destruct Hw0 as [Hh Hwk].
  cbn [fst snd] in Hk, Hx. specialize (Hk Hwk). specialize (Hx Hwx).
  specialize (IH Hw2). cbn [convert_item].
  destruct (convert k KStr KBytes) as [k'|e]; cbn [bind].
  - destruct Hk as [Ek Hhk]. rewrite Ek. cbn [andb].
    destruct (convert x KStr KBytes) as [x'|e]; cbn [bind].
    + destruct Hx as [Ex _]. rewrite Ex. cbn [andb].
      destruct (mapM convert_item t) as [t'|e]; cbn [bind]; [|exact IH].
      destruct IH as [Et Hht]. split; [assumption|]. cbn [forallb fst].
      now rewrite (Hhk Hh), Hht.
    + destruct Hx as [-> Ex]. now rewrite Ex.
  - destruct Hk as [-> Ek]. now rewrite Ek.
Qed.

Lemma convert_outcome_all (v : pyval) : convert_outcome v.
Proof.
  induction v as [| | |s|b|l IH|l IH|items IH] using pyval_nested_ind;
    unfold convert_outcome; try (intros _; cbn; now auto).
  - intros _. cbn [convert isinstance construct encodable_tree hashable].
    unfold str_encode. destruct (utf8_encode s) as [b|] eqn:E; cbn [bind].
    + split; [exact (utf8_encode_encodable _ _ E) | reflexivity].
    + split; [reflexivity | now apply utf8_encode_None].
  - cbn [wf_value encodable_tree hashable]. intros Hw. rewrite convert_tuple.
    pose proof (convert_outcome_elems l IH Hw) as H.
    destruct (mapM _ l) as [l'|e]; cbn [bind]; exact H.
  - cbn [wf_value encodable_tree hashable]. intros Hw. rewrite convert_list.
    pose proof (convert_outcome_elems l IH Hw) as H.
    destruct (mapM _ l) as [l'|e]; cbn [bind]; [|exact H].
    destruct H as [H _]. split; [exact H | discriminate].
  - cbn [wf_value encodable_tree hashable]. intros Hw.
    apply andb_true_iff in Hw. destruct Hw as [Hw _]. rewrite convert_dict.
    pose proof (convert_outcome_items items IH Hw) as H.
    destruct (mapM convert_item items) as [kvs|e]; cbn [bind]; [|exact H].
    destruct H as [H Hh]. unfold dict_of_pairs.
    destruct (dict_update_total kvs [] Hh) as [d ->]. cbn [bind].
    split; [exact H | discriminate].
Qed.

(** X11: on a value whose dicts have hashable, pairwise different keys
    (every Python value has), [convert] with the defaults returns exactly
    when every text in the value can be encoded in UTF-8, and otherwise
    raises UnicodeEncodeError and nothing else. *)
Theorem convert_returns_iff_encodable (v : pyval) :
  wf_value v = true ->
  ((exists v', convert v KStr KBytes = Ok v') <-> encodable_tree v = true) /\
  (forall e, convert v KStr KBytes = Raise e -> e = UnicodeEncodeError).
Proof.
  intros Hw. pose proof (convert_outcome_all v Hw) as H.
  destruct (convert v KStr KBytes) as [v'|e].
  - destruct H as [H _]. split; [split; eauto | discriminate].
  - destruct H as [-> H]. split.
    + split; [intros [v' Hv]; discriminate | congruence].
    + now intros e [= <-].
Qed.

Lemma convert_returns_iff_encodable_witness :
  wf_value convert_sample = true /\
  encodable_tree convert_sample = true /\
  exists v', convert convert_sample KStr KBytes = Ok v'.
Proof.
  split; [reflexivity|]. split; [reflexivity|].
  apply (proj1 (convert_returns_iff_encodable convert_sample eq_refl)).
  reflexivity.
Defined.

(** ** get_value *)

Lemma dict_get_hashable (d : pydict) (k : pyval) :
  hashable k = true ->
  dict_get d k VNone
  = Ok (match dict_lookup d k with Some v => v | None => VNone end).
Proof. intros H. unfold dict_get. rewrite H. now destruct (dict_lookup d k). Qed.

Lemma get_value_miss `{R : PyRuntime} (key v : pyval) :
  (msg <- format_percent_s key ;;
   @Raise pyval (PyException "%s is not in the dict" msg)) <> Ok v.
Proof. destruct (format_percent_s key); discriminate. Qed.

Lemma get_value_found `{R : PyRuntime} (d : pydict) (key k v : pyval) :
  (if truthy (match dict_lookup d k with Some x => x | None => VNone end)
   then Ok (match dict_lookup d k with Some x => x | None => VNone end)
   else msg <- format_percent_s key ;;
        Raise (PyException "%s is not in the dict" msg)) = Ok v <->
  truthy v = true /\ dict_lookup d k = Some v.
Proof.
  destruct (dict_lookup d k) as [x|].
  - destruct (truthy x) eqn:T.
    + split; [intros [= <-]; auto | intros [_ [= <-]]; reflexivity].
    + split; [intros H; now apply get_value_miss in H|].
      intros [Tv [= <-]]. congruence.
  - cbn [truthy]. split; [intros H; now apply get_value_miss in H|].
    intros [_ H]. discriminate.
Qed.

(** X12: [get_value] returns [v] exactly when [v] is the value stored
    under the key, for a text key under its UTF-8 encoding and under
    nothing else, and [v] is true in a test: an entry under the text key
    itself is never returned, and neither is a stored [None], [0],
    [False] or empty container. *)
Theorem get_value_returns_iff `{R : PyRuntime} (d : pydict) (key v : pyval) :
  get_value d key = Ok v <->
  hashable key = true /\ truthy v = true /\
  match key with
  | VStr s => exists b, utf8_encode s = Some b /\ dict_lookup d (VBytes b) = Some v
  | _ => dict_lookup d key = Some v
  end.
Proof.
  unfold get_value. cbn [truthy negb andb].
  destruct (hashable key) eqn:Hh.
  2:{ unfold dict_get. rewrite Hh. cbn [bind].
      split; [discriminate | intros [H _]; discriminate]. }
  rewrite dict_get_hashable by assumption. cbn [bind].
  destruct key as [| | |s| | | |]; cbn [is_type_str bind];
    try (rewrite get_value_found; intuition).
  unfold str_encode. destruct (utf8_encode s) as [b|]; cbn [bind].
  - rewrite (dict_get_hashable d (VBytes b) eq_refl). cbn [bind].
    rewrite get_value_found. split.
    + intros [T L]. repeat split; eauto.
    + intros (_ & T & b' & [= <-] & L). auto.
  - split; [discriminate | intros (_ & _ & b' & H & _); discriminate].
Qed.

(** X13: the exceptions of [get_value], cause by cause.  It raises
    TypeError exactly on an unhashable key (the lookup) and on a key that
    is a tuple of a length other than one under which nothing true is
    stored (building the message with [%]); UnicodeEncodeError exactly
    on a text key that cannot be encoded; and the "is not in the dict"
    exception, with [str] of the key (of its element, for a tuple of
    length one), exactly on any other key under which nothing true is
    stored, a text key being looked up under its UTF-8 encoding. *)
Theorem get_value_exceptions `{R : PyRuntime} (d : pydict) (key : pyval) (e : pyexc) :
  get_value d key = Raise e <->
  (hashable key = false /\ e = TypeError) \/
  (exists s, key = VStr s /\ encodable s = false /\ e = UnicodeEncodeError) \/
  (hashable key = true /\
   match key with
   | VStr s => exists b, utf8_encode s = Some b /\ stored_true d (VBytes b) = false
   | _ => stored_true d key = false
   end /\
   e = match key with
       | VTuple [x] => PyException "%s is not in the dict" (py_str x)
       | VTuple _ => TypeError
       | _ => PyException "%s is not in the dict" (py_str key)
       end).
Proof.
  unfold get_value. cbn [truthy negb andb].
  destruct (hashable key) eqn:Hh.
  2:{ unfold dict_get. rewrite Hh. cbn [bind]. split.
      - intros [= <-]. now left.
      - intros [[_ ->]|[(s & -> & _)|(H & _)]]; [reflexivity | discriminate Hh
                                                  | discriminate H]. }
  rewrite dict_get_hashable by assumption. cbn [bind].
  assert (Hmiss : forall k,
            (if truthy (match dict_lookup d k with Some x => x | None => VNone end)
             then Ok (match dict_lookup d k with Some x => x | None => VNone end)
             else msg <- format_percent_s key ;;
                  Raise (PyException "%s is not in the dict" msg)) = Raise e <->
            stored_true d k = false /\
            e = match key with
                | VTuple [x] => PyException "%s is not in the dict" (py_str x)
                | VTuple _ => TypeError
                | _ => PyException "%s is not in the dict" (py_str key)
                end).
  { intros k. unfold stored_true.
    assert (T : truthy (match dict_lookup d k with Some x => x | None => VNone end)
                = match dict_lookup d k with Some v => truthy v | None => false end)
      by now destruct (dict_lookup d k).
    rewrite T. destruct (match dict_lookup d k with
                         | Some v => truthy v
                         | None => false
                         end).
    - split; [discriminate | intros [H _]; discriminate].
    - assert (F : (msg <- format_percent_s key ;;
                   @Raise pyval (PyException "%s is not in the dict" msg))
                  = Raise (match key with
                           | VTuple [x] => PyException "%s is not in the dict" (py_str x)
                           | VTuple _ => TypeError
                           | _ => PyException "%s is not in the dict" (py_str key)
                           end)).
      { destruct key as [| | | | |l| |]; try reflexivity.
        destruct l as [|x [|y t]]; reflexivity. }
      rewrite F. split; [intros [= <-]; auto | intros [_ ->]; reflexivity]. }
  destruct key as [| | |s| |l| |]; cbn [is_type_str bind];
    try (rewrite Hmiss; split;
         [ intros [H1 H2]; right; right; auto
         | intros [[H _]|[(s' & H & _)|(_ & H1 & H2)]];
           [discriminate H | discriminate H | auto] ]).
  unfold str_encode. destruct (utf8_encode s) as [b|] eqn:E; cbn [bind].
  - rewrite (dict_get_hashable d (VBytes b) eq_refl). cbn [bind].
    rewrite Hmiss. split.
    + intros [H1 H2]. right. right. split; [reflexivity|]. split; [eauto | exact H2].
    + intros [[H _]|[(s' & [= <-] & H & _)|(_ & (b' & Hb & H1) & H2)]].
      * discriminate H.
      * apply utf8_encode_None in H. congruence.
      * injection Hb as <-. auto.
  - split.
    + intros [= <-]. right. left. exists s. apply utf8_encode_None in E. auto.
    + intros [[H _]|[(s' & [= <-] & _ & ->)|(_ & (b' & Hb & _) & _)]].
      * discriminate H.
      * reflexivity.
      * congruence.
Qed.

Lemma get_value_exceptions_witness :
  @get_value sample_runtime [(VBytes (blit "a"), VInt 1)] (VTuple [VInt 1; VInt 2])
  = Raise TypeError /\
  @get_value sample_runtime [(VBytes (blit "a"), VInt 1)] (VList [VInt 1])
  = Raise TypeError /\
  @get_value sample_runtime [(VBytes (blit "a"), VInt 1)] (VStr [0xD800])
  = Raise UnicodeEncodeError /\
  @get_value sample_runtime [(VBytes (blit "a"), VInt 0)] (VStr (tlit "a"))
  = Raise (PyException "%s is not in the dict" (tlit "a")).
Proof.
  split; [|split; [|split]].
  - apply (proj2 (@get_value_exceptions sample_runtime [(VBytes (blit "a"), VInt 1)]
                    (VTuple [VInt 1; VInt 2]) TypeError)).
    right. right. repeat split.
  - apply (proj2 (@get_value_exceptions sample_runtime [(VBytes (blit "a"), VInt 1)]
                    (VList [VInt 1]) TypeError)).
    left. split; reflexivity.
  - apply (proj2 (@get_value_exceptions sample_runtime [(VBytes (blit "a"), VInt 1)]
                    (VStr [0xD800]) UnicodeEncodeError)).
    right. left. exists [0xD800]. repeat split.
  - apply (proj2 (@get_value_exceptions sample_runtime [(VBytes (blit "a"), VInt 0)]
                    (VStr (tlit "a"))
                    (PyException "%s is not in the dict" (tlit "a")))).
    right. right. split; [reflexivity|]. split; [|reflexivity].
    exists (blit "a"). split; reflexivity.
Defined.

(** ** isgitsshuri and checksafessh together *)

Lemma startswith_app_sep (q a y : pystr) (c : codepoint) :
  existsb (N.eqb c) q = false ->
  startswith (a ++ c :: y) q = true -> startswith a q = true.
Proof.
  revert a. induction q as [|x q IH]; intros a Hq; [intros _; apply startswith_nil|].
  cbn [existsb] in Hq. apply orb_false_iff in Hq. destruct Hq as [Hx Hq].
  destruct a as [|d a]; cbn [app startswith].
  - rewrite N.eqb_sym, Hx. discriminate.
  - intros H. apply andb_true_iff in H. destruct H as [H1 H2].
    rewrite H1. cbn [andb]. now apply IH.
Qed.

Lemma fqdn_spec_shape (h : pystr) : fqdn_spec h -> fqdn_shape h = true.
Proof.
  intros ([L1 L2] & labels & tld & Hne & Fl & Ft & E). unfold fqdn_shape.
  apply Nat.leb_le in L1. apply Nat.leb_le in L2. rewrite L1, L2. cbn [andb].
  unfold tld_ok in Ft. apply andb_true_iff in Ft. destruct Ft as [Ft Ftl].
  apply andb_true_iff in Ft. destruct Ft as [Ft2 _]. apply Nat.leb_le in Ft2.
  destruct labels as [|lab labels]; [congruence|].
  cbn [forallb] in Fl. apply andb_true_iff in Fl. destruct Fl as [Hok Fl].
  assert (A : forallb (fun c => label_char c || (c =? ch_dot)) h = true).
  { rewrite E, forallb_app. apply andb_true_iff. split.
    - assert (G : forall ls, forallb label_ok ls = true ->
                  forallb (fun c => label_char c || (c =? ch_dot)) (dotted ls) = true).
      { induction ls as [|l ls IH]; cbn [forallb]; [reflexivity|].
        intros H. apply andb_true_iff in H. destruct H as [Hl Hls].
        unfold dotted. cbn [map concat]. rewrite !forallb_app.
        fold (dotted ls). rewrite (IH Hls), andb_true_r.
        apply andb_true_iff. split; [|reflexivity].
        unfold label_ok in Hl.
        repeat (apply andb_true_iff in Hl; destruct Hl as [Hl ?]).
        eapply forallb_impl; [|eassumption].
        intros x Hx. cbv beta. now rewrite Hx. }
      apply (G (lab :: labels)). cbn [forallb]. now rewrite Hok, Fl.
    - eapply forallb_impl; [|exact Ftl]. intros x Hx. cbv beta.
      unfold label_char. now rewrite Hx. }
  rewrite A. cbn [andb].
  assert (B : contains ch_dot h = true).
  { rewrite E. unfold contains, dotted. cbn [map concat].
    rewrite !existsb_app. cbn [existsb]. rewrite N.eqb_refl.
    now rewrite orb_true_r. }
  rewrite B. cbn [andb].
  assert (C : match h with
              | c :: _ => ascii_letter c || ascii_digit c
              | [] => false
              end = true).
  { rewrite E. unfold label_ok in Hok.
    repeat (apply andb_true_iff in Hok; destruct Hok as [Hok ?]).
    destruct lab as [|c lab]; [discriminate|].
    unfold dotted. cbn [map concat app].
    cbn [forallb] in H1. apply andb_true_iff in H1. destruct H1 as [Hc _].
    apply negb_true_iff in H0. cbn [startswith] in H0.
    rewrite startswith_nil, andb_true_r in H0.
    unfold label_char in Hc. rewrite (N.eqb_sym c ch_hyphen), H0, orb_false_r in Hc.
    exact Hc. }
  rewrite C. cbn [andb].
  rewrite E, rev_app_distr.
  destruct (rev tld) as [|c [|d r]] eqn:Er.
  - apply (f_equal (@length _)) in Er. rewrite length_rev in Er. cbn in Er. lia.
  - apply (f_equal (@length _)) in Er. rewrite length_rev in Er. cbn in Er. lia.
  - cbn [app].
    assert (Hc : In c tld) by (apply in_rev; rewrite Er; now left).
    assert (Hd : In d tld) by (apply in_rev; rewrite Er; right; now left).
    rewrite (proj1 (forallb_forall _ _) Ftl _ Hc).
    now rewrite (proj1 (forallb_forall _ _) Ftl _ Hd).
Qed.

Lemma fqdn_shape_safe (h : pystr) : fqdn_shape h = true -> checksafessh h = Ok VNone.
Proof.
  unfold fqdn_shape. intros H.
  repeat (apply andb_true_iff in H; destruct H as [H ?]).
  unfold checksafessh. rewrite unquote_hyphen_iff. unfold hyphen_first.
  destruct tlit_2d as (_ & _ & T3 & T4 & T5). rewrite T3, T4, T5.
  destruct h as [|c t]; [discriminate|]. rewrite !startswith_cons.
  destruct (N.eqb_spec 45 c) as [<-|_]; [discriminate|].
  destruct (N.eqb_spec 37 c) as [<-|_]; [discriminate|]. reflexivity.
Qed.

Section ClassifierMore.
Context `{U : UnicodeDB}.

Lemma host_token_last (h : pystr) :
  host_token h ->
  exists a c, h = a ++ [c] /\ (host_char c = true \/ c = ch_rbracket).
Proof.
  intros (ob & run & cb & _ & Hcb & Hne & F & ->).
  destruct Hcb as [-> | ->].
  - destruct (exists_last Hne) as (r & c & ->). exists (ob ++ r), c.
    rewrite app_nil_r, app_assoc. split; [reflexivity|]. left.
    rewrite forallb_app in F. apply andb_true_iff in F. destruct F as [_ F].
    cbn [forallb] in F. now apply andb_true_iff in F.
  - exists (ob ++ run), ch_rbracket. rewrite app_assoc. auto.
Qed.

(** X14: a location that [isgitsshuri] accepts begins with none of the
    scheme prefixes and holds a colon that follows a host character or
    a [']']: a location without a colon, or whose only colons come first
    or follow other characters, is not a git ssh uri. *)
Theorem isgitsshuri_needs_host_and_colon (uri : pystr) :
  isgitsshuri uri = true ->
  has_scheme_prefix uri = false /\
  exists a c b, uri = a ++ c :: ch_colon :: b /\
                (host_char c = true \/ c = ch_rbracket).
Proof.
  rewrite isgitsshuri_unfold.
  destruct (has_scheme_prefix uri); [discriminate|].
  destruct (re_match uri_re uri) as [m|] eqn:E; [|discriminate].
  intros _. split; [reflexivity|].
  destruct (uri_match_sound uri m E) as (u & [P _] & _).
  destruct P as (rest & Eu & _ & Hh & _).
  destruct (host_token_last _ Hh) as (a & c & Eh & Hc).
  exists (u ++ a), c, (group m 2 ++ rest). split; [|exact Hc].
  rewrite Eu, Eh, <- !app_assoc. reflexivity.
Qed.

(** X15: for a one-line location that ends with [.git] and begins with
    none of the scheme prefixes, [isgitsshuri] is the match of the
    pattern alone: every such location that can be cut into a user part,
    a host token, a colon and a path is accepted, at whichever colon the
    pattern cuts it. *)
Theorem git_suffix_decides (uri : pystr) :
  has_scheme_prefix uri = false ->
  forallb any_char uri = true ->
  endswith uri (tlit ".git") = true ->
  isgitsshuri uri = is_match (re_match uri_re uri) /\
  (forall u h p, parses uri u h p -> isgitsshuri uri = true).
Proof.
  intros Hs Fa He.
  assert (A : isgitsshuri uri = is_match (re_match uri_re uri)).
  { rewrite isgitsshuri_unfold, Hs.
    destruct (re_match uri_re uri) as [m|] eqn:E; [|reflexivity]. cbn [is_match].
    destruct (uri_match_sound uri m E) as (u & [P _] & _).
    destruct P as (rest & Eu & _ & _ & [_ Hr]).
    assert (rest = []) as ->.
    { destruct Hr as [->|(r & ->)]; [reflexivity|]. exfalso.
      rewrite Eu in Fa. rewrite !forallb_app in Fa. cbn [forallb] in Fa.
      rewrite forallb_app in Fa. cbn [forallb] in Fa.
      repeat (apply andb_true_iff in Fa; destruct Fa as [? Fa]). discriminate. }
    rewrite app_nil_r in Eu.
    assert (G : endswith (group m 2) (tlit ".git") = true).
    { unfold endswith in *. rewrite Eu, app_assoc, rev_app_distr in He.
      cbn [rev] in He. rewrite <- app_assoc in He. cbn [app] in He.
      eapply startswith_app_sep; [|exact He]. reflexivity. }
    now rewrite G. }
  split; [exact A|]. intros u h p P. rewrite A. eapply uri_match_complete; eauto.
Qed.

(** X16: when the path does not end with [.git], [isgitsshuri] accepts
    only a host of 4 to 253 ASCII letters, digits, hyphens and dots that
    holds a dot, begins with a letter or a digit and ends with two
    letters: a host without a dot, an IPv4 address, and a host with a
    colon, an underscore, a bracket or a character above ASCII are
    rejected.  Such a host passes [checksafessh]. *)
Theorem isgitsshuri_without_git_suffix (uri : pystr) (m : mstate) :
  re_match uri_re uri = Some m ->
  endswith (group m 2) (tlit ".git") = false ->
  isgitsshuri uri = true ->
  fqdn_shape (group m 1) = true /\ checksafessh (group m 1) = Ok VNone.
Proof.
  intros E Hg. rewrite isgitsshuri_unfold.
  destruct (has_scheme_prefix uri); [discriminate|]. rewrite E, Hg. cbn [orb].
  intros H. destruct (uri_match_sound uri m E) as (u & [P _] & _).
  destruct P as (rest & _ & _ & Hh & _).
  apply fqdn_re_iff in H; [|now apply host_token_any].
  apply fqdn_spec_shape in H. split; [exact H | now apply fqdn_shape_safe].
Qed.

End ClassifierMore.

Lemma isgitsshuri_needs_host_and_colon_witness :
  @isgitsshuri ascii_db (tlit "git@[2001:db8::1]:repository.git") = true /\
  exists a c b, tlit "git@[2001:db8::1]:repository.git" = a ++ c :: ch_colon :: b /\
                (@host_char ascii_db c = true \/ c = ch_rbracket).
Proof.
  split; [vm_compute; reflexivity|].
  apply (@isgitsshuri_needs_host_and_colon ascii_db). vm_compute. reflexivity.
Defined.

Lemma git_suffix_decides_witness :
  has_scheme_prefix (tlit "me@host:a:b/c.git") = false /\
  forallb any_char (tlit "me@host:a:b/c.git") = true /\
  endswith (tlit "me@host:a:b/c.git") (tlit ".git") = true /\
  @isgitsshuri ascii_db (tlit "me@host:a:b/c.git")
  = is_match (@re_match (@uri_re ascii_db) (tlit "me@host:a:b/c.git")).
Proof.
  split; [reflexivity|]. split; [reflexivity|]. split; [reflexivity|].
  apply (proj1 (@git_suffix_decides ascii_db (tlit "me@host:a:b/c.git")
                  eq_refl eq_refl eq_refl)).
Defined.

Lemma isgitsshuri_without_git_suffix_witness :
  exists m, @re_match (@uri_re ascii_db) (tlit "git@git-hub.example.com:user/repo")
            = Some m /\
            endswith (group m 2) (tlit ".git") = false /\
            @isgitsshuri ascii_db (tlit "git@git-hub.example.com:user/repo") = true /\
            fqdn_shape (group m 1) = true /\ checksafessh (group m 1) = Ok VNone.
Proof.
  eexists. split; [vm_compute; reflexivity|]. split; [reflexivity|].
  split; [vm_compute; reflexivity|].
  apply (@isgitsshuri_without_git_suffix ascii_db
           (tlit "git@git-hub.example.com:user/repo")).
  - vm_compute. reflexivity.
  - reflexivity.
  - vm_compute. reflexivity.
Defined.

(** ** Only the first line of a location is classified *)

Lemma startswith_before_lf (p uri junk : pystr) :
  forallb any_char p = true ->
  startswith (uri ++ ch_lf :: junk) p = startswith uri p.
Proof.
  revert p. induction uri as [|d t IH]; intros [|c p]; cbn [app startswith forallb];
    try reflexivity.
  - intros H. apply andb_true_iff in H. destruct H as [Hc _].
    unfold any_char in Hc. apply negb_true_iff in Hc. now rewrite Hc.
  - intros H. apply andb_true_iff in H. destruct H as [_ Hp]. now rewrite IH.
Qed.

Lemma has_scheme_prefix_before_lf (uri junk : pystr) :
  has_scheme_prefix (uri ++ ch_lf :: junk) = has_scheme_prefix uri.
Proof.
  unfold has_scheme_prefix, gitschemes. cbn [existsb].
  now rewrite !startswith_before_lf by reflexivity.
Qed.

Lemma lf_free_prefix_unique (a a' b b' : pystr) :
  forallb any_char a = true -> forallb any_char a' = true ->
  a ++ ch_lf :: b = a' ++ ch_lf :: b' -> a = a' /\ b = b'.
Proof.
  revert a'. induction a as [|c a IH]; intros [|c' a']; cbn [app forallb].
  - intros _ _ [= ->]. auto.
  - intros _ H [= <- _]. discriminate.
  - intros H _ [= -> _]. discriminate.
  - intros H H' [= <- E]. apply andb_true_iff in H, H'.
    destruct H as [_ H], H' as [_ H']. destruct (IH a' H H' E) as [-> ->]. auto.
Qed.

Lemma user_part_any (u : pystr) : user_part u -> forallb any_char u = true.
Proof.
  intros [->|(w & _ & F & ->)]; [reflexivity|].
  rewrite forallb_app, F. reflexivity.
Qed.

Section FirstLine.
Context `{U : UnicodeDB}.

Lemma parses_before_lf (uri junk u h p : pystr) :
  forallb any_char uri = true ->
  (parses (uri ++ ch_lf :: junk) u h p <-> parses uri u h p).
Proof.
  intros Fu. split.
  - intros (rest & E & Hu & Hh & [Fp Hr]).
    assert (Fx : forallb any_char (u ++ h ++ ch_colon :: p) = true).
    { rewrite !forallb_app. cbn [forallb].
      now rewrite (user_part_any u Hu), (host_token_any h Hh), Fp. }
    replace (u ++ h ++ ch_colon :: p ++ rest)
      with ((u ++ h ++ ch_colon :: p) ++ rest) in E
      by (rewrite <- !app_assoc; reflexivity).
    destruct Hr as [->|(r & ->)].
    + exfalso. rewrite app_nil_r in E. rewrite <- E in Fx.
      rewrite forallb_app in Fx. cbn [forallb] in Fx.
      apply andb_true_iff in Fx. destruct Fx as [_ Fx]. discriminate.
    + destruct (lf_free_prefix_unique _ _ _ _ Fu Fx E) as [-> _].
      exists []. split; [|repeat split; auto].
      now rewrite app_nil_r.
  - intros (rest & E & Hu & Hh & [Fp Hr]).
    assert (rest = []) as ->.
    { destruct Hr as [->|(r & ->)]; [reflexivity|]. exfalso.
      rewrite E in Fu. rewrite !forallb_app in Fu. cbn [forallb] in Fu.
      rewrite forallb_app in Fu. cbn [forallb] in Fu.
      repeat (apply andb_true_iff in Fu; destruct Fu as [? Fu]). discriminate. }
    exists (ch_lf :: junk). split; [|repeat split; eauto].
    rewrite E, app_nil_r, <- !app_assoc. reflexivity.
Qed.

Lemma preferred_before_lf (uri junk u h p : pystr) :
  forallb any_char uri = true ->
  preferred uri u h p -> preferred (uri ++ ch_lf :: junk) u h p.
Proof.
  intros Fu [P M]. split; [now apply parses_before_lf|].
  intros u' h' p' P'. apply (M u' h' p'). eapply parses_before_lf; eauto.
Qed.

(** X24: [isgitsshuri] classifies the first line of a location only:
    what follows the first line feed has no effect on the answer. *)
Theorem isgitsshuri_first_line_only (uri junk : pystr) :
  forallb any_char uri = true ->
  isgitsshuri (uri ++ ch_lf :: junk) = isgitsshuri uri.
Proof.
  intros Fu. rewrite !isgitsshuri_unfold, has_scheme_prefix_before_lf.
  destruct (has_scheme_prefix uri); [reflexivity|].
  destruct (re_match uri_re uri) as [m|] eqn:E,
           (re_match uri_re (uri ++ ch_lf :: junk)) as [m'|] eqn:E'.
  - destruct (uri_match_sound _ _ E) as (u & P & _).
    destruct (uri_match_sound _ _ E') as (u' & P' & _).
    apply (preferred_before_lf uri junk) in P; [|exact Fu].
    destruct (preferred_unique _ _ _ _ _ _ _ P P') as (_ & -> & ->). reflexivity.
  - exfalso. destruct (uri_match_sound _ _ E) as (u & [P _] & _).
    apply (parses_before_lf uri junk) in P; [|exact Fu].
    apply uri_match_complete in P. rewrite E' in P. discriminate.
  - exfalso. destruct (uri_match_sound _ _ E') as (u & [P _] & _).
    apply (parses_before_lf uri junk) in P; [|exact Fu].
    apply uri_match_complete in P. rewrite E in P. discriminate.
  - reflexivity.
Qed.

End FirstLine.

Lemma isgitsshuri_first_line_only_witness :
  forallb any_char (tlit "host:repo.git") = true /\
  @isgitsshuri ascii_db (tlit "host:repo.git" ++ ch_lf :: tlit "http://x/y")
  = @isgitsshuri ascii_db (tlit "host:repo.git").
Proof.
  split; [reflexivity|].
  apply (@isgitsshuri_first_line_only ascii_db (tlit "host:repo.git")).
  reflexivity.
Defined.

(** The tests in the docstring of [isgitsshuri]. *)
Example isgitsshuri_doctests :
  @isgitsshuri ascii_db (tlit "http://fqdn.com/hg") = false /\
  @isgitsshuri ascii_db (tlit "http://fqdn.com/test.git") = false /\
  @isgitsshuri ascii_db (tlit "git@github.com:user/repo.git") = true /\
  @isgitsshuri ascii_db (tlit "github-123.com:user/repo.git") = true /\
  @isgitsshuri ascii_db (tlit "git@127.0.0.1:repo.git") = true /\
  @isgitsshuri ascii_db (tlit "git@[2001:db8::1]:repository.git") = true.
Proof. repeat split; vm_compute; reflexivity. Qed.

(** ** lstrip *)

Lemma bytes_lstrip_split (chars b : pybytes) :
  exists removed,
    b = removed ++ bytes_lstrip chars b /\
    forallb (fun c => existsb (Byte.eqb c) chars) removed = true /\
    match bytes_lstrip chars b with
    | [] => True
    | c :: _ => existsb (Byte.eqb c) chars = false
    end.
Proof.
  induction b as [|c t IH]; cbn [bytes_lstrip].
  - exists []. repeat split.
  - destruct (existsb (Byte.eqb c) chars) eqn:E.
    + destruct IH as (r & E1 & E2 & E3). exists (c :: r). cbn [app forallb].
      rewrite E, E2. repeat split; [now f_equal | exact E3].
    + exists []. repeat split. exact E.
Qed.

Lemma bytes_lstrip_idem (chars b : pybytes) :
  bytes_lstrip chars (bytes_lstrip chars b) = bytes_lstrip chars b.
Proof.
  induction b as [|c t IH]; cbn [bytes_lstrip]; [reflexivity|].
  destruct (existsb (Byte.eqb c) chars) eqn:E; [exact IH|].
  cbn [bytes_lstrip]. now rewrite E.
Qed.

(** X17: [lstrip(vstr, p)] removes a set of bytes, not a prefix: when
    it returns on a byte string, the result is what is left of it after
    its longest beginning made of bytes of [to_bytes(p)]; the first byte
    left is none of them, and stripping again changes nothing.  With
    [p = None] the set is the letters of [b'None'], not white space. *)
Theorem lstrip_removes_byte_set `{R : PyRuntime} (b : pybytes) (p r : pyval) :
  util.lstrip (VBytes b) p = Ok r ->
  (exists chars removed rest,
     to_bytes p = Ok (VBytes chars) /\ r = VBytes rest /\ b = removed ++ rest /\
     forallb (fun c => existsb (Byte.eqb c) chars) removed = true /\
     match rest with
     | [] => True
     | c :: _ => existsb (Byte.eqb c) chars = false
     end) /\
  util.lstrip r p = Ok r /\
  util.lstrip (VBytes b) VNone = Ok (VBytes (bytes_lstrip (blit "None") b)).
Proof.
  unfold util.lstrip.
  destruct (to_bytes p) as [c|e] eqn:E; cbn [bind]; [|discriminate].
  destruct (to_bytes_returns_bytes p c E) as [chars ->].
  intros [= <-]. split; [|split].
  - destruct (bytes_lstrip_split chars b) as (removed & E1 & E2 & E3).
    exists chars, removed, (bytes_lstrip chars b). auto.
  - cbn [bind]. now rewrite bytes_lstrip_idem.
  - reflexivity.
Qed.

Lemma lstrip_removes_byte_set_witness :
  @util.lstrip sample_runtime (VBytes (blit "abcab/x")) (VStr (tlit "ba"))
  = Ok (VBytes (blit "cab/x")) /\
  @util.lstrip sample_runtime (VBytes (blit "cab/x")) (VStr (tlit "ba"))
  = Ok (VBytes (blit "cab/x")).
Proof.
  split; [reflexivity|].
  apply (@lstrip_removes_byte_set sample_runtime (blit "abcab/x") (VStr (tlit "ba"))).
  reflexivity.
Defined.

(** X18: [lstrip(vstr, p)] returns on byte strings only: on a text it
    raises (TypeError, [str.lstrip] refusing the byte string, or the
    UnicodeEncodeError of [to_bytes(p)]), and on any other value it
    raises AttributeError before [p] is looked at. *)
Theorem lstrip_returns_on_bytes_only `{R : PyRuntime} (vstr p : pyval) :
  is_type_bytes vstr = false ->
  (exists e, util.lstrip vstr p = Raise e) /\
  (is_type_str vstr = false -> util.lstrip vstr p = Raise AttributeError) /\
  (is_type_str vstr = true ->
   util.lstrip vstr p = Raise TypeError \/
   (util.lstrip vstr p = Raise UnicodeEncodeError /\
    to_bytes p = Raise UnicodeEncodeError)).
Proof.
  intros Hb. destruct vstr; try discriminate Hb; cbn [util.lstrip is_type_str];
    try (split; [eauto | split; [reflexivity | discriminate]]).
  destruct (to_bytes p) as [c|e] eqn:E; cbn [bind].
  - split; [eauto | split; [discriminate | auto]].
  - split; [eauto | split; [discriminate|]]. intros _. right.
    unfold to_bytes in E. destruct (negb (is_type_bytes p)); [|discriminate].
    unfold str_encode in E. destruct (utf8_encode (py_str p)); cbn [bind] in E;
      [discriminate|]. injection E as <-. auto.
Qed.

Lemma lstrip_returns_on_bytes_only_witness :
  is_type_bytes (VStr (tlit "abc")) = false /\
  exists e, @util.lstrip sample_runtime (VStr (tlit "abc")) (VStr (tlit "a")) = Raise e.
Proof.
  split; [reflexivity|].
  apply (@lstrip_returns_on_bytes_only sample_runtime
           (VStr (tlit "abc")) (VStr (tlit "a"))).
  reflexivity.
Defined.

(** ** transform_notgit *)

(** X19: a function decorated with [transform_notgit] never raises
    NotGitRepository; it raises the abort 'not a git repository' where
    the function raised NotGitRepository, and returns or raises as the
    function does everywhere else; decorating twice is decorating
    once. *)
Theorem transform_notgit_outcomes {A B : Type} (f : A -> outcome B) (args : A) :
  transform_notgit f args <> Raises NotGitRepository /\
  (f args = Raises NotGitRepository ->
   transform_notgit f args
   = Raises (OtherException (Abort "not a git repository" []))) /\
  (f args <> Raises NotGitRepository -> transform_notgit f args = f args) /\
  transform_notgit (transform_notgit f) args = transform_notgit f args.
Proof.
  unfold transform_notgit. destruct (f args) as [b|[|e]].
  - repeat split; congruence.
  - repeat split; congruence.
  - repeat split; congruence.
Qed.

Lemma transform_notgit_outcomes_witness :
  transform_notgit (fun n : nat => if Nat.eqb n 0 then Raises NotGitRepository
                                   else Returns n) 0%nat
  = Raises (OtherException (Abort "not a git repository" [])).
Proof.
  apply (proj1 (proj2 (transform_notgit_outcomes
                         (fun n : nat => if Nat.eqb n 0 then Raises NotGitRepository
                                         else Returns n) 0%nat))).
  reflexivity.
Defined.

(** ** The order of the lines of .hgsubstate *)

Lemma str_leb_trans (a b c : pystr) :
  str_leb a b = true -> str_leb b c = true -> str_leb a c = true.
Proof.
  revert b c. induction a as [|x a IH]; intros [|y b] [|z c]; cbn [str_leb];
    try discriminate; try reflexivity.
  destruct (N.ltb_spec x y), (N.ltb_spec y x), (N.ltb_spec y z), (N.ltb_spec z y),
           (N.ltb_spec x z), (N.ltb_spec z x);
    try discriminate; try reflexivity; try lia.
  apply IH.
Qed.

Lemma str_leb_antisym (a b : pystr) :
  str_leb a b = true -> str_leb b a = true -> a = b.
Proof.
  revert b. induction a as [|x a IH]; intros [|y b]; cbn [str_leb];
    try discriminate; try reflexivity.
  destruct (N.ltb_spec x y), (N.ltb_spec y x); try discriminate; try lia.
  intros H1 H2. assert (x = y) as -> by lia. f_equal. now apply IH.
Qed.

Lemma sorted_lists_equal (l1 l2 : list pystr) :
  StronglySorted str_le l1 -> StronglySorted str_le l2 -> Permutation l1 l2 ->
  l1 = l2.
Proof.
  intros S1. revert l2. induction S1 as [|a t1 S1 IH F1]; intros l2 S2 P.
  - apply Permutation_nil in P. now subst.
  - destruct S2 as [|b t2 S2 F2].
    + apply Permutation_sym, Permutation_nil in P. discriminate.
    + assert (a = b) as ->.
      { assert (Ha : In a (b :: t2))
          by (eapply Permutation_in; [exact P | now left]).
        assert (Hb : In b (a :: t1))
          by (eapply Permutation_in; [exact (Permutation_sym P) | now left]).
        destruct Ha as [<-|Ha]; [reflexivity|].
        destruct Hb as [->|Hb]; [reflexivity|].
        apply str_leb_antisym.
        - exact (proj1 (Forall_forall _ _) F1 _ Hb).
        - exact (proj1 (Forall_forall _ _) F2 _ Ha). }
      f_equal. apply IH; [exact S2|]. eapply Permutation_cons_inv; eauto.
Qed.

Lemma sorted_of_permutation (l1 l2 : list pystr) :
  Permutation l1 l2 -> sorted l1 = sorted l2.
Proof.
  intros P. apply sorted_lists_equal.
  - apply Sorted_StronglySorted; [|apply sorted_Sorted].
    intros a b c. apply str_leb_trans.
  - apply Sorted_StronglySorted; [|apply sorted_Sorted].
    intros a b c. apply str_leb_trans.
  - rewrite <- (sorted_perm l1), <- (sorted_perm l2). exact P.
Qed.

Lemma od_lookup_permutation (d1 d2 : strdict) (k : pystr) :
  NoDup (map fst d1) -> Permutation d1 d2 -> od_lookup d1 k = od_lookup d2 k.
Proof.
  intros Hn Hp.
  assert (Hn' : NoDup (map fst d2)).
  { eapply Permutation_NoDup; [|exact Hn]. now apply Permutation_map. }
  destruct (od_lookup d1 k) as [v|] eqn:E.
  - symmetry. apply od_lookup_In; [assumption|].
    eapply Permutation_in; [exact Hp|]. now apply od_lookup_Some_In.
  - destruct (od_lookup d2 k) as [v|] eqn:E'; [|reflexivity].
    apply od_lookup_Some_In in E'.
    apply (Permutation_in _ (Permutation_sym Hp)) in E'.
    apply (od_lookup_In d1 k v Hn) in E'. congruence.
Qed.

(** X20: [serialize_hgsubstate] returns on every mapping (the keys it
    looks up are the keys of the mapping), and what it returns does not
    depend on the insertion order of the mapping: two mappings with the
    same items give the same text. *)
Theorem serialize_hgsubstate_ignores_insertion_order (d1 d2 : strdict) :
  NoDup (map fst d1) -> Permutation d1 d2 ->
  serialize_hgsubstate d1 = serialize_hgsubstate d2 /\
  serialize_hgsubstate d1 = Ok (concat (map hgsubstate_line (sorted_items d1))).
Proof.
  intros Hn Hp. unfold serialize_hgsubstate.
  rewrite !hgsubstate_lines_sorted_items. cbn [bind]. split; [|reflexivity].
  do 3 f_equal. unfold sorted_items.
  rewrite (sorted_of_permutation (map fst d1) (map fst d2))
    by now apply Permutation_map.
  apply map_ext. intros n. now rewrite (od_lookup_permutation d1 d2 n Hn Hp).
Qed.

Lemma serialize_hgsubstate_ignores_insertion_order_witness :
  serialize_hgsubstate [(tlit "lib", tlit "89ab"); (tlit "doc dir", tlit "4567")]
  = serialize_hgsubstate [(tlit "doc dir", tlit "4567"); (tlit "lib", tlit "89ab")].
Proof.
  apply (serialize_hgsubstate_ignores_insertion_order
           [(tlit "lib", tlit "89ab"); (tlit "doc dir", tlit "4567")]
           [(tlit "doc dir", tlit "4567"); (tlit "lib", tlit "89ab")]).
  - apply distinct_NoDup. reflexivity.
  - apply perm_swap.
Defined.

(** ** updatebookmarks *)

Lemma for_changes_frame (changes : list change) (s : frame) :
  fst (snd (for_changes changes s)) = fst s /\
  calls (snd (snd (for_changes changes s))) = calls (snd s).
Proof.
  revert s. induction changes as [|[name node] rest IH]; intros s; [split; reflexivity|].
  cbn [for_changes]. unfold seq. destruct node as [n|].
  - unfold set_bookmark. destruct (IH (fst s, {| bookmarks := od_set (bookmarks (snd s)) name n;
                                                 calls := calls (snd s) |})) as [H1 H2].
    exact (conj H1 H2).
  - unfold del_bookmark. destruct (od_lookup (bookmarks (snd s)) name).
    + destruct (IH (fst s, {| bookmarks := od_del (bookmarks (snd s)) name;
                              calls := calls (snd s) |})) as [H1 H2].
      exact (conj H1 H2).
    + split; reflexivity.
Qed.

Lemma change_store_shape (hg : mercurial) (changes : list change) (s : frame) :
  fst (snd (change_store hg changes s)) = fst s /\
  exists work,
    calls (snd (snd (change_store hg changes s))) = calls (snd s) ++ work /\
    forallb is_work work = true /\
    (fst (change_store hg changes s) = Ok tt <-> In Close work).
Proof.
  unfold change_store, seq. destruct (has_applychanges hg).
  - unfold call_applychanges, call.
    destruct (raises hg ApplyChanges); cbn [fst snd].
    + split; [reflexivity|]. exists []. rewrite app_nil_r.
      repeat split; try discriminate. intros [].
    + destruct (raises hg Close); cbn [fst snd calls].
      * split; [reflexivity|]. exists [ApplyChanges].
        repeat split; try discriminate. intros [H|[]]. discriminate.
      * split; [reflexivity|]. exists [ApplyChanges; Close].
        rewrite <- app_assoc. repeat split. intros _. right. now left.
  - destruct (for_changes_frame changes s) as [F1 F2].
    destruct (for_changes changes s) as [[u|e] s1]; cbn [fst snd] in F1, F2.
    + unfold call.
      destruct (has_recordchange hg).
      * destruct (raises hg RecordChange); cbn [fst snd calls].
        { split; [assumption|]. exists []. rewrite app_nil_r.
          repeat split; try discriminate; try assumption. intros []. }
        destruct (raises hg Close); cbn [fst snd calls].
        { split; [assumption|]. exists [RecordChange]. rewrite F2.
          repeat split; try discriminate. intros [H|[]]. discriminate. }
        split; [assumption|]. exists [RecordChange; Close].
        rewrite F2, <- app_assoc. repeat split. intros _. right. now left.
      * destruct (raises hg WriteStore); cbn [fst snd calls].
        { split; [assumption|]. exists []. rewrite app_nil_r.
          repeat split; try discriminate; try assumption. intros []. }
        destruct (raises hg Close); cbn [fst snd calls].
        { split; [assumption|]. exists [WriteStore]. rewrite F2.
          repeat split; try discriminate. intros [H|[]]. discriminate. }
        split; [assumption|]. exists [WriteStore; Close].
        rewrite F2, <- app_assoc. repeat split. intros _. right. now left.
    + cbn [fst snd]. split; [assumption|]. exists []. rewrite app_nil_r.
      repeat split; try discriminate; try assumption. intros [].
Qed.

Lemma release_shape (hg : mercurial) (l : locals) (r : repo) (acq : list resource) :
  (tr l, lock l, wlock l) = (existsb (fun x => match x with Transaction => true | _ => false end) acq,
                             existsb (fun x => match x with Lock => true | _ => false end) acq,
                             existsb (fun x => match x with Wlock => true | _ => false end) acq) ->
  (exists rest, [Wlock; Lock; Transaction] = acq ++ rest) ->
  bookmarks (snd (snd (release hg (l, r)))) = bookmarks r /\
  exists rel rest,
    calls (snd (snd (release hg (l, r)))) = calls r ++ map Release rel /\
    rev acq = rel ++ rest /\
    match rest with
    | [] => fst (release hg (l, r)) = Ok tt
    | x :: _ => fst (release hg (l, r)) = Raise (match raises hg (Release x) with
                                                 | Some e => e
                                                 | None => KeyError
                                                 end)
                /\ raises hg (Release x) <> None
    end.
Proof.
  intros Hl [rest Hacq]. unfold release, release_one, seq, call, ret. cbn [fst snd].
  injection Hl as -> -> ->.
  destruct acq as [|a [|b [|c [|d acq]]]]; try discriminate Hacq.
  - cbn. split; [reflexivity|]. exists [], []. rewrite app_nil_r. auto.
  - injection Hacq as <- _. cbn [existsb orb rev app].
    destruct (raises hg (Release Wlock)) as [e|] eqn:E; cbn [fst snd calls bookmarks].
    + split; [reflexivity|]. exists [], [Wlock]. rewrite app_nil_r, E.
      repeat split. discriminate.
    + split; [reflexivity|]. exists [Wlock], []. auto.
  - injection Hacq as <- <- _. cbn [existsb orb rev app].
    destruct (raises hg (Release Lock)) as [e|] eqn:E; cbn [fst snd calls bookmarks].
    + split; [reflexivity|]. exists [], [Lock; Wlock]. rewrite app_nil_r, E.
      repeat split. discriminate.
    + destruct (raises hg (Release Wlock)) as [e|] eqn:E'; cbn [fst snd calls bookmarks].
      * split; [reflexivity|]. exists [Lock], [Wlock]. rewrite E'.
        repeat split. discriminate.
      * split; [reflexivity|]. exists [Lock; Wlock], [].
        rewrite <- app_assoc. auto.
  - injection Hacq as <- <- <- _. cbn [existsb orb rev app].
    destruct (raises hg (Release Transaction)) as [e|] eqn:E;
      cbn [fst snd calls bookmarks].
    + split; [reflexivity|]. exists [], [Transaction; Lock; Wlock].
      rewrite app_nil_r, E. repeat split. discriminate.
    + destruct (raises hg (Release Lock)) as [e|] eqn:E'; cbn [fst snd calls bookmarks].
      * split; [reflexivity|]. exists [Transaction], [Lock; Wlock]. rewrite E'.
        repeat split. discriminate.
      * destruct (raises hg (Release Wlock)) as [e|] eqn:E'';
          cbn [fst snd calls bookmarks].
        { split; [reflexivity|]. exists [Transaction; Lock], [Wlock].
          rewrite E'', <- app_assoc. repeat split. discriminate. }
        split; [reflexivity|]. exists [Transaction; Lock; Wlock], [].
        rewrite <- !app_assoc. auto.
Qed.

Lemma updatebookmarks_run (hg : mercurial) (changes : list change) (r : repo) :
  exists acq work rel rest,
    calls (snd (updatebookmarks hg changes r))
    = calls r ++ map Acquire acq ++ work ++ map Release rel /\
    (exists later, [Wlock; Lock; Transaction] = acq ++ later) /\
    forallb is_work work = true /\
    (work <> [] -> acq = [Wlock; Lock; Transaction]) /\
    rev acq = rel ++ rest /\
    match rest with
    | [] => True
    | x :: _ => raises hg (Release x) <> None
    end /\
    (fst (updatebookmarks hg changes r) = Ok tt <-> In Close work /\ rest = []) /\
    (raises hg (Acquire Wlock) = None -> raises hg (Acquire Lock) = None ->
     raises hg (Acquire Transaction) = None ->
     exists s,
       bookmarks (snd s) = bookmarks r /\
       bookmarks (snd (updatebookmarks hg changes r))
       = bookmarks (snd (snd (change_store hg changes s))) /\
       (rest = [] ->
        fst (updatebookmarks hg changes r) = fst (change_store hg changes s)) /\
       (rest <> [] -> exists e, fst (updatebookmarks hg changes r) = Raise e)).
Proof.
  destruct (updatebookmarks hg changes r) as [res r'] eqn:EU. cbn [fst snd].
  unfold updatebookmarks, try_block in EU.
  unfold seq at 1 in EU. unfold call at 1 in EU.
  destruct (raises hg (Acquire Wlock)) eqn:E1.
  { destruct (release_shape hg {| tr := false; lock := false; wlock := false |} r []
                            eq_refl (ex_intro _ _ eq_refl))
      as (Hb & rel & rest & Hc & Hr & Hres).
    destruct (release hg _) as [res' s'].
    cbn [fst snd] in *. injection EU as <- <-.
    exists [], [], rel, rest. cbn [map app forallb]. rewrite Hc.
    split; [reflexivity|]. split; [eauto|]. split; [reflexivity|].
    split; [congruence|]. split; [exact Hr|].
    split; [destruct rest; [exact I | apply Hres]|].
    split; [|congruence].
    split; [|intros [[] _]]. destruct res'; discriminate. }
  cbn [fst snd] in EU.
  unfold seq at 1 in EU. unfold assign at 1 in EU. cbn [fst snd tr lock wlock] in EU.
  unfold seq at 1 in EU. unfold call at 1 in EU.
  destruct (raises hg (Acquire Lock)) eqn:E2.
  { match type of EU with
    | context [release hg (?l, ?rp)] =>
      destruct (release_shape hg l rp [Wlock] eq_refl (ex_intro _ _ eq_refl))
        as (Hb & rel & rest & Hc & Hr & Hres)
    end.
    destruct (release hg _) as [res' s'].
    cbn [fst snd calls] in *. injection EU as <- <-.
    exists [Wlock], [], rel, rest. cbn [map app forallb]. rewrite Hc, <- app_assoc.
    split; [reflexivity|]. split; [eauto|]. split; [reflexivity|].
    split; [congruence|]. split; [exact Hr|].
    split; [destruct rest; [exact I | apply Hres]|].
    split; [|congruence].
    split; [|intros [[] _]]. destruct res'; discriminate. }
  cbn [fst snd] in EU.
  unfold seq at 1 in EU. unfold assign at 1 in EU. cbn [fst snd tr lock wlock] in EU.
  unfold seq at 1 in EU. unfold call at 1 in EU.
  destruct (raises hg (Acquire Transaction)) eqn:E3.
  { match type of EU with
    | context [release hg (?l, ?rp)] =>
      destruct (release_shape hg l rp [Wlock; Lock] eq_refl (ex_intro _ _ eq_refl))
        as (Hb & rel & rest & Hc & Hr & Hres)
    end.
    destruct (release hg _) as [res' s'].
    cbn [fst snd calls] in *. injection EU as <- <-.
    exists [Wlock; Lock], [], rel, rest. cbn [map app forallb].
    rewrite Hc, <- !app_assoc.
    split; [reflexivity|]. split; [eauto|]. split; [reflexivity|].
    split; [congruence|]. split; [exact Hr|].
    split; [destruct rest; [exact I | apply Hres]|].
    split; [|congruence].
    split; [|intros [[] _]]. destruct res'; discriminate. }
  cbn [fst snd] in EU.
  unfold seq at 1 in EU. unfold assign at 1 in EU. cbn [fst snd tr lock wlock calls] in EU.
  match type of EU with
  | context [change_store hg changes ?s] =>
    destruct (change_store_shape hg changes s) as (Hl & work & Hw & Fw & Hres1);
      destruct (change_store hg changes s) as [res1 [l1 r1]] eqn:EC
  end.
  cbn [fst snd calls] in *. subst l1.
  destruct (release_shape hg {| tr := true; lock := true; wlock := true |} r1
                          [Wlock; Lock; Transaction] eq_refl (ex_intro _ [] eq_refl))
    as (Hb & rel & rest & Hc & Hr & Hres).
  destruct (release hg _) as [res' s'].
  cbn [fst snd calls] in *. injection EU as <- <-.
  exists [Wlock; Lock; Transaction], work, rel, rest. cbn [map app].
  rewrite Hc, Hw, <- !app_assoc.
  split; [reflexivity|]. split; [exists []; reflexivity|]. split; [exact Fw|].
  split; [reflexivity|]. split; [exact Hr|].
  split; [destruct rest; [exact I | apply Hres]|].
  split.
  - destruct rest as [|x rest].
    + subst res'. rewrite Hres1. split; [auto | now intros [H _]].
    + destruct Hres as [-> _]. split; [discriminate | intros [_ H]; discriminate].
  - intros _ _ _. eexists. split; [|split; [|split]].
    2:{ rewrite Hb. match goal with |- _ = bookmarks (snd (snd ?x)) => idtac end.
        exact (eq_sym (f_equal (fun p => bookmarks (snd (snd p))) EC)). }
    + reflexivity.
    + intros ->. subst res'. exact (eq_sym (f_equal fst EC)).
    + destruct rest as [|x rest]; [congruence|]. destruct Hres as [-> _]. eauto.
Qed.

Lemma upto_raise_all {A : Type} (raise : A -> option pyexc) (l : list A) :
  (forall x, raise x = None) -> upto_raise raise l = l.
Proof.
  intros H. induction l as [|x t IH]; cbn [upto_raise]; [reflexivity|].
  now rewrite H, IH.
Qed.

Lemma for_changes_deletions (changes : list change) (s : frame) :
  fst (for_changes changes s)
  = if deletions_ok (bookmarks (snd s)) changes then Ok tt else Raise KeyError.
Proof.
  revert s. induction changes as [|[name node] rest IH]; intros s; [reflexivity|].
  cbn [for_changes deletions_ok]. unfold seq. destruct node as [n|].
  - unfold set_bookmark. apply IH.
  - unfold del_bookmark. destruct (od_lookup (bookmarks (snd s)) name);
      [apply IH | reflexivity].
Qed.

Lemma change_store_exact (hg : mercurial) (changes : list change) (s : frame) :
  calls (snd (snd (change_store hg changes s)))
  = calls (snd s) ++ store_calls hg (bookmarks (snd s)) changes /\
  (fst (change_store hg changes s) = Ok tt <->
   In Close (store_calls hg (bookmarks (snd s)) changes)).
Proof.
  unfold change_store, store_calls, seq. destruct (has_applychanges hg).
  - unfold call_applychanges, call. cbn [upto_raise].
    destruct (raises hg ApplyChanges); cbn [fst snd].
    + rewrite app_nil_r. split; [reflexivity|]. split; [discriminate | intros []].
    + destruct (raises hg Close); cbn [fst snd calls].
      * split; [reflexivity|]. split; [discriminate|]. intros [H|[]]. discriminate.
      * rewrite <- app_assoc. split; [reflexivity|]. split; [|reflexivity].
        intros _. right. now left.
  - pose proof (for_changes_deletions changes s) as F.
    destruct (for_changes_frame changes s) as [_ F2].
    destruct (for_changes changes s) as [[u|e] s1]; cbn [fst snd] in F, F2.
    + destruct (deletions_ok (bookmarks (snd s)) changes); [|discriminate F].
      unfold call. cbn [upto_raise].
      destruct (has_recordchange hg).
      * destruct (raises hg RecordChange); cbn [fst snd calls].
        { rewrite app_nil_r. split; [assumption|]. split; [discriminate | intros []]. }
        destruct (raises hg Close); cbn [fst snd calls].
        { rewrite F2. split; [reflexivity|]. split; [discriminate|].
          intros [H|[]]. discriminate. }
        rewrite F2, <- app_assoc. split; [reflexivity|]. split; [|reflexivity].
        intros _. right. now left.
      * destruct (raises hg WriteStore); cbn [fst snd calls].
        { rewrite app_nil_r. split; [assumption|]. split; [discriminate | intros []]. }
        destruct (raises hg Close); cbn [fst snd calls].
        { rewrite F2. split; [reflexivity|]. split; [discriminate|].
          intros [H|[]]. discriminate. }
        rewrite F2, <- app_assoc. split; [reflexivity|]. split; [|reflexivity].
        intros _. right. now left.
    + destruct (deletions_ok (bookmarks (snd s)) changes); [discriminate F|].
      cbn [fst snd]. rewrite app_nil_r. split; [assumption|].
      split; [discriminate | intros []].
Qed.

Lemma release_exact (hg : mercurial) (l : locals) (r : repo) (acq : list resource) :
  (tr l, lock l, wlock l)
  = (existsb (fun x => match x with Transaction => true | _ => false end) acq,
     existsb (fun x => match x with Lock => true | _ => false end) acq,
     existsb (fun x => match x with Wlock => true | _ => false end) acq) ->
  (exists rest, [Wlock; Lock; Transaction] = acq ++ rest) ->
  calls (snd (snd (release hg (l, r))))
  = calls r ++ map Release (upto_raise (fun x => raises hg (Release x)) (rev acq)) /\
  (fst (release hg (l, r)) = Ok tt <->
   upto_raise (fun x => raises hg (Release x)) (rev acq) = rev acq).
Proof.
  intros Hl [rest Hacq]. unfold release, release_one, seq, call, ret. cbn [fst snd].
  injection Hl as -> -> ->.
  destruct acq as [|a [|b [|c [|d acq]]]]; try discriminate Hacq.
  - cbn. rewrite app_nil_r. repeat split.
  - injection Hacq as <- _. cbn [existsb orb rev app upto_raise].
    destruct (raises hg (Release Wlock)); cbn [fst snd calls map].
    + rewrite app_nil_r. repeat split; discriminate.
    + repeat split.
  - injection Hacq as <- <- _. cbn [existsb orb rev app upto_raise].
    destruct (raises hg (Release Lock)); cbn [fst snd calls map].
    + rewrite app_nil_r. repeat split; discriminate.
    + destruct (raises hg (Release Wlock)); cbn [fst snd calls map].
      * repeat split; discriminate.
      * rewrite <- app_assoc. repeat split.
  - injection Hacq as <- <- <- _. cbn [existsb orb rev app upto_raise].
    destruct (raises hg (Release Transaction)); cbn [fst snd calls map].
    + rewrite app_nil_r. repeat split; discriminate.
    + destruct (raises hg (Release Lock)); cbn [fst snd calls map].
      * repeat split; discriminate.
      * destruct (raises hg (Release Wlock)); cbn [fst snd calls map].
        { rewrite <- app_assoc. repeat split; discriminate. }
        rewrite <- !app_assoc. repeat split.
Qed.

Lemma updatebookmarks_calls (hg : mercurial) (changes : list change) (r : repo) :
  calls (snd (updatebookmarks hg changes r))
  = calls r ++ map Acquire (acquired hg)
    ++ (if Nat.eqb (length (acquired hg)) 3
        then store_calls hg (bookmarks r) changes else [])
    ++ map Release (released hg) /\
  (fst (updatebookmarks hg changes r) = Ok tt <->
   acquired hg = [Wlock; Lock; Transaction] /\
   In Close (store_calls hg (bookmarks r) changes) /\
   released hg = [Transaction; Lock; Wlock]).
Proof.
  destruct (updatebookmarks hg changes r) as [res r'] eqn:EU. cbn [fst snd].
  unfold updatebookmarks, try_block in EU.
  unfold seq at 1 in EU. unfold call at 1 in EU.
  unfold released, acquired. cbn [upto_raise].
  destruct (raises hg (Acquire Wlock)).
  { destruct (release_exact hg {| tr := false; lock := false; wlock := false |} r []
                            eq_refl (ex_intro _ _ eq_refl)) as (Hc & Hres).
    destruct (release hg _) as [res' s'].
    cbn [fst snd rev upto_raise length Nat.eqb map app] in *.
    injection EU as <- <-. rewrite Hc. split; [now rewrite app_nil_r|].
    split; [destruct res'; discriminate | intros [H _]; discriminate]. }
  cbn [fst snd] in EU.
  unfold seq at 1 in EU. unfold assign at 1 in EU. cbn [fst snd tr lock wlock] in EU.
  unfold seq at 1 in EU. unfold call at 1 in EU.
  destruct (raises hg (Acquire Lock)).
  { match type of EU with
    | context [release hg (?l, ?rp)] =>
      destruct (release_exact hg l rp [Wlock] eq_refl (ex_intro _ _ eq_refl))
        as (Hc & Hres)
    end.
    destruct (release hg _) as [res' s'].
    cbn [fst snd calls rev length Nat.eqb map app] in *.
    injection EU as <- <-. rewrite Hc, <- app_assoc. split; [reflexivity|].
    split; [destruct res'; discriminate | intros [H _]; discriminate]. }
  cbn [fst snd] in EU.
  unfold seq at 1 in EU. unfold assign at 1 in EU. cbn [fst snd tr lock wlock] in EU.
  unfold seq at 1 in EU. unfold call at 1 in EU.
  destruct (raises hg (Acquire Transaction)).
  { match type of EU with
    | context [release hg (?l, ?rp)] =>
      destruct (release_exact hg l rp [Wlock; Lock] eq_refl (ex_intro _ _ eq_refl))
        as (Hc & Hres)
    end.
    destruct (release hg _) as [res' s'].
    cbn [fst snd calls rev length Nat.eqb map app] in *.
    injection EU as <- <-. rewrite Hc, <- !app_assoc. split; [reflexivity|].
    split; [destruct res'; discriminate | intros [H _]; discriminate]. }
  cbn [fst snd] in EU.
  unfold seq at 1 in EU. unfold assign at 1 in EU. cbn [fst snd tr lock wlock calls] in EU.
  match type of EU with
  | context [change_store hg changes ?s] =>
    destruct (change_store_shape hg changes s) as (Hl & _);
      destruct (change_store_exact hg changes s) as (Hw & Hres1);
      destruct (change_store hg changes s) as [res1 [l1 r1]]
  end.
  cbn [fst snd calls bookmarks] in *. subst l1.
  destruct (release_exact hg {| tr := true; lock := true; wlock := true |} r1
                          [Wlock; Lock; Transaction] eq_refl (ex_intro _ [] eq_refl))
    as (Hc & Hres).
  destruct (release hg _) as [res' s'].
  cbn [fst snd calls rev length Nat.eqb map app] in *.
  injection EU as <- <-. rewrite Hc, Hw, <- !app_assoc. split; [reflexivity|].
  destruct res' as [[]|e].
  - rewrite Hres1. split.
    + intros H. repeat split; [exact H | now apply Hres].
    + now intros (_ & H & _).
  - split; [discriminate|]. intros (_ & _ & H). apply Hres in H. discriminate.
Qed.

(** X21: the locks of [updatebookmarks], whatever raises.  The calls
    it makes are, in this order: the acquisitions of the working-copy
    lock, the repository lock and the transaction, up to the first that
    raises; only if all three are held, the calls on the store and
    [tr.close()], up to the first that raises; and the releases of what
    is held, the transaction first and the working-copy lock last, up to
    the first release that raises.  It returns exactly when all three
    were taken, [tr.close()] returned and all three were released; when
    no release raises, everything taken is released. *)
Theorem updatebookmarks_lock_discipline
        (hg : mercurial) (changes : list change) (r : repo) :
  calls (snd (updatebookmarks hg changes r))
  = calls r ++ map Acquire (acquired hg)
    ++ (if Nat.eqb (length (acquired hg)) 3
        then store_calls hg (bookmarks r) changes else [])
    ++ map Release (released hg) /\
  (fst (updatebookmarks hg changes r) = Ok tt <->
   acquired hg = [Wlock; Lock; Transaction] /\
   In Close (store_calls hg (bookmarks r) changes) /\
   released hg = [Transaction; Lock; Wlock]) /\
  ((forall x, raises hg (Release x) = None) -> released hg = rev (acquired hg)).
Proof.
  destruct (updatebookmarks_calls hg changes r) as [Hc Hr].
  split; [exact Hc|]. split; [exact Hr|].
  intros Hn. unfold released. now apply upto_raise_all.
Qed.

Lemma updatebookmarks_lock_discipline_witness :
  calls (snd (updatebookmarks old_mercurial changes_sample bookmarks_sample))
  = [Acquire Wlock; Acquire Lock; Acquire Transaction; WriteStore; Close;
     Release Transaction; Release Lock; Release Wlock] /\
  released old_mercurial = rev (acquired old_mercurial).
Proof.
  split; [reflexivity|].
  apply (proj2 (proj2 (updatebookmarks_lock_discipline
                         old_mercurial changes_sample bookmarks_sample))).
  intros x. reflexivity.
Defined.

Lemma od_del_keys (d : strdict) (k x : pystr) :
  In x (map fst (od_del d k)) -> In x (map fst d).
Proof.
  induction d as [|[k0 v0] t IH]; cbn [od_del map fst In]; [trivial|].
  destruct (str_eqb k0 k); cbn [map fst In]; [auto|]. intros [H|H]; auto.
Qed.

Lemma od_del_NoDup (d : strdict) (k : pystr) :
  NoDup (map fst d) -> NoDup (map fst (od_del d k)).
Proof.
  induction d as [|[k0 v0] t IH]; cbn [od_del map fst]; [trivial|].
  intros H. inversion H as [|? ? Hn Ht]; subst.
  destruct (str_eqb k0 k); cbn [map fst]; [assumption|].
  constructor; [|now apply IH]. intros Hin. apply Hn. eapply od_del_keys; eauto.
Qed.

Lemma od_lookup_absent (d : strdict) (k : pystr) :
  ~ In k (map fst d) -> od_lookup d k = None.
Proof.
  intros H. destruct (od_lookup d k) as [v|] eqn:E; [|reflexivity].
  apply od_lookup_Some_In in E. exfalso. apply H.
  apply (in_map fst) in E. exact E.
Qed.

Lemma od_lookup_del (d : strdict) (k k' : pystr) :
  NoDup (map fst d) ->
  od_lookup (od_del d k) k' = if str_eqb k k' then None else od_lookup d k'.
Proof.
  induction d as [|[k0 v0] t IH]; cbn [od_del od_lookup map fst].
  - intros _. now destruct (str_eqb k k').
  - intros H. inversion H as [|? ? Hn Ht]; subst.
    destruct (str_eqb k0 k) eqn:E.
    + apply str_eqb_eq in E. subst k0.
      destruct (str_eqb k k') eqn:E'; [|reflexivity].
      apply str_eqb_eq in E'. subst k'. now apply od_lookup_absent.
    + cbn [od_lookup]. destruct (str_eqb k0 k') eqn:E'; [|now apply IH].
      apply str_eqb_eq in E'. subst k'.
      destruct (str_eqb k k0) eqn:E2; [|reflexivity].
      apply str_eqb_eq in E2. subst k0. now rewrite str_eqb_refl in E.
Qed.

Lemma for_changes_lookup (changes : list change) (s : frame) :
  NoDup (map fst (bookmarks (snd s))) ->
  fst (for_changes changes s) = Ok tt ->
  forall name,
    od_lookup (bookmarks (snd (snd (for_changes changes s)))) name
    = match last_change name changes with
      | Some node => node
      | None => od_lookup (bookmarks (snd s)) name
      end.
Proof.
  revert s. induction changes as [|[n node] rest IH]; intros s Hn; [reflexivity|].
  cbn [for_changes last_change]. unfold seq. destruct node as [v|].
  - unfold set_bookmark. intros H name.
    match type of H with
    | fst (for_changes rest ?s') = _ =>
      rewrite (IH s' (od_set_NoDup _ n v Hn) H)
    end.
    destruct (last_change name rest); [reflexivity|].
    cbn [snd bookmarks]. rewrite od_lookup_set. now destruct (str_eqb n name).
  - unfold del_bookmark. destruct (od_lookup (bookmarks (snd s)) n); [|discriminate].
    intros H name.
    match type of H with
    | fst (for_changes rest ?s') = _ =>
      rewrite (IH s' (od_del_NoDup _ n Hn) H)
    end.
    destruct (last_change name rest); [reflexivity|].
    cbn [snd bookmarks]. rewrite od_lookup_del by assumption.
    now destruct (str_eqb n name).
Qed.

Lemma for_changes_app (a b : list change) (s : frame) :
  for_changes (a ++ b) s = (for_changes a >> for_changes b) s.
Proof.
  revert s. induction a as [|[n node] a IH]; intros s; cbn [app for_changes].
  - reflexivity.
  - unfold seq in *. destruct node as [v|].
    + unfold set_bookmark. apply IH.
    + unfold del_bookmark. destruct (od_lookup (bookmarks (snd s)) n); [apply IH|].
      reflexivity.
Qed.

Lemma for_changes_settings (changes : list change) (s : frame) :
  forallb (fun c : change => match snd c with Some _ => true | None => false end)
          changes = true ->
  fst (for_changes changes s) = Ok tt.
Proof.
  revert s. induction changes as [|[n node] rest IH]; intros s; [reflexivity|].
  cbn [forallb snd for_changes]. destruct node as [v|]; [|discriminate].
  cbn [andb]. intros H. unfold seq, set_bookmark. now apply IH.
Qed.

Lemma change_store_fallback (hg : mercurial) (changes : list change) (s : frame) :
  has_applychanges hg = false ->
  bookmarks (snd (snd (change_store hg changes s)))
  = bookmarks (snd (snd (for_changes changes s))) /\
  (fst (change_store hg changes s) = Ok tt -> fst (for_changes changes s) = Ok tt) /\
  (forall e, fst (for_changes changes s) = Raise e ->
             fst (change_store hg changes s) = Raise e).
Proof.
  intros Ha. unfold change_store. rewrite Ha. unfold seq.
  destruct (for_changes changes s) as [[[]|e] s1]; cbn [fst snd].
  - unfold call.
    destruct (has_recordchange hg).
    + destruct (raises hg RecordChange); cbn [fst snd bookmarks];
        [repeat split; discriminate|].
      destruct (raises hg Close); cbn [fst snd bookmarks]; repeat split; discriminate.
    + destruct (raises hg WriteStore); cbn [fst snd bookmarks];
        [repeat split; discriminate|].
      destruct (raises hg Close); cbn [fst snd bookmarks]; repeat split; discriminate.
  - repeat split; [discriminate | auto].
Qed.

(** X22: with a Mercurial without [applychanges], when
    [updatebookmarks] returns, the store holds every bookmark under the
    node of the last change that names it, does not hold a bookmark
    whose last change is a deletion, and holds the others as before. *)
Theorem updatebookmarks_applies_last_changes
        (hg : mercurial) (changes : list change) (r : repo) :
  has_applychanges hg = false ->
  NoDup (map fst (bookmarks r)) ->
  fst (updatebookmarks hg changes r) = Ok tt ->
  forall name,
    od_lookup (bookmarks (snd (updatebookmarks hg changes r))) name
    = match last_change name changes with
      | Some node => node
      | None => od_lookup (bookmarks r) name
      end.
Proof.
  intros Ha Hn Hok name.
  destruct (updatebookmarks_run hg changes r)
    as (acq & work & rel & rest & H1 & _ & _ & H4 & _ & _ & H7 & H8).
  apply H7 in Hok. destruct Hok as [Hc ->].
  assert (Hacq : acq = [Wlock; Lock; Transaction])
    by (apply H4; intros ->; destruct Hc).
  subst acq.
  assert (E1 : raises hg (Acquire Wlock) = None /\ raises hg (Acquire Lock) = None
               /\ raises hg (Acquire Transaction) = None).
  { clear -H1 Hc H7. unfold updatebookmarks, try_block in H7.
    pose proof (proj2 H7 (conj Hc eq_refl)) as Hok. clear H7 H1.
    unfold seq at 1 in Hok. unfold call at 1 in Hok.
    destruct (raises hg (Acquire Wlock)).
    { destruct (release hg _) as [[] ?]; discriminate. }
    cbn [fst snd] in Hok. unfold seq at 1 in Hok. unfold assign at 1 in Hok.
    unfold seq at 1 in Hok. unfold call at 1 in Hok.
    destruct (raises hg (Acquire Lock)).
    { destruct (release hg _) as [[] ?]; discriminate. }
    cbn [fst snd] in Hok. unfold seq at 1 in Hok. unfold assign at 1 in Hok.
    unfold seq at 1 in Hok. unfold call at 1 in Hok.
    destruct (raises hg (Acquire Transaction)).
    { destruct (release hg _) as [[] ?]; discriminate. }
    auto. }
  destruct E1 as (A1 & A2 & A3).
  destruct (H8 A1 A2 A3) as (s & Hs & Hb & Hr & _).
  rewrite Hb. destruct (change_store_fallback hg changes s Ha) as (B1 & B2 & _).
  rewrite B1. rewrite for_changes_lookup.
  - now rewrite Hs.
  - now rewrite Hs.
  - apply B2. rewrite <- Hr by reflexivity. apply H7. auto.
Qed.

Lemma updatebookmarks_applies_last_changes_witness :
  has_applychanges old_mercurial = false /\
  fst (updatebookmarks old_mercurial changes_sample bookmarks_sample) = Ok tt /\
  bookmarks (snd (updatebookmarks old_mercurial changes_sample bookmarks_sample))
  = [(tlit "master", tlit "33cc"); (tlit "topic", tlit "44dd")] /\
  od_lookup (bookmarks (snd (updatebookmarks old_mercurial changes_sample
                                              bookmarks_sample))) (tlit "old")
  = match last_change (tlit "old") changes_sample with
    | Some node => node
    | None => od_lookup (bookmarks bookmarks_sample) (tlit "old")
    end.
Proof.
  split; [reflexivity|]. split; [reflexivity|]. split; [reflexivity|].
  apply (updatebookmarks_applies_last_changes old_mercurial changes_sample
                                             bookmarks_sample).
  - reflexivity.
  - apply distinct_NoDup. reflexivity.
  - reflexivity.
Defined.

(** X23: with a Mercurial without [applychanges], the first deletion
    of a bookmark that the store does not hold at that point makes
    [updatebookmarks] raise (KeyError, unless a release raises).  The
    locks and the transaction were taken and are released; nothing else
    is called, so [tr.close()] is not reached (the log of calls holds no
    [Close] that it did not hold before); the changes listed before the
    deletion stay in the store, and those after it are not made. *)
Theorem updatebookmarks_failed_deletion
        (hg : mercurial) (pre post : list change) (name : pystr) (r : repo) :
  has_applychanges hg = false ->
  raises hg (Acquire Wlock) = None -> raises hg (Acquire Lock) = None ->
  raises hg (Acquire Transaction) = None ->
  NoDup (map fst (bookmarks r)) ->
  deletions_ok (bookmarks r) pre = true ->
  match last_change name pre with
  | Some node => node
  | None => od_lookup (bookmarks r) name
  end = None ->
  (exists e, fst (updatebookmarks hg (pre ++ (name, None) :: post) r) = Raise e) /\
  ((forall x, raises hg (Release x) = None) ->
   fst (updatebookmarks hg (pre ++ (name, None) :: post) r) = Raise KeyError) /\
  calls (snd (updatebookmarks hg (pre ++ (name, None) :: post) r))
  = calls r ++ [Acquire Wlock; Acquire Lock; Acquire Transaction]
    ++ map Release (released hg) /\
  (~ In Close (calls r) ->
   ~ In Close (calls (snd (updatebookmarks hg (pre ++ (name, None) :: post) r)))) /\
  (forall n,
     od_lookup (bookmarks (snd (updatebookmarks hg (pre ++ (name, None) :: post) r))) n
     = match last_change n pre with
       | Some node => node
       | None => od_lookup (bookmarks r) n
       end).
Proof.
  intros Ha A1 A2 A3 Hn Hpre Hnone.
  destruct (updatebookmarks_run hg (pre ++ (name, None) :: post) r)
    as (acq & work & rel & rest & _ & _ & _ & _ & _ & H6 & H7 & H8).
  destruct (H8 A1 A2 A3) as (s & Hs & Hb & Hr & Hr').
  destruct (change_store_fallback hg (pre ++ (name, None) :: post) s Ha)
    as (B1 & _ & B3).
  assert (Hs' : NoDup (map fst (bookmarks (snd s)))) by now rewrite Hs.
  assert (Hp : fst (for_changes pre s) = Ok tt)
    by now rewrite for_changes_deletions, Hs, Hpre.
  pose proof (for_changes_lookup pre s Hs' Hp) as Hl.
  assert (F : for_changes (pre ++ (name, None) :: post) s
              = (Raise KeyError, snd (for_changes pre s))).
  { rewrite for_changes_app. unfold seq at 1.
    destruct (for_changes pre s) as [[[]|e] s1]; [|discriminate Hp].
    cbn [fst snd] in *. cbn [for_changes]. unfold seq, del_bookmark.
    now rewrite (Hl name), Hs, Hnone. }
  assert (D : deletions_ok (bookmarks r) (pre ++ (name, None) :: post) = false).
  { pose proof (for_changes_deletions (pre ++ (name, None) :: post) s) as G.
    rewrite F, Hs in G. cbn [fst] in G.
    now destruct (deletions_ok (bookmarks r) (pre ++ (name, None) :: post)). }
  rewrite F in B1, B3. cbn [fst snd] in B1, B3.
  specialize (B3 KeyError eq_refl).
  assert (C : calls (snd (updatebookmarks hg (pre ++ (name, None) :: post) r))
              = calls r ++ [Acquire Wlock; Acquire Lock; Acquire Transaction]
                ++ map Release (released hg)).
  { destruct (updatebookmarks_calls hg (pre ++ (name, None) :: post) r) as [Hc _].
    rewrite Hc. unfold store_calls. rewrite Ha, D.
    unfold acquired. cbn [upto_raise]. rewrite A1, A2, A3. reflexivity. }
  split; [|split; [|split; [|split]]].
  - destruct rest as [|x rest].
    + rewrite (Hr eq_refl), B3. eauto.
    + apply Hr'. discriminate.
  - intros Hrel. destruct rest as [|x rest].
    + now rewrite (Hr eq_refl).
    + exfalso. apply H6. apply Hrel.
  - exact C.
  - intros Hnc. rewrite C, !in_app_iff, in_map_iff.
    intros [H|[[H|[H|[H|[]]]]|(x & H & _)]]; [exact (Hnc H) | | | |];
      discriminate H.
  - intros n. rewrite Hb, B1, (Hl n). now rewrite Hs.
Qed.

Lemma updatebookmarks_failed_deletion_witness :
  updatebookmarks old_mercurial
                  [(tlit "old", None); (tlit "master", Some (tlit "33cc"));
                   (tlit "old", None); (tlit "topic", Some (tlit "44dd"))]
                  bookmarks_sample
  = (Raise KeyError,
     {| bookmarks := [(tlit "master", tlit "33cc")];
        calls := [Acquire Wlock; Acquire Lock; Acquire Transaction;
                  Release Transaction; Release Lock; Release Wlock] |}) /\
  exists e, fst (updatebookmarks old_mercurial
                   ([(tlit "old", None); (tlit "master", Some (tlit "33cc"))]
                    ++ (tlit "old", None) :: [(tlit "topic", Some (tlit "44dd"))])
                   bookmarks_sample) = Raise e.
Proof.
  split; [reflexivity|].
  apply (updatebookmarks_failed_deletion old_mercurial
           [(tlit "old", None); (tlit "master", Some (tlit "33cc"))]
           [(tlit "topic", Some (tlit "44dd"))]
           (tlit "old") bookmarks_sample); try reflexivity.
  apply distinct_NoDup. reflexivity.
Defined.
